(** * tpsearch: local search over sliding-tile and N-queens states

    A shallow embedding of the Python sources

      - [eightpuzzle.py]   (class [EightPuzzleState])
      - [eightqueen.py]    (class [QueenState])
      - [hillclimbing.py]  (classes [HillClimbing], [EightPuzzleHillClimbing],
                            [QueenHillClimbing])
      - [simannealing.py]  (class [SimulatedAnnealing])
      - [plot.py]          (the curves of [plot_comparison])
      - [evaluation.py]    (the trials of [AlgorithmEvaluator])

    Python integers are [Z]; Python lists are Rocq lists read with a checked
    index; an exception is a value of [result]. Part I holds the definitions,
    Part II the theorems. *)

From Stdlib Require Import ZArith QArith List Lia Bool Sorted Permutation.
From stdpp Require Import base option list gmap strings.
Import ListNotations.
Local Open Scope Z_scope.

(* ===================================================================== *)
(** * Part I. Definitions *)
(* ===================================================================== *)

(** ** Python values: exceptions, ranges, checked indexing *)

Module Py.

Inductive exn : Type :=
| IndexError
| ValueError
| ZeroDivisionError
| OverflowError
| TypeError.

Inductive result (A : Type) : Type :=
| Ok (a : A)
| Raise (e : exn).
Arguments Ok {A} a.
Arguments Raise {A} e.

Definition bind {A B : Type} (m : result A) (k : A -> result B) : result B :=
  match m with
  | Ok a => k a
  | Raise e => Raise e
  end.

(** [range(n)] and [range(a, b)]. *)
Definition range (n : Z) : list Z := seqZ 0 n.
Definition range2 (a b : Z) : list Z := seqZ a (b - a).

(** [l[i]]: a negative index counts from the end, anything outside the
    list raises [IndexError]. *)
Definition getitem {A : Type} (l : list A) (i : Z) : result A :=
  let len := Z.of_nat (length l) in
  let k := if i <? 0 then i + len else i in
  if (0 <=? k) && (k <? len) then
    match l !! Z.to_nat k with
    | Some x => Ok x
    | None => Raise IndexError
    end
  else Raise IndexError.

(** [l[i] = x] on a list held by value. *)
Definition setitem {A : Type} (l : list A) (i : Z) (x : A) : result (list A) :=
  let len := Z.of_nat (length l) in
  let k := if i <? 0 then i + len else i in
  if (0 <=? k) && (k <? len) then Ok (<[Z.to_nat k := x]> l)
  else Raise IndexError.

(** [for x in xs: s = body x s], stopping at the first exception. *)
Fixpoint for_each {A S : Type} (xs : list A) (body : A -> S -> result S)
    (s : S) : result S :=
  match xs with
  | [] => Ok s
  | x :: xs' => bind (body x s) (for_each xs' body)
  end.

(** [max(x :: xs, key=key)]: the first element whose key is maximal. *)
Definition max_by {A : Type} (key : A -> Z) (x : A) (xs : list A) : A :=
  fold_left (fun best y => if key best <? key y then y else best) xs x.

End Py.

Import Py.

#[global] Instance result_bind : MBind result := fun A B k m => Py.bind m k.
#[global] Instance result_ret : MRet result := fun A a => Ok a.

(** ** eightqueen.py and [QueenHillClimbing] *)

Module Queen.

(** [QueenState]: [size] and [queen_cols], the column of each row's queen,
    [-1] for a row without one. *)
Record QueenState : Type := mkQueen {
  size : Z;
  queen_cols : list Z
}.

(** [QueenState.__init__(size)]: [queen_cols = [-1] * size]. *)
Definition init (size : Z) : QueenState :=
  {| size := size; queen_cols := replicate (Z.to_nat size) (-1) |}.

(** [place_queen(row, col)]: the updated state and the returned flag. *)
Definition place_queen (q : QueenState) (row col : Z)
    : result (QueenState * bool) :=
  if negb ((0 <=? row) && (row <? size q) && (0 <=? col) && (col <? size q))
  then Ok (q, false)
  else
    cols ← setitem (queen_cols q) row col;
    Ok ({| size := size q; queen_cols := cols |}, true).

(** One pass of the inner loop of [get_neighbors] for [new_col]. *)
Definition neighbor_body (q : QueenState) (row current_col new_col : Z)
    (neighbors : list QueenState) : result (list QueenState) :=
  if negb (new_col =? current_col) then
    let new_state := init (size q) in
    let new_state := {| size := size new_state; queen_cols := queen_cols q |} in
    cols ← setitem (queen_cols new_state) row new_col;
    Ok (neighbors ++ [{| size := size new_state; queen_cols := cols |}])
  else Ok neighbors.

(** One pass of the outer loop of [get_neighbors] for [row]. *)
Definition row_body (q : QueenState) (row : Z) (neighbors : list QueenState)
    : result (list QueenState) :=
  current_col ← getitem (queen_cols q) row;
  for_each (range (size q)) (neighbor_body q row current_col) neighbors.

(** [QueenHillClimbing.get_neighbors]. *)
Definition get_neighbors (q : QueenState) : result (list QueenState) :=
  for_each (range (size q)) (row_body q) [].

(** The test of lines 203-204 of hillclimbing.py. *)
Definition attacks (i j col1 col2 : Z) : bool :=
  (col1 =? col2) || (Z.abs (i - j) =? Z.abs (col1 - col2)).

Definition pair_body (q : QueenState) (i j : Z) (conflicts : Z) : result Z :=
  col1 ← getitem (queen_cols q) i;
  col2 ← getitem (queen_cols q) j;
  Ok (if attacks i j col1 col2 then conflicts + 1 else conflicts).

Definition conflicts_body (q : QueenState) (i : Z) (conflicts : Z) : result Z :=
  for_each (range2 (i + 1) (size q)) (pair_body q i) conflicts.

(** [QueenHillClimbing.evaluate]. *)
Definition evaluate (q : QueenState) : result Z :=
  conflicts ← for_each (range (size q)) (conflicts_body q) 0;
  Ok (100 - conflicts).

(** [QueenHillClimbing.is_goal]. *)
Definition is_goal (q : QueenState) : result bool :=
  score ← evaluate q;
  Ok (score =? 100).

(** The states the class builds: one column entry per row. *)
Definition well_formed (q : QueenState) : Prop :=
  size q = Z.of_nat (length (queen_cols q)).

(** Every row holds a queen on the board. *)
Definition all_placed (q : QueenState) : Prop :=
  Forall (fun c => 0 <= c < size q) (queen_cols q).

(** [get_queen_position(row)]: [None] for a row without a queen. *)
Definition get_queen_position (q : QueenState) (row : Z) : result (option Z) :=
  col ← getitem (queen_cols q) row;
  Ok (if negb (col =? -1) then Some col else None).

(** The loop of [is_valid_position] over the rows still to visit: unset rows
    and [row] itself are skipped, the first attacking queen returns
    [False]. *)
Fixpoint is_valid_from (q : QueenState) (row col : Z) (todo : list Z)
    : result bool :=
  match todo with
  | [] => Ok true
  | other_row :: todo' =>
      other_col ← getitem (queen_cols q) other_row;
      if (other_col =? -1) || (other_row =? row)
      then is_valid_from q row col todo'
      else if (col =? other_col) ||
              (Z.abs (row - other_row) =? Z.abs (col - other_col))
      then Ok false
      else is_valid_from q row col todo'
  end.

(** [is_valid_position(row, col)]. *)
Definition is_valid_position (q : QueenState) (row col : Z) : result bool :=
  is_valid_from q row col (range (size q)).

(** One pass of the loop of [get_board] for [(row, col)] of
    [enumerate(queen_cols)]. *)
Definition board_body (rc : nat * Z) (board : list (list string))
    : result (list (list string)) :=
  let '(row, col) := rc in
  if negb (col =? -1) then
    r ← getitem board (Z.of_nat row);
    r' ← setitem r col "Q"%string;
    setitem board (Z.of_nat row) r'
  else Ok board.

(** [get_board]: a [size] x [size] grid of ["."], with ["Q"] where a queen
    stands. *)
Definition get_board (q : QueenState) : result (list (list string)) :=
  let board :=
    replicate (Z.to_nat (size q)) (replicate (Z.to_nat (size q)) "."%string) in
  for_each (imap (fun row col => (row, col)) (queen_cols q)) board_body board.

(** [__eq__] on two states: the columns are compared, the sizes are not. *)
Definition eq (q other : QueenState) : bool :=
  bool_decide (queen_cols q = queen_cols other).

End Queen.

(** ** eightpuzzle.py and [EightPuzzleHillClimbing] *)

Module Puzzle.

(** [EightPuzzleState]: the board (a list of rows), [size] and the blank's
    (row, column). *)
Record EightPuzzleState : Type := mkPuzzle {
  board : list (list Z);
  size : Z;
  blank_pos : Z * Z
}.

(** [board[i][j]]. *)
Definition cell (board : list (list Z)) (i j : Z) : result Z :=
  row ← getitem board i;
  getitem row j.

(** [board[i][j] = v]. *)
Definition set_cell (board : list (list Z)) (i j v : Z)
    : result (list (list Z)) :=
  row ← getitem board i;
  row' ← setitem row j v;
  setitem board i row'.

(** The cells in the order the two nested loops visit them. *)
Definition cells (size : Z) : list (Z * Z) :=
  i ← range size; j ← range size; [(i, j)].
#[global] Arguments cells : simpl never.

(** The loops of [_find_blank] over the cells still to visit: the first
    cell equal to 0 is returned, [ValueError] is raised after the last. *)
Fixpoint find_blank_from (board : list (list Z)) (todo : list (Z * Z))
    : result (Z * Z) :=
  match todo with
  | [] => Raise ValueError
  | (i, j) :: todo' =>
      v ← cell board i j;
      if v =? 0 then Ok (i, j) else find_blank_from board todo'
  end.

Definition _find_blank (board : list (list Z)) (size : Z) : result (Z * Z) :=
  find_blank_from board (cells size).

(** [EightPuzzleState.__init__(board)]. *)
Definition init (board : list (list Z)) : result EightPuzzleState :=
  let size := 3 in
  blank_pos ← _find_blank board size;
  Ok {| board := board; size := size; blank_pos := blank_pos |}.

(** [get_possible_moves]. *)
Definition get_possible_moves (s : EightPuzzleState) : list string :=
  let moves := [] in
  let '(x, y) := blank_pos s in
  let moves := if 0 <? x then moves ++ ["上"%string] else moves in
  let moves := if x <? 2 then moves ++ ["下"%string] else moves in
  let moves := if 0 <? y then moves ++ ["左"%string] else moves in
  let moves := if y <? 2 then moves ++ ["右"%string] else moves in
  moves.

(** The dictionary [moves] of [move]. *)
Definition moves : gmap string (Z * Z) :=
  list_to_map [("上"%string, (-1, 0)); ("下"%string, (1, 0));
               ("左"%string, (0, -1)); ("右"%string, (0, 1))].

(** [move(direction)]: [None] is Python's [None]. On a board held by value
    [copy.deepcopy] is the identity. *)
Definition move (s : EightPuzzleState) (direction : string)
    : result (option EightPuzzleState) :=
  match moves !! direction with
  | None => Ok None
  | Some (dx, dy) =>
      let new_x := fst (blank_pos s) + dx in
      let new_y := snd (blank_pos s) + dy in
      if (0 <=? new_x) && (new_x <? size s) && (0 <=? new_y) && (new_y <? size s)
      then
        let new_board := board s in
        v ← cell new_board new_x new_y;
        new_board ← set_cell new_board (fst (blank_pos s)) (snd (blank_pos s)) v;
        new_board ← set_cell new_board new_x new_y 0;
        new_state ← init new_board;
        Ok (Some new_state)
      else Ok None
  end.

(** [EightPuzzleHillClimbing]: an [EightPuzzleState] with its own goal. *)
Record EightPuzzleHillClimbing : Type := mkPuzzleHC {
  state : EightPuzzleState;
  goal : EightPuzzleState
}.

(** [EightPuzzleHillClimbing.__init__(board, goal)]. *)
Definition hc_init (board : list (list Z)) (goal : EightPuzzleState)
    : result EightPuzzleHillClimbing :=
  st ← init board;
  Ok {| state := st; goal := goal |}.

(** One element of the comprehension of [get_neighbors]. *)
Definition neighbor_body (self : EightPuzzleHillClimbing) (m : string)
    (acc : list EightPuzzleHillClimbing)
    : result (list EightPuzzleHillClimbing) :=
  r ← move (state self) m;
  match r with
  | Some new_state =>
      n ← hc_init (board new_state) (goal self);
      Ok (acc ++ [n])
  | None => Ok acc
  end.

(** [EightPuzzleHillClimbing.get_neighbors]. *)
Definition get_neighbors (self : EightPuzzleHillClimbing)
    : result (list EightPuzzleHillClimbing) :=
  for_each (get_possible_moves (state self)) (neighbor_body self) [].

(** The innermost statement of [evaluate], for the goal cell (gi, gj). *)
Definition goal_cell_body (self : EightPuzzleHillClimbing) (i j : Z)
    (g : Z * Z) (distance : Z) : result Z :=
  let '(gi, gj) := g in
  gv ← cell (board (goal self)) gi gj;
  v ← cell (board (state self)) i j;
  Ok (if gv =? v then distance + (Z.abs (i - gi) + Z.abs (j - gj))
      else distance).

(** The body of the two outer loops of [evaluate], for the cell (i, j). *)
Definition tile_body (self : EightPuzzleHillClimbing) (c : Z * Z)
    (distance : Z) : result Z :=
  let '(i, j) := c in
  v ← cell (board (state self)) i j;
  if negb (v =? 0) then
    for_each (cells (size (state self))) (goal_cell_body self i j) distance
  else Ok distance.

(** [EightPuzzleHillClimbing.evaluate]. *)
Definition evaluate (self : EightPuzzleHillClimbing) : result Z :=
  distance ← for_each (cells (size (state self))) (tile_body self) 0;
  Ok (100 - distance).

(** [EightPuzzleHillClimbing.is_goal]. *)
Definition is_goal (self : EightPuzzleHillClimbing) : result bool :=
  score ← evaluate self;
  Ok (score =? 100).

(** A 3 x 3 grid. *)
Definition is_3x3 (board : list (list Z)) : Prop :=
  length board = 3%nat /\ Forall (fun row => length row = 3%nat) board.

(** No cell of the board holds 0. *)
Definition no_blank (board : list (list Z)) : Prop :=
  Forall (Forall (fun v => v <> 0)) board.

(** 0 is held by no cell of the board other than (x, y). *)
Definition only_blank (board : list (list Z)) (x y : Z) : Prop :=
  forall i j, 0 <= i < 3 -> 0 <= j < 3 -> cell board i j = Ok 0 -> i = x /\ j = y.

End Puzzle.

(** ** The same methods on a store of mutable objects

    Python lists and class instances are objects that several references can
    share. Here a state is a location of a store, [copy.deepcopy] and
    [list.copy] allocate, and an item assignment overwrites the object it is
    applied to. *)

Module Store.

Definition loc : Type := nat.

(** The objects of the two fixtures: a list of integers (a board row, a
    [queen_cols]), a list of rows (a board), an instance of
    [EightPuzzleState] (with [goal] for an [EightPuzzleHillClimbing]), an
    instance of [QueenHillClimbing]. *)
Inductive obj : Type :=
| OList (items : list Z)
| OBoard (rows : list loc)
| OPuzzle (board : loc) (size : Z) (blank_pos : Z * Z) (goal : option loc)
| OQueen (size : Z) (queen_cols : loc).

(** A computation on the store: its result or exception, and the store it
    leaves. *)
Definition M (A : Type) : Type := gmap loc obj -> result A * gmap loc obj.

Definition ret {A : Type} (a : A) : M A := fun h => (Ok a, h).

Definition lift {A : Type} (r : result A) : M A := fun h => (r, h).

Definition bind {A B : Type} (m : M A) (k : A -> M B) : M B :=
  fun h =>
    match m h with
    | (Ok a, h') => k a h'
    | (Raise e, h') => (Raise e, h')
    end.

(** A new object at a location no object occupies. *)
Definition alloc (o : obj) : M loc :=
  fun h => let l := fresh (dom h) in (Ok l, <[l := o]> h).

Definition read (l : loc) : M obj :=
  fun h =>
    match h !! l with
    | Some o => (Ok o, h)
    | None => (Raise TypeError, h)
    end.

Definition write (l : loc) (o : obj) : M unit :=
  fun h => (Ok tt, <[l := o]> h).

Definition read_list (l : loc) : M (list Z) :=
  bind (read l) (fun o =>
    match o with
    | OList items => ret items
    | _ => lift (Raise TypeError)
    end).

Definition read_board (l : loc) : M (list loc) :=
  bind (read l) (fun o =>
    match o with
    | OBoard rows => ret rows
    | _ => lift (Raise TypeError)
    end).

(** [for x in xs: s = body x s] on the store. *)
Fixpoint for_each_h {A S : Type} (xs : list A) (body : A -> S -> M S) (s : S)
    : M S :=
  match xs with
  | [] => ret s
  | x :: xs' => bind (body x s) (for_each_h xs' body)
  end.

(** *** eightpuzzle.py *)

(** [board[i][j]]. *)
Definition cell_h (board : loc) (i j : Z) : M Z :=
  bind (read_board board) (fun rows =>
  bind (lift (getitem rows i)) (fun row =>
  bind (read_list row) (fun items =>
  lift (getitem items j)))).

(** [board[i][j] = v]: the row object is overwritten in place. *)
Definition set_cell_h (board : loc) (i j v : Z) : M unit :=
  bind (read_board board) (fun rows =>
  bind (lift (getitem rows i)) (fun row =>
  bind (read_list row) (fun items =>
  bind (lift (setitem items j v)) (fun items' =>
  write row (OList items'))))).

Fixpoint find_blank_from_h (board : loc) (todo : list (Z * Z)) : M (Z * Z) :=
  match todo with
  | [] => lift (Raise ValueError)
  | (i, j) :: todo' =>
      bind (cell_h board i j) (fun v =>
        if v =? 0 then ret (i, j) else find_blank_from_h board todo')
  end.

(** [EightPuzzleState(board)], and [EightPuzzleHillClimbing(board, goal)]
    when [goal] is given: the instance refers to the board it is given. *)
Definition puzzle_new (board : loc) (goal : option loc) : M loc :=
  let size := 3 in
  bind (find_blank_from_h board (Puzzle.cells size)) (fun blank_pos =>
  alloc (OPuzzle board size blank_pos goal)).

Definition read_puzzle (self : loc)
    : M (loc * Z * (Z * Z) * option loc) :=
  bind (read self) (fun o =>
    match o with
    | OPuzzle board size blank_pos goal => ret (board, size, blank_pos, goal)
    | _ => lift (Raise TypeError)
    end).

(** The rows of [copy.deepcopy(board)]: each row object is copied once,
    [memo] maps the rows already copied to their copies. *)
Fixpoint deepcopy_rows (rows : list loc) (memo : list (loc * loc))
    : M (list loc) :=
  match rows with
  | [] => ret []
  | r :: rows' =>
      match list_find (fun p => p.1 = r) memo with
      | Some (_, (_, r')) =>
          bind (deepcopy_rows rows' memo) (fun rs => ret (r' :: rs))
      | None =>
          bind (read_list r) (fun items =>
          bind (alloc (OList items)) (fun r' =>
          bind (deepcopy_rows rows' ((r, r') :: memo)) (fun rs =>
          ret (r' :: rs))))
      end
  end.

(** [copy.deepcopy(board)]. *)
Definition deepcopy (board : loc) : M loc :=
  bind (read_board board) (fun rows =>
  bind (deepcopy_rows rows []) (fun rows' =>
  alloc (OBoard rows'))).

(** [EightPuzzleState.move(direction)]. *)
Definition move (self : loc) (direction : string) : M (option loc) :=
  match Puzzle.moves !! direction with
  | None => ret None
  | Some (dx, dy) =>
      bind (read_puzzle self) (fun '(board, size, blank_pos, _) =>
      let new_x := blank_pos.1 + dx in
      let new_y := blank_pos.2 + dy in
      if (0 <=? new_x) && (new_x <? size) && (0 <=? new_y) && (new_y <? size)
      then
        bind (deepcopy board) (fun new_board =>
        bind (cell_h new_board new_x new_y) (fun v =>
        bind (set_cell_h new_board blank_pos.1 blank_pos.2 v) (fun _ =>
        bind (set_cell_h new_board new_x new_y 0) (fun _ =>
        bind (puzzle_new new_board None) (fun new_state =>
        ret (Some new_state))))))
      else ret None)
  end.

(** [get_possible_moves]. *)
Definition get_possible_moves (self : loc) : M (list string) :=
  bind (read_puzzle self) (fun '(_, _, blank_pos, _) =>
  let moves := [] in
  let '(x, y) := blank_pos in
  let moves := if 0 <? x then moves ++ ["上"%string] else moves in
  let moves := if x <? 2 then moves ++ ["下"%string] else moves in
  let moves := if 0 <? y then moves ++ ["左"%string] else moves in
  let moves := if y <? 2 then moves ++ ["右"%string] else moves in
  ret moves).

(** One element of the comprehension of
    [EightPuzzleHillClimbing.get_neighbors]: the neighbour refers to the
    board of the state that [move] built and to the goal of [self]. *)
Definition puzzle_neighbor_body (self : loc) (m : string) (acc : list loc)
    : M (list loc) :=
  bind (move self m) (fun r =>
    match r with
    | Some new_state =>
        bind (read_puzzle new_state) (fun '(new_board, _, _, _) =>
        bind (read_puzzle self) (fun '(_, _, _, goal) =>
        bind (puzzle_new new_board goal) (fun n =>
        ret (acc ++ [n]))))
    | None => ret acc
    end).

(** [EightPuzzleHillClimbing.get_neighbors]. *)
Definition puzzle_get_neighbors (self : loc) : M (list loc) :=
  bind (get_possible_moves self) (fun moves =>
  for_each_h moves (puzzle_neighbor_body self) []).

(** *** eightqueen.py and [QueenHillClimbing] *)

Definition read_queen (self : loc) : M (Z * loc) :=
  bind (read self) (fun o =>
    match o with
    | OQueen size queen_cols => ret (size, queen_cols)
    | _ => lift (Raise TypeError)
    end).

(** [QueenHillClimbing(size)]. *)
Definition queen_new (size : Z) : M loc :=
  bind (alloc (OList (replicate (Z.to_nat size) (-1)))) (fun cols =>
  alloc (OQueen size cols)).

(** [l.copy()]. *)
Definition list_copy (l : loc) : M loc :=
  bind (read_list l) (fun items => alloc (OList items)).

(** One pass of the inner loop of [get_neighbors]. *)
Definition queen_neighbor_body (self : loc) (row current_col new_col : Z)
    (neighbors : list loc) : M (list loc) :=
  if negb (new_col =? current_col) then
    bind (read_queen self) (fun '(size, _) =>
    bind (queen_new size) (fun new_state =>
    bind (read_queen self) (fun '(_, cols) =>
    bind (list_copy cols) (fun cols' =>
    bind (read_queen new_state) (fun '(size', _) =>
    bind (write new_state (OQueen size' cols')) (fun _ =>
    bind (read_queen new_state) (fun '(_, target) =>
    bind (read_list target) (fun items =>
    bind (lift (setitem items row new_col)) (fun items' =>
    bind (write target (OList items')) (fun _ =>
    ret (neighbors ++ [new_state])))))))))))
  else ret neighbors.

(** One pass of the outer loop of [get_neighbors]. *)
Definition queen_row_body (self : loc) (row : Z) (neighbors : list loc)
    : M (list loc) :=
  bind (read_queen self) (fun '(_, cols) =>
  bind (read_list cols) (fun items =>
  bind (lift (getitem items row)) (fun current_col =>
  bind (read_queen self) (fun '(size, _) =>
  for_each_h (range size) (queen_neighbor_body self row current_col)
    neighbors)))).

(** [QueenHillClimbing.get_neighbors]. *)
Definition queen_get_neighbors (self : loc) : M (list loc) :=
  bind (read_queen self) (fun '(size, _) =>
  for_each_h (range size) (queen_row_body self) []).

(** The board at [board] as a list of lists, and the columns of a queens
    state, as a reader of the store sees them. *)
Definition board_value (board : loc) : M (list (list Z)) :=
  bind (read_board board) (fun rows =>
  for_each_h rows (fun r acc =>
    bind (read_list r) (fun items => ret (acc ++ [items]))) []).

Definition puzzle_value (self : loc) : M (list (list Z) * (Z * Z)) :=
  bind (read_puzzle self) (fun '(board, _, blank_pos, _) =>
  bind (board_value board) (fun b => ret (b, blank_pos))).

Definition queen_value (self : loc) : M (list Z) :=
  bind (read_queen self) (fun '(_, cols) => read_list cols).

(** A store with the puzzle state [[1,0,2],[3,4,5],[6,7,8]] at location 4
    and the queens state [1,3,0,2] at location 6. *)
Definition sample : gmap loc obj :=
  list_to_map
    [(0%nat, OList [1; 0; 2]); (1%nat, OList [3; 4; 5]);
     (2%nat, OList [6; 7; 8]); (3%nat, OBoard [0; 1; 2]%nat);
     (4%nat, OPuzzle 3%nat 3 (0, 1) None);
     (5%nat, OList [1; 3; 0; 2]); (6%nat, OQueen 4 5%nat)].

(** *** Reading a store as values *)

(** The board object at [b] has distinct row objects whose items are the
    rows of [bv]. *)
Definition board_at (h : gmap loc obj) (b : loc) (bv : list (list Z)) : Prop :=
  exists rows, h !! b = Some (OBoard rows) /\ NoDup rows /\
    Forall2 (fun r items => h !! r = Some (OList items)) rows bv.

(** The instance at [self] is the puzzle state [s]. *)
Definition puzzle_at (h : gmap loc obj) (self : loc)
    (s : Puzzle.EightPuzzleState) : Prop :=
  exists b goal,
    h !! self = Some (OPuzzle b (Puzzle.size s) (Puzzle.blank_pos s) goal) /\
    board_at h b (Puzzle.board s).

(** The instance at [self] is the queens state [q]. *)
Definition queen_at (h : gmap loc obj) (self : loc) (q : Queen.QueenState)
    : Prop :=
  exists cols,
    h !! self = Some (OQueen (Queen.size q) cols) /\
    h !! cols = Some (OList (Queen.queen_cols q)).

(** The outcome [out] of [move] on the store, leaving the store [h'], is
    the outcome [pure] of [Puzzle.move]. *)
Definition move_outcomes_agree (h' : gmap loc obj)
    (pure : result (option Puzzle.EightPuzzleState))
    (out : result (option loc)) : Prop :=
  match pure, out with
  | Ok None, Ok None => True
  | Ok (Some s'), Ok (Some l) => puzzle_at h' l s'
  | Raise e, Raise e' => e = e'
  | _, _ => False
  end.

(** The outcome [out] of [get_neighbors] on the store, leaving the store
    [h'], is the outcome [pure] of [Queen.get_neighbors]. *)
Definition neighbors_agree (h' : gmap loc obj)
    (pure : result (list Queen.QueenState)) (out : result (list loc)) : Prop :=
  match pure, out with
  | Ok ns, Ok ls => Forall2 (queen_at h') ls ns
  | Raise e, Raise e' => e = e'
  | _, _ => False
  end.

(** *** What a computation may touch *)

(** The references through which an object can be written to. *)
Definition owned (o : obj) : list loc :=
  match o with
  | OList _ => []
  | OBoard rows => rows
  | OPuzzle board _ _ _ => [board]
  | OQueen _ queen_cols => [queen_cols]
  end.

(** [h] extends [h0]: every object of [h0] is in [h] as it was, and the
    objects added since own only objects added since. *)
Definition extends (h0 h : gmap loc obj) : Prop :=
  h0 ⊆ h /\
  forall l o, h !! l = Some o -> h0 !! l = None ->
    forall l', l' ∈ owned o -> h0 !! l' = None.

(** From a store that extends [h0], [m] leaves a store that extends [h0],
    and a result it returns satisfies [Q]. *)
Definition frames {A : Type} (h0 : gmap loc obj) (m : M A) (Q : A -> Prop)
    : Prop :=
  forall h, extends h0 h ->
    extends h0 (m h).2 /\ forall a, (m h).1 = Ok a -> Q a.

End Store.

(** ** hillclimbing.py: the search interface and [HillClimbing] *)

Module Engine.

(** [HillClimbingProblem], the abstract base class of the searched states.
    Scores are Python numbers; both fixtures return integers. *)
Class HillClimbingProblem (T : Type) : Type := {
  get_neighbors : T -> list T;
  evaluate : T -> Z;
  is_goal : T -> bool
}.

(** Python floats as the annealer uses them: [a > b] and [a * b]. *)
Class FloatOps (F : Type) : Type := {
  float_gt : F -> F -> bool;
  float_mul : F -> F -> F
}.

(** The state [R] of the global generator of module [random].
    - [shuffle l r]: the list after [random.shuffle(l)];
    - [choice_index n r]: the draw behind [random.choice] on [n] items,
      reduced below [n] by [random_choice];
    - [metropolis delta temp r]: the outcome of
      [random.random() < math.exp(delta / temp)], which is computed in
      floating point and raises when the division or [math.exp] does. *)
Class RandomSource (R F : Type) : Type := {
  shuffle : forall {A : Type}, list A -> R -> list A * R;
  choice_index : nat -> R -> nat * R;
  metropolis : Z -> F -> R -> result bool * R
}.

(** Lines 115-118 of hillclimbing.py and 108-111 of simannealing.py: an
    [EightPuzzleHillClimbing] or a [QueenHillClimbing] is replaced by
    [generate_random_state()] of its class, any other object is kept. *)
Class Restartable (T R : Type) : Type := {
  fresh_initial_state : T -> R -> T * R
}.

(** [random.choice(x :: xs)]. *)
Definition random_choice {R F A : Type} `{RandomSource R F}
    (x : A) (xs : list A) (r : R) : A * R :=
  let '(k, r') := choice_index (length (x :: xs)) r in
  (nth (k mod length (x :: xs))%nat (x :: xs) x, r').

Definition default_max_steps : Z := 1000.

Section HillClimbing.
Context {T : Type} `{HillClimbingProblem T}.

(** The loop of [steepest_ascent] with [steps] iterations left. *)
Fixpoint steepest_loop (steps : nat) (current : T) (scores : list Z)
    : T * list Z :=
  match steps with
  | O => (current, scores)
  | S steps' =>
      match get_neighbors current with
      | [] => (current, scores)
      | n0 :: ns =>
          let '(best_neighbor, best_score) :=
            max_by snd (n0, evaluate n0)
                       (map (fun n => (n, evaluate n)) ns) in
          if best_score <=? evaluate current then (current, scores)
          else
            let current := best_neighbor in
            let scores := scores ++ [best_score] in
            if is_goal current then (current, scores)
            else steepest_loop steps' current scores
      end
  end.

(** A move of steepest ascent from [a] to [b]: [b] is a neighbour of [a]
    that no neighbour outscores, and it scores strictly more than [a]. *)
Definition steepest_move (a b : T) : Prop :=
  b ∈ get_neighbors a /\
  (forall n, n ∈ get_neighbors a -> evaluate n <= evaluate b) /\
  evaluate a < evaluate b.

(** Every two consecutive states of [path] are related by [step]. *)
Definition linked {X : Type} (step : X -> X -> Prop) (path : list X) : Prop :=
  forall i a b, path !! i = Some a -> path !! S i = Some b -> step a b.

(** [HillClimbing.steepest_ascent(initial_state, max_steps)]. *)
Definition steepest_ascent (initial_state : T) (max_steps : Z)
    : T * list Z :=
  steepest_loop (Z.to_nat max_steps) initial_state [evaluate initial_state].

Context {R F : Type} `{RandomSource R F}.

(** The inner [for neighbor in neighbors] of [first_choice]: the first
    neighbour that scores at least the current score. *)
Fixpoint first_acceptable (current : T) (neighbors : list T) : option T :=
  match neighbors with
  | [] => None
  | neighbor :: rest =>
      let neighbor_score := evaluate neighbor in
      if evaluate current <=? neighbor_score then Some neighbor
      else first_acceptable current rest
  end.

(** A move of first choice from state [a.1] with the generator in state
    [a.2]: the neighbours are shuffled, [b.1] is the first of the
    shuffled list that scores at least as much as [a.1], every one
    scanned before it scores less, and [b.2] is the generator's state
    after the shuffle. *)
Definition first_choice_move (a b : T * R) : Prop :=
  get_neighbors a.1 <> [] /\
  b.2 = (shuffle (get_neighbors a.1) a.2).2 /\
  evaluate a.1 <= evaluate b.1 /\
  exists pre post,
    (shuffle (get_neighbors a.1) a.2).1 = pre ++ b.1 :: post /\
    forall x, x ∈ pre -> evaluate x < evaluate a.1.

(** Why the loop stops at [final], reached with the generator in state
    [r_last], returning the generator in state [r']. *)
Definition first_choice_stop (steps moves : nat) (final : T) (r_last r' : R)
    : Prop :=
  (get_neighbors final = [] /\ r' = r_last) \/
  (get_neighbors final <> [] /\
   r' = (shuffle (get_neighbors final) r_last).2 /\
   forall x, x ∈ (shuffle (get_neighbors final) r_last).1 ->
             evaluate x < evaluate final) \/
  ((0 < moves)%nat /\ is_goal final = true /\ r' = r_last) \/
  (moves = steps /\ r' = r_last).

(** The loop of [first_choice] with [steps] iterations left. *)
Fixpoint first_choice_loop (steps : nat) (current : T) (scores : list Z)
    (rng : R) : T * list Z * R :=
  match steps with
  | O => (current, scores, rng)
  | S steps' =>
      match get_neighbors current with
      | [] => (current, scores, rng)
      | n0 :: ns =>
          let '(neighbors, rng) := shuffle (n0 :: ns) rng in
          match first_acceptable current neighbors with
          | None => (current, scores, rng)
          | Some neighbor =>
              let scores := scores ++ [evaluate neighbor] in
              let current := neighbor in
              if is_goal current then (current, scores, rng)
              else first_choice_loop steps' current scores rng
          end
      end
  end.

(** [HillClimbing.first_choice(initial_state, max_steps)], with the
    generator's state after the call. *)
Definition first_choice (initial_state : T) (max_steps : Z) (rng : R)
    : T * list Z * R :=
  first_choice_loop (Z.to_nat max_steps) initial_state
    [evaluate initial_state] rng.

Context `{Restartable T R}.

(** The loop of [random_restart] with [restarts] iterations left. *)
Fixpoint random_restart_loop (restarts : nat) (initial_state best_state : T)
    (best_score : Z) (all_scores : list Z) (rng : R) : T * list Z * R :=
  match restarts with
  | O => (best_state, all_scores, rng)
  | S restarts' =>
      let '(current_state, current_scores) :=
        steepest_ascent initial_state default_max_steps in
      let current_score := evaluate current_state in
      let '(best_state, best_score) :=
        if best_score <? current_score then (current_state, current_score)
        else (best_state, best_score) in
      let all_scores := all_scores ++ current_scores in
      if is_goal current_state then (best_state, all_scores, rng)
      else
        let '(initial_state, rng) := fresh_initial_state initial_state rng in
        random_restart_loop restarts' initial_state best_state best_score
          all_scores rng
  end.

(** [HillClimbing.random_restart(initial_state, max_restarts)]. *)
Definition random_restart (initial_state : T) (max_restarts : Z) (rng : R)
    : T * list Z * R :=
  let best_state := initial_state in
  let best_score := evaluate initial_state in
  let all_scores := [best_score] in
  random_restart_loop (Z.to_nat max_restarts) initial_state best_state
    best_score all_scores rng.

(** The initial states of the successive steepest-ascent attempts that
    [random_restart] makes, in order. *)
Fixpoint restart_attempts (restarts : nat) (initial_state : T) (rng : R)
    : list T :=
  match restarts with
  | O => []
  | S restarts' =>
      initial_state ::
      if is_goal (steepest_ascent initial_state default_max_steps).1 then []
      else
        let '(initial_state, rng) := fresh_initial_state initial_state rng in
        restart_attempts restarts' initial_state rng
  end.

End HillClimbing.

End Engine.

(** ** simannealing.py: [SimulatedAnnealing] *)

Module Annealing.
Import Engine.

Section SimulatedAnnealing.
Context {T R F : Type}.
Context `{HillClimbingProblem T} `{FloatOps F} `{RandomSource R F}.

(** The arguments of [anneal] after the initial state. *)
Record config : Type := mkConfig {
  initial_temp : F;
  cooling_rate : F;
  min_temp : F;
  steps_per_temp : Z
}.

(** The local variables of [anneal] other than [temp], and the
    generator's state. *)
Record walk : Type := mkWalk {
  current : T;
  current_score : Z;
  best_state : T;
  best_score : Z;
  scores : list Z;
  rng : R
}.

(** How one pass of the inner loop ends: it falls through to the next
    pass, leaves the loop by [break], leaves [anneal] by the [return] of
    line 66, or raises. *)
Inductive flow : Type :=
| Next (w : walk)
| Break (w : walk)
| Return (w : walk)
| Throw (e : exn).

(** Lines 53-54: the short-circuit [delta > 0 or random.random() < ...]. *)
Definition accepts (delta : Z) (temp : F) (r : R) : result bool * R :=
  if 0 <? delta then (Ok true, r) else metropolis delta temp r.

(** Lines 43-66, one pass of the inner loop at temperature [temp]. *)
Definition anneal_step (temp : F) (w : walk) : flow :=
  match get_neighbors (current w) with
  | [] => Break w
  | n0 :: ns =>
      let '(next_state, r1) := random_choice n0 ns (rng w) in
      let next_score := evaluate next_state in
      let delta := next_score - current_score w in
      match accepts delta temp r1 with
      | (Raise e, _) => Throw e
      | (Ok accepted, r2) =>
          let w :=
            if accepted then
              let w1 := {| current := next_state;
                           current_score := next_score;
                           best_state := best_state w;
                           best_score := best_score w;
                           scores := scores w ++ [next_score];
                           rng := r2 |} in
              if best_score w1 <? current_score w1 then
                {| current := current w1;
                   current_score := current_score w1;
                   best_state := current w1;
                   best_score := current_score w1;
                   scores := scores w1;
                   rng := rng w1 |}
              else w1
            else
              {| current := current w;
                 current_score := current_score w;
                 best_state := best_state w;
                 best_score := best_score w;
                 scores := scores w;
                 rng := r2 |} in
          if is_goal (current w) then Return w else Next w
      end
  end.

(** [for _ in range(steps_per_temp)] with [steps] passes left. *)
Fixpoint anneal_inner (steps : nat) (temp : F) (w : walk) : flow :=
  match steps with
  | O => Break w
  | S steps' =>
      match anneal_step temp w with
      | Next w' => anneal_inner steps' temp w'
      | other => other
      end
  end.

(** [while temp > min_temp], unrolled at most [fuel] times; [None] when
    the loop is still running after that. *)
Fixpoint anneal_loop (cfg : config) (fuel : nat) (temp : F) (w : walk)
    : option (result (T * list Z * R)) :=
  match fuel with
  | O => None
  | S fuel' =>
      if float_gt temp (min_temp cfg) then
        match anneal_inner (Z.to_nat (steps_per_temp cfg)) temp w with
        | Return w' => Some (Ok (current w', scores w', rng w'))
        | Throw e => Some (Raise e)
        | Next w' | Break w' =>
            anneal_loop cfg fuel' (float_mul temp (cooling_rate cfg)) w'
        end
      else Some (Ok (best_state w, scores w, rng w))
  end.

(** Lines 32-38. *)
Definition start (initial_state : T) (r : R) : walk :=
  let current := initial_state in
  let current_score := evaluate current in
  {| current := current; current_score := current_score;
     best_state := current; best_score := current_score;
     scores := [current_score]; rng := r |}.

(** [SimulatedAnnealing.anneal(initial_state, **cfg)]: the returned pair
    and the generator's state after the call. *)
Definition anneal (fuel : nat) (initial_state : T) (cfg : config) (r : R)
    : option (result (T * list Z * R)) :=
  anneal_loop cfg fuel (initial_temp cfg) (start initial_state r).

(** The temperature after [k] coolings. *)
Definition temp_after (cfg : config) (k : nat) (temp : F) : F :=
  Nat.iter k (fun t => float_mul t (cooling_rate cfg)) temp.

(** [s] is the first state of [path] with the highest score. *)
Definition first_best (path : list T) (s : T) : Prop :=
  exists pre post, path = pre ++ s :: post /\
    (forall x, x ∈ pre -> evaluate x < evaluate s) /\
    (forall x, x ∈ post -> evaluate x <= evaluate s).

(** The walk [w] has accepted the states [rest], in order, after
    [initial]: the trace holds their scores, [current] is the last of
    them and [best_state] the first with the highest score. *)
Definition tracks (initial : T) (rest : list T) (w : walk) : Prop :=
  scores w = map evaluate (initial :: rest) /\
  last (initial :: rest) = Some (current w) /\
  current_score w = evaluate (current w) /\
  best_score w = evaluate (best_state w) /\
  first_best (initial :: rest) (best_state w) /\
  linked (fun a b => b ∈ get_neighbors a) (initial :: rest).

(** The Metropolis test does not raise where [anneal] evaluates it: on a
    neighbour that does not score more than the state it is drawn from (the
    first disjunct of line 53 having failed), at a temperature above
    [min_temp] (the loop test of line 40 having let the round start). *)
Definition metropolis_defined (cfg : config) : Prop :=
  forall (s n : T) (temp : F) (r : R),
    n ∈ get_neighbors s -> evaluate n - evaluate s <= 0 ->
    float_gt temp (min_temp cfg) = true ->
    exists b, (metropolis (evaluate n - evaluate s) temp r).1 = Ok b.

(** What a pass of the inner loop keeps: the accepted states, none of
    which was a goal when the loop went on. *)
Definition pass_ok (initial : T) (out : flow) : Prop :=
  match out with
  | Next w' | Break w' =>
      exists rest', tracks initial rest' w' /\
        Forall (fun x => is_goal x = false) rest'
  | Return w' =>
      exists rest', tracks initial rest' w' /\ is_goal (current w') = true /\
        Forall (fun x => is_goal x = false) (removelast rest')
  | Throw _ => True
  end.

Context `{Restartable T R}.

(** The loop of [random_restart_anneal] with [restarts] iterations
    left. *)
Fixpoint restart_anneal_loop (fuel : nat) (cfg : config) (restarts : nat)
    (initial_state best_state : T) (best_score : Z) (all_scores : list Z)
    (r : R) : option (result (T * list Z * R)) :=
  match restarts with
  | O => Some (Ok (best_state, all_scores, r))
  | S restarts' =>
      match anneal fuel initial_state cfg r with
      | None => None
      | Some (Raise e) => Some (Raise e)
      | Some (Ok (current_state, scores, r)) =>
          let current_score := evaluate current_state in
          let all_scores := all_scores ++ scores in
          let '(best_state, best_score) :=
            if best_score <? current_score
            then (current_state, current_score)
            else (best_state, best_score) in
          if is_goal current_state then Some (Ok (best_state, all_scores, r))
          else
            let '(initial_state, r) := fresh_initial_state initial_state r in
            restart_anneal_loop fuel cfg restarts' initial_state best_state
              best_score all_scores r
      end
  end.

(** [SimulatedAnnealing.random_restart_anneal(initial_state,
    num_restarts, **cfg)]; [fuel] bounds each call of [anneal]. *)
Definition random_restart_anneal (fuel : nat) (initial_state : T)
    (num_restarts : Z) (cfg : config) (r : R)
    : option (result (T * list Z * R)) :=
  let best_state := initial_state in
  let best_score := evaluate initial_state in
  let all_scores := [] in
  restart_anneal_loop fuel cfg (Z.to_nat num_restarts) initial_state
    best_state best_score all_scores r.

End SimulatedAnnealing.

Arguments config : clear implicits.
Arguments walk : clear implicits.
Arguments flow : clear implicits.

End Annealing.

(** ** The random generators of the fixtures *)

Module Generate.
Import Engine.

(** [random.randint(a, b)] on the generator's state [R]. *)
Class RandInt (R : Type) : Type := {
  randint : Z -> Z -> R -> Z * R
}.

(** [range(a, b, step)] for a positive [step]. *)
Definition range_step (a b step : Z) : list Z :=
  (fun k => a + k * step) <$> seqZ 0 ((b - a + step - 1) `div` step).

(** [l[i:j]]: a negative bound counts from the end, and both bounds are
    clamped to the list. *)
Definition slice {A : Type} (l : list A) (i j : Z) : list A :=
  let len := Z.of_nat (length l) in
  let clamp k := if k <? 0 then Z.max 0 (k + len) else Z.min k len in
  take (Z.to_nat (clamp j - clamp i)) (drop (Z.to_nat (clamp i)) l).

Section Generators.
Context {R F : Type} `{RandomSource R F} `{RandInt R}.

(** [EightPuzzleState.generate_random_puzzle()]: the constructor's result
    and the generator's state after the shuffle. *)
Definition generate_random_puzzle (r : R)
    : result Puzzle.EightPuzzleState * R :=
  let numbers := range 9 in
  let '(numbers, r) := shuffle numbers r in
  let initial_board :=
    (fun i => slice numbers i (i + 3)) <$> range_step 0 9 3 in
  (Puzzle.init initial_board, r).

(** [EightPuzzleHillClimbing.generate_random_state()]. *)
Definition puzzle_generate_random_state (r : R)
    : result Puzzle.EightPuzzleHillClimbing * R :=
  let '(state, r) := generate_random_puzzle r in
  (state ← state;
   goal ← Puzzle.init [[0; 1; 2]; [3; 4; 5]; [6; 7; 8]];
   Puzzle.hc_init (Puzzle.board state) goal, r).

(** One pass of the loop of [QueenState.generate_random_state]. *)
Definition random_queen_body (row : Z) (st : Queen.QueenState * R)
    : result (Queen.QueenState * R) :=
  let '(state, r) := st in
  let '(col, r) := randint 0 (Queen.size state - 1) r in
  placed ← Queen.place_queen state row col;
  Ok (placed.1, r).

(** [QueenState.generate_random_state()], where [cls()] builds a state of the
    default size 8. *)
Definition queen_generate_random_state (r : R)
    : result (Queen.QueenState * R) :=
  let state := Queen.init 8 in
  for_each (range (Queen.size state)) random_queen_body (state, r).

(** [QueenHillClimbing.generate_random_state()]. *)
Definition queen_hc_generate_random_state (r : R)
    : result (Queen.QueenState * R) :=
  st ← queen_generate_random_state r;
  let state := st.1 in
  let new_state := Queen.init (Queen.size state) in
  Ok ({| Queen.size := Queen.size new_state;
         Queen.queen_cols := Queen.queen_cols state |}, st.2).

End Generators.

End Generate.

(** ** plot.py: the curves of [plot_comparison] *)

Module Plot.

(** [colors] of [plot_comparison]. *)
Definition colors : list string := ["b"; "g"; "r"; "c"; "m"; "y"; "k"]%string.

(** The arguments of one call of [plt.plot]: the series drawn, its colour and
    its label. *)
Record curve (A : Type) : Type := mkCurve {
  series : list A;
  color : string;
  label : string
}.
Arguments mkCurve {A} series color label.
Arguments series {A} c.
Arguments color {A} c.
Arguments label {A} c.

(** [max(len(scores) for scores in scores_list)]: [max] of no item raises
    [ValueError]. *)
Definition max_length {A : Type} (scores_list : list (list A)) : result Z :=
  match scores_list with
  | [] => Raise ValueError
  | scores :: rest =>
      Ok (max_by (fun n => n) (Z.of_nat (length scores))
                 (map (fun scores => Z.of_nat (length scores)) rest))
  end.

(** Lines 29-37, for the [i]-th pair of [zip(scores_list, labels)]. *)
Definition curve_body {A : Type} (max_length : Z)
    (item : nat * (list A * string)) (plotted : list (curve A))
    : result (list (curve A)) :=
  let '(i, (scores, label)) := item in
  let extended_scores := scores in
  extended_scores ←
    (if Z.of_nat (length scores) <? max_length then
       last_score ← getitem scores (-1);
       Ok (extended_scores ++
           replicate (Z.to_nat (max_length - Z.of_nat (length scores)))
                     last_score)
     else Ok extended_scores);
  color ← getitem colors (Z.of_nat i `mod` Z.of_nat (length colors));
  Ok (plotted ++ [mkCurve extended_scores color label]).

(** [plot_comparison(scores_list, labels, ...)]: the curves handed to
    [plt.plot], in order. [best_score] and [title] only reach the target
    line and the title of the figure. *)
Definition plot_comparison {A : Type} (scores_list : list (list A))
    (labels : list string) : result (list (curve A)) :=
  max_length ← max_length scores_list;
  for_each (imap (fun i item => (i, item)) (zip scores_list labels))
           (curve_body max_length) [].

(** A trace followed by copies of [last_score] up to the length [m]. *)
Definition padded {A : Type} (m : Z) (scores : list A) (last_score : A)
    : list A :=
  scores ++ replicate (Z.to_nat (m - Z.of_nat (length scores))) last_score.

End Plot.

(** ** evaluation.py: the trials of [AlgorithmEvaluator] *)

Module Evaluation.
Import Engine.

Section Evaluator.
Context {T R : Type} `{HillClimbingProblem T}.

(** [self.problem_generator] and the [algorithm] under test, each on the
    generator's state; the algorithm may raise. *)
Context (problem_generator : R -> T * R).
Context (algorithm : T -> R -> result (T * list Z) * R).

(** The locals of [evaluate_algorithm] that do not hold a time. *)
Record tally : Type := mkTally {
  success_count : Z;
  steps_list : list Z;
  final_scores : list Z;
  rng : R
}.

(** Lines 48-70, one trial. *)
Definition trial_body (_ : Z) (t : tally) : result tally :=
  let '(initial_state, r) := problem_generator (rng t) in
  let '(out, r) := algorithm initial_state r in
  out ← out;
  let '(final_state, scores) := out in
  let steps := Z.of_nat (length scores) in
  final_score ← getitem scores (-1);
  let success_count :=
    if is_goal final_state then success_count t + 1 else success_count t in
  Ok {| success_count := success_count;
        steps_list := steps_list t ++ [steps];
        final_scores := final_scores t ++ [final_score];
        rng := r |}.

(** [evaluate_algorithm(trial, algorithm, ...)] up to the statistics: the
    tally the means and deviations are computed from. [success_count / trial]
    is evaluated first and raises on [trial = 0]. *)
Definition evaluate_algorithm (trial : Z) (r : R) : result tally :=
  t ← for_each (range trial) trial_body
        {| success_count := 0; steps_list := []; final_scores := []; rng := r |};
  if trial =? 0 then Raise ZeroDivisionError else Ok t.

End Evaluator.

Arguments tally : clear implicits.

End Evaluation.

(** ** A small search problem for concrete runs *)

Module Ridge.
Import Engine.

(** Four spots on a line, [A - B - C - D], with scores 5, 9, 7 and 100;
    the goal is the spot that scores 100. *)
Inductive spot : Type := A | B | C | D.

#[global] Instance ridge_problem : HillClimbingProblem spot := {
  get_neighbors s :=
    match s with
    | A => [B]
    | B => [A; C]
    | C => [B; D]
    | D => [C]
    end;
  evaluate s :=
    match s with
    | A => 5
    | B => 9
    | C => 7
    | D => 100
    end;
  is_goal s :=
    match s with
    | D => true
    | _ => false
    end
}.

(** Temperatures as exact rationals. *)
#[global] Instance rational_floats : FloatOps Q := {
  float_gt a b := negb (Qle_bool a b);
  float_mul a b := Qred (Qmult a b)
}.

(** A scripted generator: the list of the draws still to come. A shuffle
    reverses the list on an odd draw, a choice takes the draw as its index,
    and the Metropolis test succeeds on a draw other than 0. *)
#[global] Instance scripted : RandomSource (list nat) Q := {
  shuffle A l r := (if Nat.even (hd 0%nat r) then l else reverse l, tl r);
  choice_index n r := (hd 0%nat r, tl r);
  metropolis delta temp r := (Ok (negb (Nat.eqb (hd 0%nat r) 0)), tl r)
}.

(** A restart draws the spot with the next draw's index. *)
#[global] Instance ridge_restart : Restartable spot (list nat) := {
  fresh_initial_state s r := (nth (hd 0%nat r) [A; B; C; D] A, tl r)
}.

(** A second scripted generator, whose Metropolis test raises as
    [math.exp(delta / temp)] does: [ZeroDivisionError] at [temp = 0] and
    [OverflowError] when the quotient is 710 or more. *)
Inductive tape : Type := Tape (draws : list nat).

#[global] Instance checked : RandomSource tape Q := {
  shuffle A l t :=
    let 'Tape r := t in
    (if Nat.even (hd 0%nat r) then l else reverse l, Tape (tl r));
  choice_index n t := let 'Tape r := t in (hd 0%nat r, Tape (tl r));
  metropolis delta temp t :=
    let 'Tape r := t in
    if Qeq_bool temp 0 then (Raise ZeroDivisionError, Tape (tl r))
    else if Qle_bool (710 # 1) (inject_Z delta / temp)
    then (Raise OverflowError, Tape (tl r))
    else (Ok (negb (Nat.eqb (hd 0%nat r) 0)), Tape (tl r))
}.

#[global] Instance ridge_restart_tape : Restartable spot tape := {
  fresh_initial_state s t :=
    let 'Tape r := t in (nth (hd 0%nat r) [A; B; C; D] A, Tape (tl r))
}.

(** A state without neighbours, which is its own goal. *)
#[global] Instance island_problem : HillClimbingProblem unit := {
  get_neighbors _ := [];
  evaluate _ := 7;
  is_goal _ := true
}.

(** [random.randint(a, b)] takes the next draw into [a .. b]. *)
#[global] Instance scripted_randint : Generate.RandInt (list nat) := {
  randint a b r := (a + Z.of_nat (hd 0%nat r) `mod` (b - a + 1), tl r)
}.

(** [initial_temp=100, cooling_rate=0.5, min_temp=60, steps_per_temp=2]:
    one round of two passes. *)
Definition cfg : Annealing.config Q :=
  Annealing.mkConfig (100 # 1) (1 # 2) (60 # 1) 2.

(** [initial_temp=1, cooling_rate=1, min_temp=0, steps_per_temp=0]: the
    temperature never falls. *)
Definition constant_cfg : Annealing.config Q :=
  Annealing.mkConfig (1 # 1) (1 # 1) (0 # 1) 0.

End Ridge.

(* ===================================================================== *)
(** * Part II. Theorems *)
(* ===================================================================== *)

(** ** The fixtures on concrete states *)

Example queen_scenario_2 :
  Queen.evaluate (Queen.mkQueen 4 [1; 3; 0; 2]) = Ok 100.
Proof. reflexivity. Qed.

Example queen_scenario_3 :
  Queen.evaluate (Queen.mkQueen 4 [0; 0; 0; 0]) = Ok 94.
Proof. reflexivity. Qed.

Example puzzle_scenario_1 :
  (g ← Puzzle.init [[0;1;2];[3;4;5];[6;7;8]];
   s ← Puzzle.hc_init [[0;1;2];[3;4;5];[6;7;8]] g;
   Puzzle.evaluate s) = Ok 100.
Proof. reflexivity. Qed.

Example puzzle_move_demo :
  (s ← Puzzle.init [[1;0;2];[3;4;5];[6;7;8]];
   r ← Puzzle.move s "下";
   Ok (option_map Puzzle.board r)) = Ok (Some [[1;4;2];[3;0;5];[6;7;8]]).
Proof. vm_compute. reflexivity. Qed.

(** ** Loops and indexing *)

(** Reduce the binds of [result] without unfolding anything else. *)
Ltac py_simpl := cbn [mbind result_bind Py.bind].

Section PyFacts.
Context {A S : Type}.

Lemma for_each_app (xs ys : list A) (body : A -> S -> result S) (s : S) :
  for_each (xs ++ ys) body s = Py.bind (for_each xs body s) (for_each ys body).
Proof.
  revert s. induction xs as [|x xs IH]; intros s; simpl; [done|].
  destruct (body x s); simpl; auto.
Qed.

(** Total loop rule: an invariant on the visited prefix that every pass
    re-establishes holds of the whole list at the end, and the loop does
    not raise. *)
Lemma for_each_total (R : list A -> S -> Prop) (xs : list A)
    (body : A -> S -> result S) (s : S) :
  R [] s ->
  (forall pre x post s1, xs = pre ++ x :: post -> R pre s1 ->
     exists s2, body x s1 = Ok s2 /\ R (pre ++ [x]) s2) ->
  exists s', for_each xs body s = Ok s' /\ R xs s'.
Proof.
  intros H0 Hstep.
  assert (G : forall todo pre s1, xs = pre ++ todo -> R pre s1 ->
             exists s', for_each todo body s1 = Ok s' /\ R xs s').
  { induction todo as [|x todo IH]; intros pre s1 E HR.
    - rewrite app_nil_r in E. subst pre. exists s1. split; [done|done].
    - destruct (Hstep pre x todo s1 E HR) as (s2 & Eb & HR2).
      simpl. rewrite Eb. simpl. apply (IH (pre ++ [x])); [|done].
      by rewrite <- app_assoc. }
  by apply (G xs [] s).
Qed.

(** Partial loop rule: whatever the passes preserve holds if the loop
    returns. *)
Lemma for_each_partial (P : S -> Prop) (xs : list A)
    (body : A -> S -> result S) (s s' : S) :
  P s ->
  (forall x s1 s2, x ∈ xs -> P s1 -> body x s1 = Ok s2 -> P s2) ->
  for_each xs body s = Ok s' -> P s'.
Proof.
  revert s. induction xs as [|x xs IH]; intros s H0 Hstep E; simpl in E.
  - by inversion E; subst.
  - destruct (body x s) as [s1|e] eqn:Eb; simpl in E; [|done].
    apply (IH s1); [|intros y t1 t2 Hy; apply Hstep; by right|done].
    eapply Hstep; [by left|exact H0|exact Eb].
Qed.
End PyFacts.

Lemma getitem_nonneg {A : Type} (l : list A) (i : Z) (x : A) :
  0 <= i -> l !! Z.to_nat i = Some x -> getitem l i = Ok x.
Proof.
  intros Hi Hl. unfold getitem.
  pose proof (lookup_lt_Some _ _ _ Hl) as Hlt.
  destruct (i <? 0) eqn:E; [lia|].
  replace ((0 <=? i) && (i <? Z.of_nat (length l))) with true.
  - by rewrite Hl.
  - symmetry. apply andb_true_iff. split; [apply Z.leb_le|apply Z.ltb_lt]; lia.
Qed.

Lemma getitem_Ok_inv {A : Type} (l : list A) (i : Z) (x : A) :
  0 <= i -> getitem l i = Ok x -> l !! Z.to_nat i = Some x.
Proof.
  intros Hi. unfold getitem.
  destruct (i <? 0) eqn:E; [lia|].
  destruct ((0 <=? i) && (i <? Z.of_nat (length l))); [|done].
  destruct (l !! Z.to_nat i); [|done]. by intros [= ->].
Qed.

Lemma getitem_in_range {A : Type} (l : list A) (i : Z) :
  0 <= i < Z.of_nat (length l) -> exists x, getitem l i = Ok x /\ l !! Z.to_nat i = Some x.
Proof.
  intros Hi. destruct (lookup_lt_is_Some_2 l (Z.to_nat i)) as [x Hx]; [lia|].
  exists x. split; [|done]. apply getitem_nonneg; [lia|done].
Qed.

Lemma setitem_in_range {A : Type} (l : list A) (i : Z) (x : A) :
  0 <= i < Z.of_nat (length l) -> setitem l i x = Ok (<[Z.to_nat i := x]> l).
Proof.
  intros Hi. unfold setitem.
  destruct (i <? 0) eqn:E; [lia|].
  replace ((0 <=? i) && (i <? Z.of_nat (length l))) with true; [done|].
  symmetry. apply andb_true_iff. split; [apply Z.leb_le|apply Z.ltb_lt]; lia.
Qed.

Lemma seqZ_split_at (m n : Z) (pre post : list Z) (x : Z) :
  seqZ m n = pre ++ x :: post ->
  x = m + Z.of_nat (length pre) /\ Z.of_nat (length pre) < n.
Proof.
  intros E. apply (lookup_seqZ m n (length pre) x).
  rewrite E. apply list_lookup_middle. done.
Qed.

Lemma filter_ne_seqZ_length (c m n : Z) :
  0 <= n ->
  Z.of_nat (length (filter (fun k => k <> c) (seqZ m n))) =
  if decide (m <= c < m + n) then n - 1 else n.
Proof.
  intros Hn. rewrite <- (Z2Nat.id n) by done.
  generalize (Z.to_nat n) as k. clear n Hn. intros k.
  induction k as [|k IH].
  - rewrite seqZ_nil by (simpl; lia). simpl. case_decide; [lia|done].
  - rewrite seqZ_S, filter_app, length_app, Nat2Z.inj_add, IH.
    rewrite filter_singleton; [|exact []].
    repeat case_decide; simpl; lia.
Qed.

(** ** Queens: neighbours *)

Section QueenNeighbors.
Import Queen.
Variable q : QueenState.
Hypothesis Hwf : well_formed q.

(** The neighbour that moves the queen of [row] to [new_col]. *)
Let moved (row new_col : Z) : QueenState :=
  {| size := size q; queen_cols := <[Z.to_nat row := new_col]> (queen_cols q) |}.

Lemma row_body_spec (row : Z) (acc : list QueenState) :
  0 <= row < size q ->
  exists c, queen_cols q !! Z.to_nat row = Some c /\
    row_body q row acc =
    Ok (acc ++ (moved row <$> filter (fun k => k <> c) (range (size q)))).
Proof.
  intros Hrow. red in Hwf.
  destruct (getitem_in_range (queen_cols q) row) as (c & Eg & El); [lia|].
  exists c. split; [done|]. unfold row_body. rewrite Eg. simpl.
  destruct (for_each_total
    (fun pre acc' => acc' = acc ++ (moved row <$> filter (fun k => k <> c) pre))
    (range (size q)) (neighbor_body q row c) acc) as (r & Er & ->); [| |done].
  - simpl. by rewrite app_nil_r.
  - intros pre x post s1 _ ->. unfold neighbor_body. simpl.
    rewrite filter_app, fmap_app, app_assoc.
    destruct (Z.eqb_spec x c) as [->|Hne]; simpl.
    + rewrite filter_singleton; [|exact []]. rewrite decide_False by tauto.
      simpl. rewrite app_nil_r. eauto.
    + rewrite filter_singleton; [|exact []]. rewrite decide_True by done.
      simpl. rewrite setitem_in_range by lia. simpl. eauto.
Qed.

Lemma get_neighbors_spec :
  get_neighbors q =
  Ok (row ← range (size q);
      match queen_cols q !! Z.to_nat row with
      | Some c => moved row <$> filter (fun k => k <> c) (range (size q))
      | None => []
      end).
Proof.
  unfold get_neighbors.
  destruct (for_each_total
    (fun pre acc => acc =
       (row ← pre;
        match queen_cols q !! Z.to_nat row with
        | Some c => moved row <$> filter (fun k => k <> c) (range (size q))
        | None => []
        end))
    (range (size q)) (row_body q) []) as (r & Er & ->); [done| |done].
  intros pre x post s1 E ->.
  apply seqZ_split_at in E as [-> Hlt].
  destruct (row_body_spec (0 + Z.of_nat (length pre))
              (pre ≫= (fun row => match queen_cols q !! Z.to_nat row with
                 | Some c => moved row <$> filter (fun k => k <> c) (range (size q))
                 | None => []
                 end))) as (c & Ec & Eb); [lia|].
  eexists. split; [exact Eb|].
  rewrite bind_app. f_equal. simpl. rewrite Ec. by rewrite app_nil_r.
Qed.

(** Membership: the neighbours are the single-row moves to another
    column. *)
Lemma get_neighbors_elem (ns : list QueenState) (n : QueenState) :
  get_neighbors q = Ok ns ->
  n ∈ ns <->
  exists row c new_col,
    0 <= row < size q /\ 0 <= new_col < size q /\
    queen_cols q !! Z.to_nat row = Some c /\ new_col <> c /\
    n = moved row new_col.
Proof.
  rewrite get_neighbors_spec. intros [= <-].
  rewrite list_elem_of_bind. split.
  - intros (row & Hn & Hrow). apply elem_of_seqZ in Hrow.
    destruct (queen_cols q !! Z.to_nat row) as [c|] eqn:Ec;
      [|by apply not_elem_of_nil in Hn].
    apply list_elem_of_fmap in Hn as (nc & -> & Hnc).
    apply list_elem_of_filter in Hnc as [Hne Hnc]. apply elem_of_seqZ in Hnc.
    exists row, c, nc. repeat split; try done; lia.
  - intros (row & c & nc & Hrow & Hnc & Ec & Hne & ->).
    exists row. split; [|apply elem_of_seqZ; lia].
    rewrite Ec. apply list_elem_of_fmap. exists nc. split; [done|].
    apply list_elem_of_filter. split; [done|]. apply elem_of_seqZ. lia.
Qed.
End QueenNeighbors.

Lemma length_bind_prefix (cols : list Z) (N : Z) (f : Z -> list Queen.QueenState)
    (k : nat) :
  (k <= length cols)%nat ->
  (forall row c, cols !! Z.to_nat row = Some c -> 0 <= row ->
     Z.of_nat (length (f row)) = if decide (0 <= c < N) then N - 1 else N) ->
  Z.of_nat (length (seqZ 0 (Z.of_nat k) ≫= f)) =
  Z.of_nat k * (N - 1) +
  Z.of_nat (length (filter (fun c => ~ 0 <= c < N) (take k cols))).
Proof.
  intros Hk Hf. induction k as [|k IH].
  - rewrite seqZ_nil by (simpl; lia). simpl. lia.
  - destruct (lookup_lt_is_Some_2 cols k) as [c Hc]; [lia|].
    rewrite seqZ_S, bind_app, length_app, Nat2Z.inj_add, IH by lia.
    rewrite (take_S_r _ _ _ Hc), filter_app, length_app, Nat2Z.inj_add.
    simpl. rewrite app_nil_r.
    rewrite (Hf (0 + Z.of_nat k) c)
      by (rewrite ?Z.add_0_l, ?Nat2Z.id; done || lia).
    rewrite filter_singleton; [|exact []].
    repeat case_decide; simpl; try tauto; lia.
Qed.

(** The number of neighbours of any well-formed queens state: [N - 1] for a
    row whose queen stands on the board, [N] for any other row. *)
Lemma queen_neighbors_count (q : Queen.QueenState) :
  Queen.well_formed q ->
  exists ns, Queen.get_neighbors q = Ok ns /\
    Z.of_nat (length ns) =
    Queen.size q * (Queen.size q - 1) +
    Z.of_nat (length (filter (fun c => ~ 0 <= c < Queen.size q) (Queen.queen_cols q))).
Proof.
  intros Hwf. eexists. split; [by apply get_neighbors_spec|].
  red in Hwf. unfold range. rewrite Hwf at 1.
  rewrite (length_bind_prefix (Queen.queen_cols q) (Queen.size q)); [|done|].
  - rewrite firstn_all. lia.
  - intros row c Hc Hrow. rewrite Hc, length_fmap.
    rewrite filter_ne_seqZ_length by lia.
    repeat case_decide; lia.
Qed.

(** ** Queens: evaluation *)

Lemma queen_pair_body_nonneg (q : Queen.QueenState) (i j c c' : Z) :
  Queen.pair_body q i j c = Ok c' -> c <= c' <= c + 1.
Proof.
  unfold Queen.pair_body.
  destruct (getitem (Queen.queen_cols q) i) as [c1|]; simpl; [|done].
  destruct (getitem (Queen.queen_cols q) j) as [c2|]; simpl; [|done].
  destruct (Queen.attacks i j c1 c2); intros [= <-]; lia.
Qed.

Lemma queen_conflicts_nonneg (q : Queen.QueenState) (c : Z) :
  for_each (range (Queen.size q)) (Queen.conflicts_body q) 0 = Ok c -> 0 <= c.
Proof.
  apply (for_each_partial (fun c => 0 <= c)); [lia|].
  intros i s1 s2 _ Hs1. unfold Queen.conflicts_body.
  apply (for_each_partial (fun c => 0 <= c)); [done|].
  intros j t1 t2 _ Ht1 E. apply queen_pair_body_nonneg in E. lia.
Qed.

Lemma queen_evaluate_total (q : Queen.QueenState) :
  Queen.well_formed q -> exists v, Queen.evaluate q = Ok v.
Proof.
  intros Hwf. red in Hwf. unfold Queen.evaluate.
  destruct (for_each_total (fun _ _ => True) (range (Queen.size q))
              (Queen.conflicts_body q) 0) as (c & -> & _); [done| |by eexists].
  intros pre i post s1 Ei _. apply seqZ_split_at in Ei as [-> Hi].
  unfold Queen.conflicts_body.
  destruct (for_each_total (fun _ _ => True)
              (range2 (0 + Z.of_nat (length pre) + 1) (Queen.size q))
              (Queen.pair_body q (0 + Z.of_nat (length pre))) s1)
    as (c & -> & _); [done| |by eexists].
  intros pre' j post' t1 Ej _. apply seqZ_split_at in Ej as [-> Hj].
  unfold Queen.pair_body.
  destruct (getitem_in_range (Queen.queen_cols q) (0 + Z.of_nat (length pre)))
    as (c1 & -> & _); [lia|].
  destruct (getitem_in_range (Queen.queen_cols q)
              (0 + Z.of_nat (length pre) + 1 + Z.of_nat (length pre')))
    as (c2 & -> & _); [lia|].
  simpl. by eexists.
Qed.

Lemma getitem_unset (N i : Z) :
  0 <= i < N -> getitem (Queen.queen_cols (Queen.init N)) i = Ok (-1).
Proof.
  intros Hi. apply getitem_nonneg; [lia|]. simpl.
  apply lookup_replicate_2. lia.
Qed.

Lemma unset_pair_body (N i j c : Z) :
  0 <= i < N -> 0 <= j < N ->
  Queen.pair_body (Queen.init N) i j c = Ok (c + 1).
Proof.
  intros Hi Hj. unfold Queen.pair_body.
  rewrite !getitem_unset by done. reflexivity.
Qed.

Lemma unset_conflicts_body (N i c : Z) :
  0 <= i < N ->
  Queen.conflicts_body (Queen.init N) i c = Ok (c + (N - 1 - i)).
Proof.
  intros Hi. unfold Queen.conflicts_body.
  destruct (for_each_total (fun pre c' => c' = c + Z.of_nat (length pre))
              (range2 (i + 1) (Queen.size (Queen.init N)))
              (Queen.pair_body (Queen.init N) i) c) as (r & -> & ->).
  - simpl. lia.
  - intros pre j post s1 Ej ->. apply seqZ_split_at in Ej as [-> Hj].
    simpl in Hj. rewrite unset_pair_body by lia.
    eexists. split; [done|]. rewrite length_app, Nat2Z.inj_add. simpl. lia.
  - f_equal. unfold range2. rewrite length_seqZ. simpl. lia.
Qed.

Lemma unset_conflicts (N : Z) :
  0 <= N ->
  exists t, for_each (range N) (Queen.conflicts_body (Queen.init N)) 0 = Ok t /\
            2 * t = N * (N - 1).
Proof.
  intros HN.
  destruct (for_each_total
    (fun pre c => 2 * c = Z.of_nat (length pre) * (2 * N - 1 - Z.of_nat (length pre)))
    (range N) (Queen.conflicts_body (Queen.init N)) 0) as (t & Et & Ht).
  - simpl. lia.
  - intros pre i post s1 Ei Hs. apply seqZ_split_at in Ei as [-> Hi].
    rewrite unset_conflicts_body by lia.
    eexists. split; [done|]. rewrite length_app, Nat2Z.inj_add. simpl. lia.
  - exists t. split; [done|]. unfold range in Ht. rewrite length_seqZ in Ht. nia.
Qed.

Lemma filter_off_board_nil (N : Z) (cols : list Z) :
  Forall (fun c => 0 <= c < N) cols ->
  filter (fun c => ~ 0 <= c < N) cols = [].
Proof.
  induction 1 as [|c l Hc _ IH]; [done|].
  rewrite filter_cons_False by tauto. done.
Qed.

(** ** Claims on the queens fixture *)

(** C5, as stated, fails: the state built by the bare constructor for
    [N = 2] has all its rows unset and gets 4 neighbours, not 2 * (2 - 1). *)
Lemma queen_neighbors_count_unset_counterexample :
  ~ (forall q ns, Queen.well_formed q -> Queen.get_neighbors q = Ok ns ->
       Z.of_nat (length ns) = Queen.size q * (Queen.size q - 1)).
Proof.
  intros H. specialize (H (Queen.init 2) _ eq_refl eq_refl). discriminate H.
Qed.

(** C5, amended: for a queens state of size [N] whose every row has its queen
    on the board (a column in [0, N)), [get_neighbors] returns exactly
    [N * (N - 1)] states, and a state is among them exactly when it is the
    parent with one row's queen moved to a different column of the board, all
    other rows and the size unchanged. *)
Theorem queen_neighbors_placed (q : Queen.QueenState) :
  Queen.well_formed q -> Queen.all_placed q ->
  exists ns, Queen.get_neighbors q = Ok ns /\
    Z.of_nat (length ns) = Queen.size q * (Queen.size q - 1) /\
    forall n, n ∈ ns <->
      exists row c new_col,
        0 <= row < Queen.size q /\ 0 <= new_col < Queen.size q /\
        Queen.queen_cols q !! Z.to_nat row = Some c /\ new_col <> c /\
        Queen.size n = Queen.size q /\
        Queen.queen_cols n !! Z.to_nat row = Some new_col /\
        (forall r, r <> Z.to_nat row ->
           Queen.queen_cols n !! r = Queen.queen_cols q !! r) /\
        length (Queen.queen_cols n) = length (Queen.queen_cols q).
Proof.
  intros Hwf Hall.
  destruct (queen_neighbors_count q Hwf) as (ns & Ens & Hlen).
  exists ns. split; [done|]. split.
  - rewrite Hlen.
    replace (filter _ (Queen.queen_cols q)) with (@nil Z); [simpl; lia|].
    symmetry. by apply filter_off_board_nil.
  - intros n. rewrite (get_neighbors_elem q Hwf ns n Ens). red in Hwf.
    split.
    + intros (row & c & nc & Hrow & Hnc & Ec & Hne & ->).
      exists row, c, nc. simpl. repeat split; try done; try lia.
      * apply list_lookup_insert_eq. lia.
      * intros r Hr. by apply list_lookup_insert_ne.
      * apply length_insert.
    + intros (row & c & nc & Hrow & Hnc & Ec & Hne & Hsz & Enc & Hoth & Hlen').
      exists row, c, nc. repeat split; try done; try lia.
      destruct n as [sz cols]. simpl in *. subst sz. f_equal.
      apply list_eq. intros r. destruct (decide (r = Z.to_nat row)) as [->|Hr].
      * rewrite Enc. symmetry. apply list_lookup_insert_eq. lia.
      * rewrite Hoth by done. symmetry. by apply list_lookup_insert_ne.
Qed.

Lemma queen_neighbors_placed_witness :
  exists ns, Queen.get_neighbors (Queen.mkQueen 4 [1; 3; 0; 2]) = Ok ns /\
             Z.of_nat (length ns) = 12.
Proof.
  destruct (queen_neighbors_placed (Queen.mkQueen 4 [1; 3; 0; 2]))
    as (ns & E & Hlen & _).
  - reflexivity.
  - unfold Queen.all_placed. simpl. repeat constructor; lia.
  - exists ns. split; [exact E|exact Hlen].
Defined.

(** C10: the state of the bare constructor of size [N] (every row unset)
    has every pair of rows counted as a conflict, because both columns are
    [-1]; it evaluates to [100 - N * (N - 1) / 2], and it is not a goal
    once [N >= 2]. *)
Theorem queen_unset_evaluate (N : Z) :
  0 <= N ->
  (forall i j c, 0 <= i < N -> 0 <= j < N ->
     getitem (Queen.queen_cols (Queen.init N)) i = Ok (-1) /\
     getitem (Queen.queen_cols (Queen.init N)) j = Ok (-1) /\
     Queen.pair_body (Queen.init N) i j c = Ok (c + 1)) /\
  Queen.evaluate (Queen.init N) = Ok (100 - N * (N - 1) / 2) /\
  (2 <= N -> Queen.is_goal (Queen.init N) = Ok false).
Proof.
  intros HN. split; [|split].
  - intros i j c Hi Hj.
    split; [by apply getitem_unset|split; [by apply getitem_unset|]].
    by apply unset_pair_body.
  - destruct (unset_conflicts N HN) as (t & Et & Ht).
    unfold Queen.evaluate. simpl. rewrite Et. simpl.
    do 2 f_equal. apply Z.div_unique_exact; lia.
  - intros H2. destruct (unset_conflicts N HN) as (t & Et & Ht).
    unfold Queen.is_goal, Queen.evaluate. simpl. rewrite Et. simpl.
    f_equal. apply Z.eqb_neq. nia.
Qed.

Lemma queen_unset_evaluate_witness :
  Queen.evaluate (Queen.init 8) = Ok 72 /\ Queen.is_goal (Queen.init 8) = Ok false.
Proof.
  destruct (queen_unset_evaluate 8) as (_ & E & G); [lia|].
  split; [exact E|apply G; lia].
Defined.

(** ** Tile puzzle: boards and the blank *)

Lemma cells_elem (n i j : Z) :
  (i, j) ∈ Puzzle.cells n <-> 0 <= i < n /\ 0 <= j < n.
Proof.
  unfold Puzzle.cells, range. rewrite list_elem_of_bind. split.
  - intros (i' & Hin & Hi'). apply elem_of_seqZ in Hi'.
    apply list_elem_of_bind in Hin as (j' & Hin & Hj').
    apply elem_of_seqZ in Hj'. apply list_elem_of_singleton in Hin.
    injection Hin as -> ->. lia.
  - intros [Hi Hj]. exists i. split; [|apply elem_of_seqZ; lia].
    apply list_elem_of_bind. exists j. split; [|apply elem_of_seqZ; lia].
    by apply list_elem_of_singleton.
Qed.

Lemma cell_3x3 (b : list (list Z)) (i j : Z) :
  Puzzle.is_3x3 b -> 0 <= i < 3 -> 0 <= j < 3 ->
  exists row v, b !! Z.to_nat i = Some row /\ row !! Z.to_nat j = Some v /\
                Puzzle.cell b i j = Ok v.
Proof.
  intros [Hlen Hrows] Hi Hj. unfold Puzzle.cell.
  destruct (getitem_in_range b i) as (row & Er & Hr); [lia|].
  assert (length row = 3%nat) as Hrow.
  { rewrite Forall_forall in Hrows. apply Hrows.
    eapply list_elem_of_lookup_2. exact Hr. }
  destruct (getitem_in_range row j) as (v & Ev & Hv); [lia|].
  exists row, v. rewrite Er. simpl. done.
Qed.

Lemma cell_Ok_elem (b : list (list Z)) (i j v : Z) :
  0 <= i -> 0 <= j -> Puzzle.cell b i j = Ok v ->
  exists row, row ∈ b /\ v ∈ row.
Proof.
  intros Hi Hj. unfold Puzzle.cell.
  destruct (getitem b i) as [row|] eqn:Er; simpl; [|done].
  intros Ev. apply getitem_Ok_inv in Er; [|done].
  apply getitem_Ok_inv in Ev; [|done].
  exists row. split; eapply list_elem_of_lookup_2; eassumption.
Qed.

(** The scan for the blank over cells that can all be read: it returns the
    first cell holding 0, and raises [ValueError] when there is none. *)
Lemma find_blank_from_spec (b : list (list Z)) (todo : list (Z * Z)) :
  Forall (fun c => exists v, Puzzle.cell b c.1 c.2 = Ok v) todo ->
  (Forall (fun c => Puzzle.cell b c.1 c.2 <> Ok 0) todo /\
   Puzzle.find_blank_from b todo = Raise ValueError) \/
  (exists c, c ∈ todo /\ Puzzle.cell b c.1 c.2 = Ok 0 /\
             Puzzle.find_blank_from b todo = Ok c).
Proof.
  induction 1 as [|[i j] todo [v Ev] _ IH]; simpl.
  - left. by split.
  - simpl in Ev. rewrite Ev. simpl.
    destruct (Z.eqb_spec v 0) as [->|Hv].
    + right. exists (i, j). split; [by left|]. by split.
    + destruct IH as [[Hall ->]|(c & Hc & E0 & ->)].
      * left. split; [|done]. constructor; [|done].
        simpl. rewrite Ev. by intros [= ?].
      * right. exists c. split; [by right|]. by split.
Qed.

Lemma cells_readable (b : list (list Z)) :
  Puzzle.is_3x3 b ->
  Forall (fun c => exists v, Puzzle.cell b c.1 c.2 = Ok v) (Puzzle.cells 3).
Proof.
  intros Hb. apply Forall_forall. intros [i j] Hin.
  apply cells_elem in Hin as [Hi Hj].
  destruct (cell_3x3 b i j Hb Hi Hj) as (row & v & _ & _ & Ev). by exists v.
Qed.

Lemma init_no_blank (b : list (list Z)) :
  Puzzle.is_3x3 b -> Puzzle.no_blank b -> Puzzle.init b = Raise ValueError.
Proof.
  intros Hb Hnb. unfold Puzzle.init, Puzzle._find_blank.
  destruct (find_blank_from_spec b (Puzzle.cells 3) (cells_readable b Hb))
    as [[_ ->]|(c & Hc & E0 & _)]; [done|].
  destruct c as [i j]. apply cells_elem in Hc as [Hi Hj]. simpl in E0.
  apply cell_Ok_elem in E0 as (row & Hrow & H0); [|lia|lia].
  red in Hnb. rewrite Forall_forall in Hnb.
  apply Hnb in Hrow. rewrite Forall_forall in Hrow.
  apply Hrow in H0. done.
Qed.

Lemma init_with_blank (b : list (list Z)) (i j : Z) :
  Puzzle.is_3x3 b -> 0 <= i < 3 -> 0 <= j < 3 -> Puzzle.cell b i j = Ok 0 ->
  exists p, Puzzle.init b = Ok (Puzzle.mkPuzzle b 3 p) /\
            0 <= p.1 < 3 /\ 0 <= p.2 < 3 /\ Puzzle.cell b p.1 p.2 = Ok 0.
Proof.
  intros Hb Hi Hj E0. unfold Puzzle.init, Puzzle._find_blank.
  destruct (find_blank_from_spec b (Puzzle.cells 3) (cells_readable b Hb))
    as [[Hall _]|(c & Hc & Ec & ->)].
  - rewrite Forall_forall in Hall.
    destruct (Hall (i, j)); [|done]. apply cells_elem. lia.
  - exists c. destruct c as [ci cj]. apply cells_elem in Hc as [? ?].
    simpl. done.
Qed.

Lemma init_Ok_inv (b : list (list Z)) (s : Puzzle.EightPuzzleState) :
  Puzzle.is_3x3 b -> Puzzle.init b = Ok s ->
  Puzzle.board s = b /\ Puzzle.size s = 3 /\
  0 <= (Puzzle.blank_pos s).1 < 3 /\ 0 <= (Puzzle.blank_pos s).2 < 3 /\
  Puzzle.cell b (Puzzle.blank_pos s).1 (Puzzle.blank_pos s).2 = Ok 0.
Proof.
  intros Hb. unfold Puzzle.init, Puzzle._find_blank.
  destruct (find_blank_from_spec b (Puzzle.cells 3) (cells_readable b Hb))
    as [[_ ->]|(c & Hc & Ec & ->)]; [done|].
  simpl. intros [= <-]. simpl. destruct c as [ci cj].
  apply cells_elem in Hc as [? ?]. done.
Qed.

Lemma set_cell_3x3 (b : list (list Z)) (i j v : Z) :
  Puzzle.is_3x3 b -> 0 <= i < 3 -> 0 <= j < 3 ->
  exists b', Puzzle.set_cell b i j v = Ok b' /\ Puzzle.is_3x3 b' /\
             Puzzle.cell b' i j = Ok v.
Proof.
  intros Hb Hi Hj.
  destruct (cell_3x3 b i j Hb Hi Hj) as (row & w & Hrow & Hw & _).
  destruct Hb as [Hlen Hrows].
  assert (length row = 3%nat) as Hlrow.
  { rewrite Forall_forall in Hrows. apply Hrows.
    eapply list_elem_of_lookup_2. exact Hrow. }
  exists (<[Z.to_nat i := <[Z.to_nat j := v]> row]> b).
  unfold Puzzle.set_cell, Puzzle.cell.
  rewrite (getitem_nonneg b i row) by (done || lia). simpl.
  rewrite setitem_in_range by lia. simpl.
  rewrite setitem_in_range by lia. split; [done|]. split.
  - split; [by rewrite length_insert|].
    apply Forall_insert; [done|]. by rewrite length_insert.
  - rewrite (getitem_nonneg _ i (<[Z.to_nat j := v]> row)); [simpl|lia|].
    + apply getitem_nonneg; [lia|]. apply list_lookup_insert_eq. lia.
    + apply list_lookup_insert_eq. lia.
Qed.

Lemma moves_lookup_Some (d : string) (p : Z * Z) :
  Puzzle.moves !! d = Some p ->
  p = (-1, 0) \/ p = (1, 0) \/ p = (0, -1) \/ p = (0, 1).
Proof.
  intros H. unfold Puzzle.moves in H.
  apply elem_of_list_to_map_2 in H.
  repeat (apply elem_of_cons in H as [[= _ <-]|H]; [tauto|]).
  by apply not_elem_of_nil in H.
Qed.

(** A move on a state built from a 3 x 3 board never raises. *)
Lemma move_total (b : list (list Z)) (s : Puzzle.EightPuzzleState) (d : string) :
  Puzzle.is_3x3 b -> Puzzle.init b = Ok s ->
  exists r, Puzzle.move s d = Ok r /\
    match r with
    | None =>
        match Puzzle.moves !! d with
        | None => True
        | Some (dx, dy) =>
            ~ (0 <= (Puzzle.blank_pos s).1 + dx < 3 /\
               0 <= (Puzzle.blank_pos s).2 + dy < 3)
        end
    | Some s' =>
        Puzzle.is_3x3 (Puzzle.board s') /\ Puzzle.init (Puzzle.board s') = Ok s'
    end.
Proof.
  intros Hb Hs.
  destruct (init_Ok_inv b s Hb Hs) as (Eb & Esz & Hx & Hy & E0).
  unfold Puzzle.move. destruct (Puzzle.moves !! d) as [[dx dy]|] eqn:Ed.
  2:{ exists None. done. }
  rewrite Esz, Eb.
  set (nx := (Puzzle.blank_pos s).1 + dx). set (ny := (Puzzle.blank_pos s).2 + dy).
  destruct ((0 <=? nx) && (nx <? 3) && (0 <=? ny) && (ny <? 3)) eqn:Hin.
  - apply andb_true_iff in Hin as [Hin Hny2].
    apply andb_true_iff in Hin as [Hin Hny1].
    apply andb_true_iff in Hin as [Hnx1 Hnx2].
    apply Z.leb_le in Hnx1, Hny1. apply Z.ltb_lt in Hnx2, Hny2.
    destruct (cell_3x3 b nx ny Hb) as (row & v & _ & _ & ->); [lia|lia|].
    simpl.
    destruct (set_cell_3x3 b (Puzzle.blank_pos s).1 (Puzzle.blank_pos s).2 v Hb)
      as (b1 & -> & Hb1 & _); [lia|lia|]. simpl.
    destruct (set_cell_3x3 b1 nx ny 0 Hb1) as (b2 & -> & Hb2 & E2); [lia|lia|].
    simpl.
    destruct (init_with_blank b2 nx ny Hb2) as (p & Ep & _); [lia|lia|done|].
    rewrite Ep. simpl. eexists. split; [done|]. simpl. by split.
  - exists None. split; [done|]. intros [H1 H2].
    rewrite <- not_true_iff_false in Hin. apply Hin.
    repeat (apply andb_true_iff; split);
      (apply Z.leb_le || apply Z.ltb_lt); subst nx ny; lia.
Qed.

(** ** Tile puzzle: evaluation *)

Lemma goal_cell_body_nonneg (self : Puzzle.EightPuzzleHillClimbing)
    (i j : Z) (g : Z * Z) (d d' : Z) :
  Puzzle.goal_cell_body self i j g d = Ok d' -> d <= d'.
Proof.
  unfold Puzzle.goal_cell_body. destruct g as [gi gj].
  destruct (Puzzle.cell _ gi gj) as [gv|]; simpl; [|done].
  destruct (Puzzle.cell _ i j) as [v|]; simpl; [|done].
  destruct (gv =? v); intros [= <-]; lia.
Qed.

Lemma puzzle_distance_nonneg (self : Puzzle.EightPuzzleHillClimbing) (d : Z) :
  for_each (Puzzle.cells (Puzzle.size (Puzzle.state self)))
    (Puzzle.tile_body self) 0 = Ok d -> 0 <= d.
Proof.
  apply (for_each_partial (fun d => 0 <= d)); [lia|].
  intros [i j] s1 s2 _ Hs1. unfold Puzzle.tile_body.
  destruct (Puzzle.cell _ i j) as [v|]; simpl; [|done].
  destruct (negb (v =? 0)); [|by intros [= <-]].
  apply (for_each_partial (fun d => 0 <= d)); [done|].
  intros g t1 t2 _ Ht1 E. apply goal_cell_body_nonneg in E. lia.
Qed.

Lemma puzzle_evaluate_total (self : Puzzle.EightPuzzleHillClimbing) :
  Puzzle.is_3x3 (Puzzle.board (Puzzle.state self)) ->
  Puzzle.is_3x3 (Puzzle.board (Puzzle.goal self)) ->
  Puzzle.size (Puzzle.state self) = 3 ->
  exists v, Puzzle.evaluate self = Ok v.
Proof.
  intros Hb Hg Hsz. unfold Puzzle.evaluate. rewrite Hsz.
  destruct (for_each_total (fun _ _ => True) (Puzzle.cells 3)
              (Puzzle.tile_body self) 0) as (d & -> & _); [done| |by eexists].
  intros pre [i j] post s1 Ec _.
  assert ((i, j) ∈ Puzzle.cells 3) as Hin.
  { rewrite Ec. apply elem_of_app. right. by left. }
  apply cells_elem in Hin as [Hi Hj]. unfold Puzzle.tile_body. rewrite Hsz.
  destruct (cell_3x3 _ i j Hb Hi Hj) as (row & v & _ & _ & Ev). rewrite Ev.
  py_simpl. destruct (negb (v =? 0)); [|by eexists].
  destruct (for_each_total (fun _ _ => True) (Puzzle.cells 3)
              (Puzzle.goal_cell_body self i j) s1) as (d & -> & _);
    [done| |by eexists].
  intros pre' [gi gj] post' t1 Eg _.
  assert ((gi, gj) ∈ Puzzle.cells 3) as Hgin.
  { rewrite Eg. apply elem_of_app. right. by left. }
  apply cells_elem in Hgin as [Hgi Hgj]. unfold Puzzle.goal_cell_body.
  destruct (cell_3x3 _ gi gj Hg Hgi Hgj) as (grow & gv & _ & _ & ->).
  rewrite Ev. simpl. by eexists.
Qed.

(** ** Claims on evaluation and construction *)

(** C7: for every queens state and every tile-puzzle state, a score returned
    by [evaluate] is at most 100 and [is_goal] returns true exactly when
    [evaluate] returns 100; on the states the classes build (one column entry
    per row; 3 x 3 boards) both methods return. *)
Theorem evaluate_at_most_100_goal_iff
    (q : Queen.QueenState) (p : Puzzle.EightPuzzleHillClimbing) :
  ((forall v, Queen.evaluate q = Ok v -> v <= 100) /\
   (Queen.is_goal q = Ok true <-> Queen.evaluate q = Ok 100) /\
   (Queen.well_formed q ->
      exists v, Queen.evaluate q = Ok v /\ Queen.is_goal q = Ok (v =? 100))) /\
  ((forall v, Puzzle.evaluate p = Ok v -> v <= 100) /\
   (Puzzle.is_goal p = Ok true <-> Puzzle.evaluate p = Ok 100) /\
   (Puzzle.is_3x3 (Puzzle.board (Puzzle.state p)) ->
    Puzzle.is_3x3 (Puzzle.board (Puzzle.goal p)) ->
    Puzzle.size (Puzzle.state p) = 3 ->
      exists v, Puzzle.evaluate p = Ok v /\ Puzzle.is_goal p = Ok (v =? 100))).
Proof.
  split; (split; [|split]).
  - intros v. unfold Queen.evaluate.
    destruct (for_each _ _ 0) as [c|] eqn:Ec; simpl; [|done].
    intros [= <-]. apply queen_conflicts_nonneg in Ec. lia.
  - unfold Queen.is_goal. destruct (Queen.evaluate q) as [v|]; simpl; [|done].
    split.
    + intros [= H]. apply Z.eqb_eq in H. by subst.
    + by intros [= ->].
  - intros Hwf. destruct (queen_evaluate_total q Hwf) as [v Ev].
    exists v. split; [done|]. unfold Queen.is_goal. by rewrite Ev.
  - intros v. unfold Puzzle.evaluate.
    destruct (for_each _ _ 0) as [c|] eqn:Ec; py_simpl; [|done].
    intros [= <-]. apply puzzle_distance_nonneg in Ec. lia.
  - unfold Puzzle.is_goal. destruct (Puzzle.evaluate p) as [v|]; simpl; [|done].
    split.
    + intros [= H]. apply Z.eqb_eq in H. by subst.
    + by intros [= ->].
  - intros Hb Hg Hsz. destruct (puzzle_evaluate_total p Hb Hg Hsz) as [v Ev].
    exists v. split; [done|]. unfold Puzzle.is_goal. by rewrite Ev.
Qed.

Lemma evaluate_at_most_100_goal_iff_witness :
  Queen.is_goal (Queen.mkQueen 4 [1; 3; 0; 2]) = Ok true /\
  (exists v, Puzzle.evaluate
     (Puzzle.mkPuzzleHC (Puzzle.mkPuzzle [[1;0;2];[3;4;5];[6;7;8]] 3 (0, 1))
                        (Puzzle.mkPuzzle [[0;1;2];[3;4;5];[6;7;8]] 3 (0, 0))) = Ok v /\
             v <= 100).
Proof.
  destruct (evaluate_at_most_100_goal_iff
    (Queen.mkQueen 4 [1; 3; 0; 2])
    (Puzzle.mkPuzzleHC (Puzzle.mkPuzzle [[1;0;2];[3;4;5];[6;7;8]] 3 (0, 1))
                       (Puzzle.mkPuzzle [[0;1;2];[3;4;5];[6;7;8]] 3 (0, 0))))
    as [(_ & Hq & _) (Hle & _ & Htot)].
  split.
  - apply Hq. reflexivity.
  - destruct Htot as (v & Ev & _).
    + split; [reflexivity|]. simpl. repeat constructor.
    + split; [reflexivity|]. simpl. repeat constructor.
    + reflexivity.
    + exists v. split; [exact Ev|]. apply Hle. exact Ev.
Defined.

(** C9: building a tile-puzzle state from a 3 x 3 board without a 0 raises
    [ValueError] in the constructor (of [EightPuzzleState] and of
    [EightPuzzleHillClimbing] alike); a move in a direction that is not in
    the table, or whose target lies off the board, returns [None] without
    raising; on a state built from a 3 x 3 board no move raises at all; and
    [get_neighbors] leaves a [None] out of the list it builds. *)
Theorem puzzle_construction_fails_move_returns_none :
  (forall b goal, Puzzle.is_3x3 b -> Puzzle.no_blank b ->
     Puzzle.init b = Raise ValueError /\
     Puzzle.hc_init b goal = Raise ValueError) /\
  (forall s d, Puzzle.moves !! d = None -> Puzzle.move s d = Ok None) /\
  (forall s d dx dy, Puzzle.moves !! d = Some (dx, dy) ->
     ~ (0 <= (Puzzle.blank_pos s).1 + dx < Puzzle.size s /\
        0 <= (Puzzle.blank_pos s).2 + dy < Puzzle.size s) ->
     Puzzle.move s d = Ok None) /\
  (forall b s d, Puzzle.is_3x3 b -> Puzzle.init b = Ok s ->
     exists r, Puzzle.move s d = Ok r) /\
  (forall self m acc, Puzzle.move (Puzzle.state self) m = Ok None ->
     Puzzle.neighbor_body self m acc = Ok acc).
Proof.
  split; [|split; [|split; [|split]]].
  - intros b goal Hb Hnb. split; [by apply init_no_blank|].
    unfold Puzzle.hc_init. by rewrite init_no_blank.
  - intros s d Hd. unfold Puzzle.move. by rewrite Hd.
  - intros s d dx dy Hd Hout. unfold Puzzle.move. rewrite Hd.
    destruct (_ && _) eqn:Hin; [|done]. exfalso. apply Hout.
    apply andb_true_iff in Hin as [Hin Hny2].
    apply andb_true_iff in Hin as [Hin Hny1].
    apply andb_true_iff in Hin as [Hnx1 Hnx2].
    apply Z.leb_le in Hnx1, Hny1. apply Z.ltb_lt in Hnx2, Hny2. lia.
  - intros b s d Hb Hs. destruct (move_total b s d Hb Hs) as (r & Er & _).
    by exists r.
  - intros self m acc Hm. unfold Puzzle.neighbor_body. by rewrite Hm.
Qed.

Lemma puzzle_construction_fails_move_returns_none_witness :
  Puzzle.init [[1;2;3];[4;5;6];[7;8;9]] = Raise ValueError /\
  Puzzle.move (Puzzle.mkPuzzle [[0;1;2];[3;4;5];[6;7;8]] 3 (0, 0)) "up" = Ok None /\
  Puzzle.move (Puzzle.mkPuzzle [[0;1;2];[3;4;5];[6;7;8]] 3 (0, 0)) "上" = Ok None.
Proof.
  destruct puzzle_construction_fails_move_returns_none
    as (Hinit & Hbad & Hout & _ & _).
  split; [|split].
  - apply (Hinit [[1;2;3];[4;5;6];[7;8;9]]
             (Puzzle.mkPuzzle [[0;1;2];[3;4;5];[6;7;8]] 3 (0, 0))).
    + split; [reflexivity|]. repeat constructor.
    + unfold Puzzle.no_blank. repeat constructor; discriminate.
  - apply Hbad. vm_compute. reflexivity.
  - apply (Hout _ _ (-1) 0); [vm_compute; reflexivity|]. simpl. lia.
Defined.

(** ** Hill climbing *)

Lemma max_by_spec {A : Type} (key : A -> Z) (x : A) (xs : list A) :
  max_by key x xs ∈ x :: xs /\
  forall y, y ∈ x :: xs -> key y <= key (max_by key x xs).
Proof.
  unfold max_by. revert x. induction xs as [|z xs IH]; intros x; simpl.
  - split; [by left|]. intros y Hy. apply list_elem_of_singleton in Hy. subst. lia.
  - destruct (IH (if key x <? key z then z else x)) as [Hin Hmax].
    split.
    + apply elem_of_cons in Hin as [->|Hin].
      * destruct (key x <? key z); [right; by left|by left].
      * right. by right.
    + intros y Hy.
      assert (key x <= key (if key x <? key z then z else x) /\
              key z <= key (if key x <? key z then z else x)) as [Hx Hz].
      { destruct (Z.ltb_spec (key x) (key z)); lia. }
      pose proof (Hmax _ (list_elem_of_here _ _)) as Hm.
      apply elem_of_cons in Hy as [->|Hy]; [lia|].
      apply elem_of_cons in Hy as [->|Hy]; [lia|].
      apply Hmax. by right.
Qed.

Lemma linked_cons {X : Type} (step : X -> X -> Prop) (a b : X) (rest : list X) :
  step a b -> Engine.linked step (b :: rest) -> Engine.linked step (a :: b :: rest).
Proof.
  intros Hab Hl [|i] x y Hx Hy; simpl in *.
  - by injection Hx as <-; injection Hy as <-.
  - by apply (Hl i).
Qed.

Lemma linked_single {X : Type} (step : X -> X -> Prop) (a : X) :
  Engine.linked step [a].
Proof. intros [|i] x y Hx Hy; simpl in *; done. Qed.

Lemma linked_sorted {X : Type} (step : X -> X -> Prop) (f : X -> Z)
    (le : Z -> Z -> Prop) (path : list X) :
  (forall a b, step a b -> le (f a) (f b)) ->
  Engine.linked step path -> Sorted le (map f path).
Proof.
  intros Hstep. induction path as [|a path IH]; intros Hl; simpl.
  - constructor.
  - constructor.
    + apply IH. intros i x y Hx Hy. by apply (Hl (S i)).
    + destruct path as [|b path]; simpl; constructor.
      apply Hstep. by apply (Hl 0%nat).
Qed.

Section SteepestAscent.
Import Engine.
Context {T : Type} `{HillClimbingProblem T}.

(** What one pass of the loop decides: the best neighbour and its score. *)
Lemma best_neighbor_spec (current n0 : T) (ns : list T) (b : T) (sc : Z) :
  get_neighbors current = n0 :: ns ->
  max_by snd (n0, evaluate n0) (map (fun n => (n, evaluate n)) ns) = (b, sc) ->
  sc = evaluate b /\ b ∈ get_neighbors current /\
  forall n, n ∈ get_neighbors current -> evaluate n <= evaluate b.
Proof.
  intros En Em.
  destruct (max_by_spec snd (n0, evaluate n0) (map (fun n => (n, evaluate n)) ns))
    as [Hin Hmax].
  rewrite Em in Hin, Hmax.
  change ((n0, evaluate n0) :: map (fun n => (n, evaluate n)) ns)
    with (map (fun n => (n, evaluate n)) (n0 :: ns)) in Hin, Hmax.
  rewrite <- En in Hin, Hmax.
  apply list_elem_of_fmap in Hin as (b' & [= -> ->] & Hb').
  split; [done|]. split; [done|].
  intros n Hn. apply (Hmax (n, evaluate n)).
  apply list_elem_of_fmap. by exists n.
Qed.

Lemma steepest_loop_spec (steps : nat) (current : T) (scores : list Z) :
  exists rest,
    (steepest_loop steps current scores).2 = scores ++ map evaluate rest /\
    last (current :: rest) = Some (steepest_loop steps current scores).1 /\
    (length rest <= steps)%nat /\
    linked steepest_move (current :: rest) /\
    (forall i x, rest !! i = Some x -> (S i < length rest)%nat ->
       is_goal x = false) /\
    (get_neighbors (steepest_loop steps current scores).1 = [] \/
     (forall n, n ∈ get_neighbors (steepest_loop steps current scores).1 ->
        evaluate n <= evaluate (steepest_loop steps current scores).1) \/
     (rest <> [] /\ is_goal (steepest_loop steps current scores).1 = true) \/
     length rest = steps).
Proof.
  assert (Hstay : forall steps current scores,
    (get_neighbors current = [] \/
     (forall n, n ∈ get_neighbors current -> evaluate n <= evaluate current) \/
     0%nat = steps) ->
    exists rest : list T,
      scores = scores ++ map evaluate rest /\
      last (current :: rest) = Some current /\
      (length rest <= steps)%nat /\
      linked steepest_move (current :: rest) /\
      (forall i x, rest !! i = Some x -> (S i < length rest)%nat ->
         is_goal x = false) /\
      (get_neighbors current = [] \/
       (forall n, n ∈ get_neighbors current -> evaluate n <= evaluate current) \/
       (rest <> [] /\ is_goal current = true) \/
       length rest = steps)).
  { intros st cur sc Hwhy. exists []. simpl. split_and!.
    - by rewrite app_nil_r.
    - done.
    - lia.
    - apply linked_single.
    - intros i x Hx. done.
    - destruct Hwhy as [?|[?|?]]; auto. }
  revert current scores. induction steps as [|steps IH]; intros current scores.
  - apply Hstay. auto.
  - destruct (get_neighbors current) as [|n0 ns] eqn:En.
    { replace (steepest_loop (S steps) current scores) with (current, scores)
        by (simpl; by rewrite En).
      apply Hstay. auto. }
    destruct (max_by snd (n0, evaluate n0) (map (fun n => (n, evaluate n)) ns))
      as [b sc] eqn:Em.
    destruct (best_neighbor_spec current n0 ns b sc En Em) as (-> & Hb & Hmax).
    destruct (Z.leb_spec (evaluate b) (evaluate current)) as [Hle|Hlt].
    { replace (steepest_loop (S steps) current scores) with (current, scores).
      - apply Hstay. right. left. intros n Hn. specialize (Hmax n Hn).
        simpl in *. lia.
      - simpl. rewrite En, Em. by rewrite (proj2 (Z.leb_le _ _) Hle). }
    assert (steepest_move current b) as Hmove by done.
    destruct (is_goal b) eqn:Hg.
    { replace (steepest_loop (S steps) current scores)
        with (b, scores ++ [evaluate b]).
      2:{ simpl. rewrite En, Em, Hg. by rewrite (proj2 (Z.leb_gt _ _) Hlt). }
      exists [b]. simpl. split_and!.
      - done.
      - done.
      - lia.
      - apply linked_cons; [done|apply linked_single].
      - intros [|i] x Hx Hi; simpl in *; lia.
      - right. right. left. split; [done|done]. }
    replace (steepest_loop (S steps) current scores)
      with (steepest_loop steps b (scores ++ [evaluate b])).
    2:{ simpl. rewrite En, Em, Hg. by rewrite (proj2 (Z.leb_gt _ _) Hlt). }
    destruct (IH b (scores ++ [evaluate b]))
      as (rest & Etr & Elast & Hlen & Hlink & Hmid & Hstop).
    exists (b :: rest). rewrite Etr, <- app_assoc. simpl. split_and!.
    + done.
    + done.
    + lia.
    + by apply linked_cons.
    + intros [|i] x Hx Hi; simpl in *.
      * by injection Hx as <-.
      * apply (Hmid i); [done|lia].
    + destruct Hstop as [Hs|[Hs|[[_ Hs]|Hs]]]; auto.
Qed.
End SteepestAscent.

Section SteepestAscentClaim.
Import Engine.
Context {T : Type} `{HillClimbingProblem T}.

(** C3: [steepest_ascent] visits a path of states that starts at the
    initial state and ends at the returned one; each move goes to a
    neighbour that no other neighbour outscores and that scores strictly
    more than the state it leaves; no state before the last is a goal once
    moved to; the search stops because the last state has no neighbour, or
    none that improves, or is a goal just reached, or because [max_steps]
    moves were made (1000 by default); the trace is the initial score
    followed by one score per move, and it is strictly increasing, hence
    non-decreasing. *)
Theorem steepest_ascent_greedy_monotone (initial_state : T) (max_steps : Z) :
  default_max_steps = 1000 /\
  exists rest : list T,
    (steepest_ascent initial_state max_steps).2 =
      map evaluate (initial_state :: rest) /\
    last (initial_state :: rest) =
      Some (steepest_ascent initial_state max_steps).1 /\
    (length rest <= Z.to_nat max_steps)%nat /\
    linked steepest_move (initial_state :: rest) /\
    (forall i x, rest !! i = Some x -> (S i < length rest)%nat ->
       is_goal x = false) /\
    (get_neighbors (steepest_ascent initial_state max_steps).1 = [] \/
     (forall n, n ∈ get_neighbors (steepest_ascent initial_state max_steps).1 ->
        evaluate n <= evaluate (steepest_ascent initial_state max_steps).1) \/
     (rest <> [] /\ is_goal (steepest_ascent initial_state max_steps).1 = true) \/
     length rest = Z.to_nat max_steps) /\
    StronglySorted Z.lt (steepest_ascent initial_state max_steps).2 /\
    StronglySorted Z.le (steepest_ascent initial_state max_steps).2.
Proof.
  split; [reflexivity|]. unfold steepest_ascent.
  destruct (steepest_loop_spec (Z.to_nat max_steps) initial_state
              [evaluate initial_state])
    as (rest & Etr & Elast & Hlen & Hlink & Hmid & Hstop).
  exists rest. split_and!; try done.
  - rewrite Etr. apply Sorted_StronglySorted; [intros x y z; lia|].
    apply (linked_sorted steepest_move evaluate Z.lt (initial_state :: rest));
      [|done].
    by intros a b (_ & _ & Hlt).
  - rewrite Etr. apply Sorted_StronglySorted; [intros x y z; lia|].
    apply (linked_sorted steepest_move evaluate Z.le (initial_state :: rest));
      [|done].
    intros a b (_ & _ & Hlt). lia.
Qed.
End SteepestAscentClaim.

Ltac fc_easy :=
  try done; try lia; try (by rewrite app_nil_r); try apply linked_single.

Section FirstChoice.
Import Engine.
Context {T R F : Type} `{HillClimbingProblem T} `{RandomSource R F}.

Lemma first_acceptable_Some (current b : T) (l : list T) :
  first_acceptable current l = Some b ->
  evaluate current <= evaluate b /\
  exists pre post, l = pre ++ b :: post /\
                   forall x, x ∈ pre -> evaluate x < evaluate current.
Proof.
  induction l as [|n l IH]; simpl; [done|].
  destruct (Z.leb_spec (evaluate current) (evaluate n)) as [Hle|Hlt].
  - intros [= <-]. split; [done|]. exists [], l. split; [done|].
    intros x Hx. by apply not_elem_of_nil in Hx.
  - intros E. destruct (IH E) as (Hb & pre & post & -> & Hpre).
    split; [done|]. exists (n :: pre), post. split; [done|].
    intros x Hx. apply elem_of_cons in Hx as [->|Hx]; auto.
Qed.

Lemma first_acceptable_None (current : T) (l : list T) :
  first_acceptable current l = None ->
  forall x, x ∈ l -> evaluate x < evaluate current.
Proof.
  induction l as [|n l IH]; simpl; intros E x Hx.
  - by apply not_elem_of_nil in Hx.
  - destruct (Z.leb_spec (evaluate current) (evaluate n)) as [Hle|Hlt]; [done|].
    apply elem_of_cons in Hx as [->|Hx]; auto.
Qed.

Lemma first_choice_loop_spec (steps : nat) (current : T) (scores : list Z)
    (rng : R) :
  exists (rest : list (T * R)) (r_last : R),
    (first_choice_loop steps current scores rng).1.2 =
      scores ++ map (fun x => evaluate x.1) rest /\
    last ((current, rng) :: rest) =
      Some ((first_choice_loop steps current scores rng).1.1, r_last) /\
    (length rest <= steps)%nat /\
    linked first_choice_move ((current, rng) :: rest) /\
    (forall i x, rest !! i = Some x -> (S i < length rest)%nat ->
       is_goal x.1 = false) /\
    first_choice_stop steps (length rest)
      (first_choice_loop steps current scores rng).1.1 r_last
      (first_choice_loop steps current scores rng).2.
Proof.
  revert current scores rng.
  induction steps as [|steps IH]; intros current scores rng.
  - exists [], rng. simpl. split_and!; fc_easy.
    do 3 right. done.
  - destruct (get_neighbors current) as [|n0 ns] eqn:En.
    { replace (first_choice_loop (S steps) current scores rng)
        with (current, scores, rng) by (simpl; by rewrite En).
      exists [], rng. simpl. split_and!; fc_easy.
      left. done. }
    destruct (shuffle (n0 :: ns) rng) as [l r1] eqn:Esh.
    destruct (first_acceptable current l) as [b|] eqn:Ef.
    2:{ replace (first_choice_loop (S steps) current scores rng)
          with (current, scores, r1) by (simpl; by rewrite En, Esh, Ef).
        exists [], rng. simpl. split_and!; fc_easy.
        right. left. rewrite En, Esh. simpl. split_and!; try done.
        by apply first_acceptable_None. }
    assert (first_choice_move (current, rng) (b, r1)) as Hmove.
    { destruct (first_acceptable_Some _ _ _ Ef) as (Hle & pre & post & El & Hpre).
      red. simpl. rewrite En, Esh. simpl. split_and!; try done.
      by exists pre, post. }
    destruct (is_goal b) eqn:Hg.
    { replace (first_choice_loop (S steps) current scores rng)
        with (b, scores ++ [evaluate b], r1)
        by (simpl; by rewrite En, Esh, Ef, Hg).
      exists [(b, r1)], r1. simpl. split_and!; fc_easy.
      + apply linked_cons; [done|apply linked_single].
      + right. right. left. split_and!; try done. lia. }
    replace (first_choice_loop (S steps) current scores rng)
      with (first_choice_loop steps b (scores ++ [evaluate b]) r1)
      by (simpl; by rewrite En, Esh, Ef, Hg).
    destruct (IH b (scores ++ [evaluate b]) r1)
      as (rest & r_last & Etr & Elast & Hlen & Hlink & Hmid & Hstop).
    exists ((b, r1) :: rest), r_last. rewrite Etr, <- app_assoc. simpl.
    split_and!; fc_easy.
    + by apply linked_cons.
    + intros [|i] x Hx Hi; simpl in *.
      * by injection Hx as <-.
      * apply (Hmid i); [done|lia].
    + destruct Hstop as [Hs|[Hs|[(_ & Hs)|[Hs Hr]]]].
      * left. done.
      * right. left. done.
      * right. right. left. split; [lia|done].
      * do 3 right. split; [lia|done].
Qed.
End FirstChoice.

Section FirstChoiceClaim.
Import Engine.
Context {T R F : Type} `{HillClimbingProblem T} `{RandomSource R F}.

(** C4: with a shuffle that permutes its list, [first_choice] visits a path
    of states from the initial state to the returned one; each move goes to
    the first state of the shuffled neighbour list that scores at least
    the current score (a tie is accepted), all those scanned before it
    score less, and the state moved to is a neighbour; the search stops
    because the last state has no neighbour, or a whole scan found every
    neighbour scoring less, or the state just reached is a goal, or
    [max_steps] moves were made; the trace is the initial score followed by
    one score per move and is non-decreasing. *)
Theorem first_choice_plateau_monotone (initial_state : T) (max_steps : Z)
    (rng : R) :
  (forall (l : list T) (r : R), (shuffle l r).1 ≡ₚ l) ->
  exists (rest : list (T * R)) (r_last : R),
    (first_choice initial_state max_steps rng).1.2 =
      map (fun x => evaluate x.1) ((initial_state, rng) :: rest) /\
    last ((initial_state, rng) :: rest) =
      Some ((first_choice initial_state max_steps rng).1.1, r_last) /\
    (length rest <= Z.to_nat max_steps)%nat /\
    linked first_choice_move ((initial_state, rng) :: rest) /\
    linked (fun a b => b.1 ∈ get_neighbors a.1 /\ evaluate a.1 <= evaluate b.1)
      ((initial_state, rng) :: rest) /\
    (forall i x, rest !! i = Some x -> (S i < length rest)%nat ->
       is_goal x.1 = false) /\
    first_choice_stop (Z.to_nat max_steps) (length rest)
      (first_choice initial_state max_steps rng).1.1 r_last
      (first_choice initial_state max_steps rng).2 /\
    (get_neighbors (first_choice initial_state max_steps rng).1.1 = [] \/
     (forall n, n ∈ get_neighbors (first_choice initial_state max_steps rng).1.1 ->
        evaluate n < evaluate (first_choice initial_state max_steps rng).1.1) \/
     (rest <> [] /\
      is_goal (first_choice initial_state max_steps rng).1.1 = true) \/
     length rest = Z.to_nat max_steps) /\
    StronglySorted Z.le (first_choice initial_state max_steps rng).1.2.
Proof.
  intros Hperm. unfold first_choice.
  destruct (first_choice_loop_spec (Z.to_nat max_steps) initial_state
              [evaluate initial_state] rng)
    as (rest & r_last & Etr & Elast & Hlen & Hlink & Hmid & Hstop).
  exists rest, r_last. split_and!; try done.
  - intros i a b Ha Hb. destruct (Hlink i a b Ha Hb) as (_ & _ & Hle & pre & post & El & _).
    split; [|done]. rewrite <- (Hperm (get_neighbors a.1) a.2), El.
    apply elem_of_app. right. by left.
  - destruct Hstop as [[Hs _]|[(_ & _ & Hs)|[(Hm & Hs & _)|[Hs _]]]].
    + by left.
    + right. left. intros n Hn. apply Hs. by rewrite Hperm.
    + right. right. left. split; [|done]. intros ->. simpl in Hm. lia.
    + do 3 right. done.
  - rewrite Etr. apply Sorted_StronglySorted; [intros x y z; lia|].
    apply (linked_sorted first_choice_move (fun x => evaluate x.1) Z.le
             ((initial_state, rng) :: rest)); [|done].
    by intros a b (_ & _ & Hle & _).
Qed.
End FirstChoiceClaim.

Lemma first_choice_plateau_monotone_witness :
  (Engine.first_choice Ridge.A 10 [0; 1; 0]%nat).1 = (Ridge.B, [5; 9]) /\
  StronglySorted Z.le (Engine.first_choice Ridge.A 10 [0; 1; 0]%nat).1.2.
Proof.
  split; [reflexivity|].
  destruct (first_choice_plateau_monotone (F := Q) Ridge.A 10 [0; 1; 0]%nat)
    as (rest & r_last & H).
  - intros l r. simpl. destruct (Nat.even (hd 0%nat r)); [done|].
    apply reverse_Permutation.
  - apply H.
Defined.

(** ** Random restart *)

Section RandomRestart.
Import Engine.
Context {T R F : Type} `{HillClimbingProblem T} `{RandomSource R F}
        `{Restartable T R}.

Lemma steepest_loop_trace_prefix (steps : nat) (current : T) (scores : list Z) :
  exists tl, (steepest_loop steps current scores).2 = scores ++ tl.
Proof.
  destruct (steepest_loop_spec steps current scores) as (rest & E & _).
  by exists (map evaluate rest).
Qed.

Lemma random_restart_loop_trace (restarts : nat) (initial_state best_state : T)
    (best_score : Z) (all_scores : list Z) (rng : R) :
  (random_restart_loop restarts initial_state best_state best_score
     all_scores rng).1.2 =
  all_scores ++
  concat (map (fun s => (steepest_ascent s default_max_steps).2)
              (restart_attempts restarts initial_state rng)).
Proof.
  revert initial_state best_state best_score all_scores rng.
  induction restarts as [|n IH];
    intros initial_state best_state best_score all_scores rng; simpl.
  - by rewrite app_nil_r.
  - destruct (steepest_ascent initial_state default_max_steps)
      as [current_state current_scores] eqn:Esa. simpl.
    destruct (best_score <? evaluate current_state);
      destruct (is_goal current_state); simpl;
      rewrite ?app_nil_r; try done;
      destruct (fresh_initial_state initial_state rng) as [i' r'];
      rewrite IH; by rewrite <- app_assoc.
Qed.

Lemma restart_attempts_length (restarts : nat) (initial_state : T) (rng : R) :
  (length (restart_attempts restarts initial_state rng) <= restarts)%nat.
Proof.
  revert initial_state rng. induction restarts as [|n IH];
    intros initial_state rng; simpl; [lia|].
  destruct (is_goal _); simpl; [lia|].
  destruct (fresh_initial_state initial_state rng) as [i' r'].
  specialize (IH i' r'). lia.
Qed.

(** C2: what [random_restart] returns where the claim asks for the
    concatenation of the attempts' traces. Line 96 seeds [all_scores] with the
    initial state's score before the first attempt's trace, which starts with
    that same score, is appended: the trace is the concatenation, in order,
    of the traces of the successive steepest-ascent attempts with one more
    entry in front, the initial state's score. There are at most
    [max_restarts] attempts and the first one, if any, starts from the
    initial state. *)
Theorem random_restart_trace_concat (initial_state : T) (max_restarts : Z)
    (rng : R) :
  (random_restart initial_state max_restarts rng).1.2 =
    evaluate initial_state ::
    concat (map (fun s => (steepest_ascent s default_max_steps).2)
                (restart_attempts (Z.to_nat max_restarts) initial_state rng)) /\
  (length (restart_attempts (Z.to_nat max_restarts) initial_state rng)
     <= Z.to_nat max_restarts)%nat /\
  head (restart_attempts (Z.to_nat max_restarts) initial_state rng) =
    (if 0 <? max_restarts then Some initial_state else None).
Proof.
  split; [|split].
  - unfold random_restart. by rewrite random_restart_loop_trace.
  - apply restart_attempts_length.
  - destruct (Z.ltb_spec 0 max_restarts) as [Hpos|Hle].
    + destruct (Z.to_nat max_restarts) as [|n] eqn:En; [lia|]. done.
    + replace (Z.to_nat max_restarts) with 0%nat by lia. done.
Qed.
End RandomRestart.

(** C2, the failing input: one restart from spot [A] of the ridge returns
    the trace [5; 5; 9], while its only attempt has the trace [5; 9]; the
    first score is there twice. *)
Lemma random_restart_trace_counterexample :
  (Engine.random_restart (R := list nat) Ridge.A 1 []).1.2 = [5; 5; 9] /\
  concat (map (fun s => (Engine.steepest_ascent s Engine.default_max_steps).2)
              (Engine.restart_attempts (R := list nat) 1 Ridge.A [])) = [5; 9] /\
  (Engine.random_restart (R := list nat) Ridge.A 1 []).1.2 <>
  concat (map (fun s => (Engine.steepest_ascent s Engine.default_max_steps).2)
              (Engine.restart_attempts (R := list nat) 1 Ridge.A [])).
Proof. split; [|split]; vm_compute; done. Qed.

(** ** Simulated annealing *)

Lemma linked_snoc {X : Type} (step : X -> X -> Prop) (path : list X) (a b : X) :
  Engine.linked step path -> last path = Some a -> step a b ->
  Engine.linked step (path ++ [b]).
Proof.
  intros Hl Ha Hab i x y Hx Hy.
  destruct (decide (S i < length path)%nat) as [Hlt|Hge].
  - rewrite lookup_app_l in Hx by lia. rewrite lookup_app_l in Hy by lia.
    by apply (Hl i).
  - assert (S i = length path) as Hi.
    { apply lookup_lt_Some in Hy. rewrite length_app in Hy. simpl in Hy. lia. }
    rewrite lookup_app_l in Hx by lia.
    rewrite lookup_app_r in Hy by lia.
    replace (S i - length path)%nat with 0%nat in Hy by lia.
    injection Hy as <-.
    rewrite last_lookup in Ha. rewrite <- Hi in Ha. simpl in Ha.
    rewrite Hx in Ha. by injection Ha as ->.
Qed.

Lemma Forall_removelast {X : Type} (P : X -> Prop) (l : list X) :
  Forall P l -> Forall P (removelast l).
Proof.
  induction 1 as [|x l Hx Hl IH]; simpl; [constructor|].
  destruct l; [constructor|]. by constructor.
Qed.

Lemma nth_mod_elem {X : Type} (l : list X) (d : X) (k : nat) :
  l <> [] -> nth (k mod length l) l d ∈ l.
Proof.
  intros Hl. apply list_elem_of_In, nth_In. apply Nat.mod_upper_bound.
  destruct l; [done|]. simpl. lia.
Qed.

Section Anneal.
Import Engine Annealing.
Context {T R F : Type}.
Context `{HillClimbingProblem T} `{FloatOps F} `{RandomSource R F}.

Lemma random_choice_elem {X : Type} (x : X) (xs : list X) (r : R) :
  (random_choice x xs r).1 ∈ x :: xs.
Proof.
  unfold random_choice. destruct (choice_index _ r) as [k r'].
  change (nth (k mod length (x :: xs)) (x :: xs) x ∈ x :: xs).
  by apply nth_mod_elem.
Qed.

Lemma start_tracks (initial : T) (r : R) : tracks initial [] (start initial r).
Proof.
  unfold tracks, start. simpl.
  split; [done|]. split; [done|]. split; [done|]. split; [done|]. split.
  - exists [], []. split; [done|].
    split; intros x Hx; by apply not_elem_of_nil in Hx.
  - apply linked_single.
Qed.

(** Accepting [next], a neighbour of the current state. *)
Lemma accept_tracks (initial next : T) (rest : list T) (w : walk T R) (r2 : R) :
  tracks initial rest w -> next ∈ get_neighbors (current w) ->
  tracks initial (rest ++ [next])
    (let w1 := {| current := next; current_score := evaluate next;
                  best_state := best_state w; best_score := best_score w;
                  scores := scores w ++ [evaluate next]; rng := r2 |} in
     if best_score w1 <? current_score w1 then
       {| current := current w1; current_score := current_score w1;
          best_state := current w1; best_score := current_score w1;
          scores := scores w1; rng := rng w1 |}
     else w1).
Proof.
  intros (Hsc & Hlast & Hcs & Hbs & (pre & post & Epath & Hpre & Hpost) & Hlink)
    Hnext.
  assert (forall x, x ∈ initial :: rest -> evaluate x <= best_score w) as Hall.
  { intros x Hx. rewrite Epath in Hx. rewrite Hbs.
    apply elem_of_app in Hx as [Hx|Hx]; [specialize (Hpre x Hx); lia|].
    apply elem_of_cons in Hx as [->|Hx]; [lia|by apply Hpost]. }
  cbn zeta. cbn [best_score current_score current scores rng best_state].
  destruct (Z.ltb_spec (best_score w) (evaluate next)) as [Hlt|Hge];
    unfold tracks; cbn [best_score current_score current scores rng best_state];
    (split_and!;
      [ by rewrite Hsc, app_comm_cons, map_app
      | by rewrite app_comm_cons, last_snoc
      | done
      | try done
      |
      | rewrite app_comm_cons; by apply (linked_snoc _ _ (current w)) ]).
  - exists (initial :: rest), []. split_and!.
    + done.
    + intros x Hx. specialize (Hall x Hx). lia.
    + intros x Hx. by apply not_elem_of_nil in Hx.
  - exists pre, (post ++ [next]). split_and!.
    + by rewrite app_comm_cons, Epath, <- app_assoc.
    + done.
    + intros x Hx. apply elem_of_app in Hx as [Hx|Hx]; [by apply Hpost|].
      apply list_elem_of_singleton in Hx. subst. lia.
Qed.

Lemma anneal_step_ok (initial : T) (rest : list T) (temp : F) (w : walk T R) :
  tracks initial rest w -> Forall (fun x => is_goal x = false) rest ->
  pass_ok initial (anneal_step temp w).
Proof.
  intros Htr Hng. unfold anneal_step.
  destruct (get_neighbors (current w)) as [|n0 ns] eqn:En.
  { simpl. by exists rest. }
  pose proof (random_choice_elem n0 ns (rng w)) as Hin. rewrite <- En in Hin.
  destruct (random_choice n0 ns (rng w)) as [next r1]. simpl in Hin.
  destruct (accepts (evaluate next - current_score w) temp r1) as [[[|]|e] r2];
    [| |done].
  - pose proof (accept_tracks initial next rest w r2 Htr Hin) as Htr'.
    cbn zeta in Htr'.
    set (w' := if _ <? _ then _ else _) in *.
    assert (current w' = next) as Ec.
    { subst w'. by destruct (_ <? _). }
    rewrite Ec. destruct (is_goal next) eqn:Hg; simpl.
    + exists (rest ++ [next]). rewrite Ec, removelast_last. done.
    + exists (rest ++ [next]). split; [done|].
      apply Forall_app. split; [done|]. by constructor.
  - cbn [current]. destruct (is_goal (current w)) eqn:Hg; simpl.
    + exists rest. split; [exact Htr|]. split; [done|].
      by apply Forall_removelast.
    + exists rest. split; [exact Htr|done].
Qed.

Lemma anneal_inner_ok (steps : nat) (initial : T) (rest : list T) (temp : F)
    (w : walk T R) :
  tracks initial rest w -> Forall (fun x => is_goal x = false) rest ->
  pass_ok initial (anneal_inner steps temp w).
Proof.
  revert rest w. induction steps as [|n IH]; intros rest w Htr Hng; simpl.
  - by exists rest.
  - pose proof (anneal_step_ok initial rest temp w Htr Hng) as Hstep.
    destruct (anneal_step temp w) as [w'|w'|w'|e]; try done.
    destruct Hstep as (rest' & Htr' & Hng'). exact (IH rest' w' Htr' Hng').
Qed.

Lemma temp_after_S_r (cfg : config F) (k : nat) (temp : F) :
  temp_after cfg (S k) temp = temp_after cfg k (float_mul temp (cooling_rate cfg)).
Proof.
  unfold temp_after.
  exact (Nat.iter_succ_r k (fun t => float_mul t (cooling_rate cfg)) temp).
Qed.

Lemma anneal_loop_ok (cfg : config F) (fuel : nat) (temp : F) (initial : T)
    (rest : list T) (w : walk T R) (s : T) (tr : list Z) (r' : R) :
  tracks initial rest w -> Forall (fun x => is_goal x = false) rest ->
  anneal_loop cfg fuel temp w = Some (Ok (s, tr, r')) ->
  exists (rest' : list T) (k : nat),
    (k < fuel)%nat /\
    tr = map evaluate (initial :: rest') /\
    linked (fun a b => b ∈ get_neighbors a) (initial :: rest') /\
    (forall j, (j < k)%nat ->
       float_gt (temp_after cfg j temp) (min_temp cfg) = true) /\
    ((float_gt (temp_after cfg k temp) (min_temp cfg) = true /\
      is_goal s = true /\ last (initial :: rest') = Some s /\
      Forall (fun x => is_goal x = false) (removelast rest')) \/
     (float_gt (temp_after cfg k temp) (min_temp cfg) = false /\
      first_best (initial :: rest') s /\
      Forall (fun x => is_goal x = false) rest')).
Proof.
  revert temp rest w. induction fuel as [|fuel IH]; intros temp rest w Htr Hng;
    simpl; [done|].
  destruct (float_gt temp (min_temp cfg)) eqn:Hgt.
  - pose proof (anneal_inner_ok (Z.to_nat (steps_per_temp cfg)) initial rest
                  temp w Htr Hng) as Hin.
    destruct (anneal_inner _ temp w) as [w'|w'|w'|e]; simpl in Hin.
    3:{ intros [= <- <- <-]. destruct Hin as (rest' & Htr' & Hg & Hng').
        exists rest', 0%nat. destruct Htr' as (Hsc & Hlast & _ & _ & _ & Hlink).
        split; [lia|]. split; [done|]. split; [done|].
        split; [intros j Hj; lia|]. left. done. }
    3:{ done. }
    all: destruct Hin as (rest' & Htr' & Hng'); intros E;
      destruct (IH _ rest' w' Htr' Hng' E)
        as (rest'' & k & Hk & Etr & Hlink & Hhot & Hexit);
      exists rest'', (S k); split; [lia|]; split; [done|]; split; [done|];
      split;
      [ intros [|j] Hj; [done|]; rewrite temp_after_S_r; apply Hhot; lia
      | by rewrite temp_after_S_r ].
  - intros [= <- <- <-]. exists rest, 0%nat.
    destruct Htr as (Hsc & Hlast & _ & _ & Hbest & Hlink).
    split; [lia|]. split; [done|]. split; [done|].
    split; [intros j Hj; lia|]. right. done.
Qed.


Lemma anneal_step_no_throw (cfg : config F) (temp : F) (w : walk T R)
    (e : exn) :
  metropolis_defined cfg -> float_gt temp (min_temp cfg) = true ->
  current_score w = evaluate (current w) ->
  anneal_step temp w <> Throw e.
Proof.
  intros Hmd Hgt Hcs. unfold anneal_step.
  destruct (get_neighbors (current w)) as [|n0 ns] eqn:En; [done|].
  pose proof (random_choice_elem n0 ns (rng w)) as Hin. rewrite <- En in Hin.
  destruct (random_choice n0 ns (rng w)) as [next r1]. simpl in Hin.
  unfold accepts. rewrite Hcs.
  destruct (Z.ltb_spec 0 (evaluate next - evaluate (current w))) as [Hlt|Hle].
  - by destruct (is_goal _).
  - destruct (Hmd (current w) next temp r1 Hin Hle Hgt) as [b Hb].
    destruct (metropolis _ temp r1) as [res r2]. simpl in Hb. subst res.
    by destruct (is_goal _).
Qed.

Lemma anneal_inner_no_throw (cfg : config F) (steps : nat) (initial : T)
    (rest : list T) (temp : F) (w : walk T R) (e : exn) :
  metropolis_defined cfg -> float_gt temp (min_temp cfg) = true ->
  tracks initial rest w -> Forall (fun x => is_goal x = false) rest ->
  anneal_inner steps temp w <> Throw e.
Proof.
  intros Hmd Hgt. revert rest w.
  induction steps as [|n IH]; intros rest w Htr Hng; simpl; [done|].
  pose proof (anneal_step_no_throw cfg temp w e Hmd Hgt
                (proj1 (proj2 (proj2 Htr)))) as Hs.
  pose proof (anneal_step_ok initial rest temp w Htr Hng) as Hok.
  destruct (anneal_step temp w) as [w'|w'|w'|e']; [|done|done|done].
  destruct Hok as (rest' & Htr' & Hng'). by apply (IH rest').
Qed.

(** If the temperature is at or below [min_temp] after [k] coolings and the
    Metropolis test does not raise where it is evaluated, [anneal] returns
    within [k + 1] rounds. *)
Lemma anneal_loop_total (cfg : config F) (k : nat) (temp : F) (initial : T)
    (rest : list T) (w : walk T R) :
  metropolis_defined cfg ->
  tracks initial rest w -> Forall (fun x => is_goal x = false) rest ->
  float_gt (temp_after cfg k temp) (min_temp cfg) = false ->
  exists res, anneal_loop cfg (S k) temp w = Some (Ok res).
Proof.
  intros Hmd. revert temp rest w.
  induction k as [|k IH]; intros temp rest w Htr Hng Hcold.
  - simpl in Hcold. simpl. rewrite Hcold. by eexists.
  - rewrite temp_after_S_r in Hcold.
    change (anneal_loop cfg (S (S k)) temp w) with
      (if float_gt temp (min_temp cfg) then
         match anneal_inner (Z.to_nat (steps_per_temp cfg)) temp w with
         | Return w' => Some (Ok (current w', scores w', rng w'))
         | Throw e => Some (Raise e)
         | Next w' | Break w' =>
             anneal_loop cfg (S k) (float_mul temp (cooling_rate cfg)) w'
         end
       else Some (Ok (best_state w, scores w, rng w))).
    destruct (float_gt temp (min_temp cfg)) eqn:Hgt; [|by eexists].
    pose proof (fun e => anneal_inner_no_throw cfg
                  (Z.to_nat (steps_per_temp cfg)) initial rest temp w e
                  Hmd Hgt Htr Hng) as Hnt.
    pose proof (anneal_inner_ok (Z.to_nat (steps_per_temp cfg)) initial rest
                  temp w Htr Hng) as Hok.
    destruct (anneal_inner _ temp w) as [w'|w'|w'|e]; simpl in Hok.
    + destruct Hok as (rest' & Htr' & Hng'). by apply (IH _ rest').
    + destruct Hok as (rest' & Htr' & Hng'). by apply (IH _ rest').
    + by eexists.
    + by destruct (Hnt e).
Qed.
End Anneal.

Section AnnealClaim.
Import Engine Annealing.
Context {T R F : Type}.
Context `{HillClimbingProblem T} `{FloatOps F} `{RandomSource R F}.









Lemma anneal_trace_head (fuel : nat) (initial_state : T) (cfg : config F)
    (r : R) (s : T) (tr : list Z) (r' : R) :
  anneal fuel initial_state cfg r = Some (Ok (s, tr, r')) ->
  exists tl, tr = evaluate initial_state :: tl.
Proof.
  intros E.
  destruct (anneal_loop_ok cfg fuel (initial_temp cfg) initial_state []
              (start initial_state r) s tr r')
    as (rest & k & _ & -> & _); [apply start_tracks|constructor|exact E|].
  by eexists.
Qed.
End AnnealClaim.

(** ** Concrete runs on the ridge *)

(** The generator [Ridge.checked], which raises as [math.exp(delta / temp)]
    does, does not raise where [anneal] evaluates the test when [min_temp] is
    not negative: the temperature is then positive and the quotient is not. *)
Lemma checked_metropolis_defined {T : Type} `{Engine.HillClimbingProblem T}
    (cfg : Annealing.config Q) :
  (0 <= Annealing.min_temp cfg)%Q ->
  Annealing.metropolis_defined (R := Ridge.tape) cfg.
Proof.
  intros Hmin s n temp [r] Hin Hd Hgt.
  change (negb (Qle_bool temp (Annealing.min_temp cfg)) = true) in Hgt.
  apply negb_true_iff in Hgt.
  assert (0 < temp)%Q as Hpos.
  { destruct (Qlt_le_dec 0 temp) as [Hlt|Hle]; [done|]. exfalso.
    assert (Qle_bool temp (Annealing.min_temp cfg) = true) as Hc.
    { apply Qle_bool_iff. by eapply Qle_trans. }
    congruence. }
  cbn [Engine.metropolis Ridge.checked].
  destruct (Qeq_bool temp 0) eqn:E0.
  { apply Qeq_bool_eq in E0. rewrite E0 in Hpos. by apply Qlt_irrefl in Hpos. }
  destruct (Qle_bool (710 # 1)
              (inject_Z (Engine.evaluate n - Engine.evaluate s) / temp)) eqn:E1.
  { exfalso. apply Qle_bool_imp_le in E1.
    assert (inject_Z (Engine.evaluate n - Engine.evaluate s) / temp <= 0)%Q
      as Hq.
    { unfold Qdiv.
      assert (inject_Z (Engine.evaluate n - Engine.evaluate s) <= 0)%Q as H1.
      { change 0%Q with (inject_Z 0). by rewrite <- Zle_Qle. }
      pose proof (Qinv_lt_0_compat temp Hpos) as H2.
      pose proof (Qmult_le_compat_r _ _ (/ temp) H1 (Qlt_le_weak _ _ H2))
        as H3.
      by rewrite Qmult_0_l in H3. }
    pose proof (Qle_trans _ _ _ E1 Hq) as Hbad. by vm_compute in Hbad. }
  by eexists.
Qed.


(** Scenario 4 of the spec: the walk [A, B, C] accepts the worse spot [C]
    last; the temperature is then below [min_temp] and [anneal] returns [B],
    the best spot seen, not [C]. *)
Example anneal_returns_best_not_last :
  Annealing.anneal 5 Ridge.A Ridge.cfg [0; 1; 1]%nat =
    Some (Ok (Ridge.B, [5; 9; 7], [])) /\
  last [5; 9; 7] = Some (Engine.evaluate Ridge.C) /\
  Engine.evaluate Ridge.C < Engine.evaluate Ridge.B.
Proof. vm_compute. split_and!; done. Qed.

(** A goal met during the walk is returned at once, as the current state. *)
Example anneal_returns_goal_at_once :
  Annealing.anneal 5 Ridge.C Ridge.cfg [1; 0; 0; 0]%nat =
    Some (Ok (Ridge.D, [7; 100], [0; 0; 0]%nat)).
Proof. vm_compute. reflexivity. Qed.

(** With a cooling rate of 1 the temperature stays above [min_temp] and
    [anneal] does not return, however far the loop is unrolled. *)
Example anneal_never_cools (fuel : nat) :
  Annealing.anneal fuel Ridge.A Ridge.constant_cfg [] = None.
Proof.
  unfold Annealing.anneal.
  generalize (Annealing.start (R := list nat) Ridge.A []). intros w.
  induction fuel as [|fuel IH]; [reflexivity|].
  simpl. exact IH.
Qed.

(** ** The entry points and their traces *)

Section EntryPoints.
Import Engine Annealing.
Context {T R F : Type}.
Context `{HillClimbingProblem T} `{FloatOps F} `{RandomSource R F}
        `{Restartable T R}.

Lemma restart_anneal_loop_prefix (fuel : nat) (cfg : config F) (restarts : nat)
    (initial_state best_state : T) (best_score : Z) (all_scores : list Z)
    (r : R) (s : T) (tr : list Z) (r' : R) :
  restart_anneal_loop fuel cfg restarts initial_state best_state best_score
    all_scores r = Some (Ok (s, tr, r')) ->
  exists tl, tr = all_scores ++ tl /\
    ((0 < restarts)%nat -> exists tl', tl = evaluate initial_state :: tl').
Proof.
  revert initial_state best_state best_score all_scores r.
  induction restarts as [|n IH];
    intros initial_state best_state best_score all_scores r; simpl.
  - intros [= <- <- <-]. exists []. split; [by rewrite app_nil_r|lia].
  - destruct (anneal fuel initial_state cfg r) as [[[[cs sc] r1]|e]|] eqn:Ea;
      [|done|done].
    destruct (anneal_trace_head _ _ _ _ _ _ _ Ea) as [tl0 ->].
    destruct (best_score <? evaluate cs);
      (destruct (is_goal cs);
       [ intros [= <- <- <-]; eexists; split; [done|]; intros _; by eexists
       | destruct (fresh_initial_state initial_state r1) as [i' r2];
         intros E; destruct (IH _ _ _ _ _ E) as (tl & -> & _);
         exists ((evaluate initial_state :: tl0) ++ tl);
         split; [by rewrite app_assoc|]; intros _; by eexists ]).
Qed.

Lemma restart_anneal_loop_total (cfg : config F) (k restarts : nat)
    (initial_state best_state : T) (best_score : Z) (all_scores : list Z)
    (r : R) :
  metropolis_defined cfg ->
  float_gt (temp_after cfg k (initial_temp cfg)) (min_temp cfg) = false ->
  exists res,
    restart_anneal_loop (S k) cfg restarts initial_state best_state
      best_score all_scores r = Some (Ok res).
Proof.
  intros Hnr Hcold.
  revert initial_state best_state best_score all_scores r.
  induction restarts as [|n IH];
    intros initial_state best_state best_score all_scores r.
  - simpl. by eexists.
  - cbn [restart_anneal_loop].
    destruct (anneal_loop_total cfg k (initial_temp cfg) initial_state []
                (start initial_state r) Hnr (start_tracks initial_state r)
                (Forall_nil_2 _) Hcold) as [[[cs sc] r1] Ea].
    unfold anneal. rewrite Ea.
    destruct (best_score <? evaluate cs);
      (destruct (is_goal cs); [by eexists|];
       destruct (fresh_initial_state initial_state r1) as [i' r2]; apply IH).
Qed.

(** C6, amended: [steepest_ascent], [first_choice] and [random_restart]
    return, for every argument, a trace whose first element is the initial
    state's score. [anneal] returns if the temperature reaches [min_temp]
    after some number of coolings and the Metropolis test does not raise
    where the run evaluates it (on a neighbour that scores no more than the
    current state, at a temperature above [min_temp]), and whenever it
    returns its trace starts with the initial score.
    [random_restart_anneal] returns under the same conditions; its trace
    starts with the initial score when [num_restarts >= 1] and is empty
    when [num_restarts <= 0]. *)
Theorem entry_points_trace_starts_with_initial_score (initial_state : T) :
  (forall max_steps, exists tl,
     (steepest_ascent initial_state max_steps).2 = evaluate initial_state :: tl) /\
  (forall max_steps (rng : R), exists tl,
     (first_choice initial_state max_steps rng).1.2 =
       evaluate initial_state :: tl) /\
  (forall max_restarts (rng : R), exists tl,
     (random_restart initial_state max_restarts rng).1.2 =
       evaluate initial_state :: tl) /\
  (forall fuel (cfg : config F) (r : R) s tr r',
     anneal fuel initial_state cfg r = Some (Ok (s, tr, r')) ->
     exists tl, tr = evaluate initial_state :: tl) /\
  (forall fuel (cfg : config F) num_restarts (r : R) s tr r',
     1 <= num_restarts ->
     random_restart_anneal fuel initial_state num_restarts cfg r =
       Some (Ok (s, tr, r')) ->
     exists tl, tr = evaluate initial_state :: tl) /\
  (forall fuel (cfg : config F) num_restarts (r : R),
     num_restarts <= 0 ->
     random_restart_anneal fuel initial_state num_restarts cfg r =
       Some (Ok (initial_state, [], r))) /\
  (forall (cfg : config F) (k : nat) (r : R),
     metropolis_defined cfg ->
     float_gt (temp_after cfg k (initial_temp cfg)) (min_temp cfg) = false ->
     (exists s tl r',
        anneal (S k) initial_state cfg r =
          Some (Ok (s, evaluate initial_state :: tl, r'))) /\
     (forall num_restarts, 1 <= num_restarts ->
        exists s tl r',
          random_restart_anneal (S k) initial_state num_restarts cfg r =
            Some (Ok (s, evaluate initial_state :: tl, r')))).
Proof.
  split_and!.
  - intros max_steps. unfold steepest_ascent.
    destruct (steepest_loop_trace_prefix (Z.to_nat max_steps) initial_state
                [evaluate initial_state]) as [tl ->]. by exists tl.
  - intros max_steps rng. unfold first_choice.
    destruct (first_choice_loop_spec (Z.to_nat max_steps) initial_state
                [evaluate initial_state] rng) as (rest & _ & -> & _).
    by eexists.
  - intros max_restarts rng. unfold random_restart.
    rewrite random_restart_loop_trace. by eexists.
  - intros fuel cfg r s tr r'. apply anneal_trace_head.
  - intros fuel cfg n r s tr r' Hn E. unfold random_restart_anneal in E.
    apply restart_anneal_loop_prefix in E as (tl & -> & Hhd).
    destruct Hhd as [tl' ->]; [lia|]. by exists tl'.
  - intros fuel cfg n r Hn. unfold random_restart_anneal.
    by replace (Z.to_nat n) with 0%nat by lia.
  - intros cfg k r Hnr Hcold. split.
    + destruct (anneal_loop_total cfg k (initial_temp cfg) initial_state []
                  (start initial_state r) Hnr (start_tracks initial_state r)
                  (Forall_nil_2 _) Hcold) as [[[s tr] r'] Ea].
      destruct (anneal_trace_head (S k) initial_state cfg r s tr r' Ea)
        as [tl ->].
      by exists s, tl, r'.
    + intros n Hn. unfold random_restart_anneal.
      destruct (restart_anneal_loop_total cfg k (Z.to_nat n) initial_state
                  initial_state (evaluate initial_state) [] r Hnr Hcold)
        as [[[s tr] r'] E].
      pose proof E as E'.
      apply restart_anneal_loop_prefix in E' as (tl & -> & Hhd).
      destruct Hhd as [tl' ->]; [lia|]. by exists s, tl', r'.
Qed.
End EntryPoints.

(** C6, as stated, fails: [random_restart_anneal] with [num_restarts = 0]
    returns the initial state with an empty trace. *)
Lemma random_restart_anneal_empty_trace_counterexample :
  Annealing.random_restart_anneal 5 Ridge.A 0 Ridge.cfg [0; 1; 1]%nat =
    Some (Ok (Ridge.A, [], [0; 1; 1]%nat)) /\
  ~ (forall s tr r',
       Annealing.random_restart_anneal 5 Ridge.A 0 Ridge.cfg [0; 1; 1]%nat =
         Some (Ok (s, tr, r')) ->
       exists tl, tr = Engine.evaluate Ridge.A :: tl).
Proof.
  split; [reflexivity|]. intros Hall.
  destruct (Hall Ridge.A [] [0; 1; 1]%nat eq_refl) as [tl Htl]. discriminate Htl.
Qed.

Lemma entry_points_trace_starts_with_initial_score_witness :
  (exists s tl r',
     Annealing.anneal 2 Ridge.A Ridge.cfg (Ridge.Tape [0; 1; 1]%nat) =
       Some (Ok (s, 5 :: tl, r'))) /\
  (exists s tl r',
     Annealing.random_restart_anneal 2 Ridge.A 1 Ridge.cfg
       (Ridge.Tape [0; 1; 1]%nat) = Some (Ok (s, 5 :: tl, r'))).
Proof.
  destruct (entry_points_trace_starts_with_initial_score
              (R := Ridge.tape) (F := Q) Ridge.A)
    as (_ & _ & _ & _ & _ & _ & Htotal).
  destruct (Htotal Ridge.cfg 1%nat (Ridge.Tape [0; 1; 1]%nat)) as [Ha Hr].
  - apply checked_metropolis_defined. by vm_compute.
  - vm_compute. reflexivity.
  - split; [exact Ha|]. apply Hr. lia.
Defined.

(** ** Frames on the store *)

Lemma getitem_elem {X : Type} (l : list X) (i : Z) (x : X) :
  getitem l i = Ok x -> x ∈ l.
Proof.
  unfold getitem. destruct (_ && _); [|done].
  destruct (l !! _) as [y|] eqn:E; [|done].
  intros [= <-]. by eapply list_elem_of_lookup_2.
Qed.

Section Frames.
Import Store.
Variable h0 : gmap loc obj.

Lemma extends_refl : extends h0 h0.
Proof. split; [done|]. intros l o Hs Hn. congruence. Qed.

Lemma extends_insert (h : gmap loc obj) (l : loc) (o : obj) :
  extends h0 h -> h0 !! l = None ->
  (forall l', l' ∈ owned o -> h0 !! l' = None) ->
  extends h0 (<[l := o]> h).
Proof.
  intros [Hsub Hown] Hl Ho. split.
  - by apply insert_subseteq_r.
  - intros l1 o1 Hs Hn. destruct (decide (l = l1)) as [->|Hne].
    + rewrite lookup_insert_eq in Hs. injection Hs as <-. done.
    + rewrite lookup_insert_ne in Hs by done. by apply (Hown l1).
Qed.

Lemma frames_ret {A : Type} (a : A) (Q : A -> Prop) :
  Q a -> frames h0 (ret a) Q.
Proof. intros Hq h Hh. split; [done|]. by intros a' [= <-]. Qed.

Lemma frames_lift {A : Type} (r : result A) (Q : A -> Prop) :
  (forall a, r = Ok a -> Q a) -> frames h0 (lift r) Q.
Proof. intros Hq h Hh. split; [done|]. simpl. done. Qed.

Lemma frames_lift_true {A : Type} (r : result A) :
  frames h0 (lift r) (fun _ => True).
Proof. by apply frames_lift. Qed.

Lemma frames_bind {A B : Type} (m : M A) (k : A -> M B)
    (P : A -> Prop) (Q : B -> Prop) :
  frames h0 m P -> (forall a, P a -> frames h0 (k a) Q) ->
  frames h0 (bind m k) Q.
Proof.
  intros Hm Hk h Hh. destruct (Hm h Hh) as [Hext Hres]. unfold bind.
  destruct (m h) as [[a|e] h']; simpl in *.
  - apply Hk; [by apply Hres|done].
  - split; [done|]. done.
Qed.

Lemma frames_weaken {A : Type} (m : M A) (P Q : A -> Prop) :
  frames h0 m P -> (forall a, P a -> Q a) -> frames h0 m Q.
Proof.
  intros Hm Hpq h Hh. destruct (Hm h Hh) as [Hext Hres].
  split; [done|]. intros a Ha. apply Hpq. by apply Hres.
Qed.

Lemma frames_alloc (o : obj) :
  (forall l', l' ∈ owned o -> h0 !! l' = None) ->
  frames h0 (alloc o) (fun l => h0 !! l = None).
Proof.
  intros Ho h Hh. unfold alloc. simpl.
  assert (h0 !! fresh (dom h) = None) as Hfresh.
  { pose proof (is_fresh (dom h)) as Hf.
    apply not_elem_of_dom in Hf.
    destruct Hh as [Hsub _].
    destruct (h0 !! fresh (dom h)) as [o'|] eqn:E; [|done].
    eapply lookup_weaken in E; [|exact Hsub]. congruence. }
  split; [by apply extends_insert|]. by intros a [= <-].
Qed.

Lemma frames_read (l : loc) :
  frames h0 (read l)
    (fun o => h0 !! l = None -> forall l', l' ∈ owned o -> h0 !! l' = None).
Proof.
  intros h Hh. unfold read. destruct (h !! l) as [o|] eqn:E; simpl.
  - split; [done|]. intros a [= <-] Hl. destruct Hh as [_ Hown].
    by apply (Hown l).
  - split; [done|]. done.
Qed.

Lemma frames_write (l : loc) (o : obj) :
  h0 !! l = None -> (forall l', l' ∈ owned o -> h0 !! l' = None) ->
  frames h0 (write l o) (fun _ => True).
Proof.
  intros Hl Ho h Hh. unfold write. simpl. split; [by apply extends_insert|done].
Qed.

Lemma frames_for_each_h {A S : Type} (xs : list A) (body : A -> S -> M S)
    (s : S) (I : S -> Prop) :
  I s -> (forall x s1, I s1 -> frames h0 (body x s1) I) ->
  frames h0 (for_each_h xs body s) I.
Proof.
  intros Hs Hbody. revert s Hs. induction xs as [|x xs IH]; intros s Hs; simpl.
  - by apply frames_ret.
  - eapply frames_bind; [by apply Hbody|]. intros s1 Hs1. by apply IH.
Qed.

Lemma frames_read_list (l : loc) : frames h0 (read_list l) (fun _ => True).
Proof.
  unfold read_list. eapply frames_bind; [apply frames_read|].
  intros o _. destruct o; by (apply frames_ret || apply frames_lift).
Qed.

Lemma frames_read_board (l : loc) :
  frames h0 (read_board l)
    (fun rows => h0 !! l = None -> forall r, r ∈ rows -> h0 !! r = None).
Proof.
  unfold read_board. eapply frames_bind; [apply frames_read|].
  intros o Ho. destruct o; try by apply frames_lift.
  by apply frames_ret.
Qed.

Lemma frames_read_puzzle (self : loc) :
  frames h0 (read_puzzle self)
    (fun p => h0 !! self = None -> h0 !! p.1.1.1 = None).
Proof.
  unfold read_puzzle. eapply frames_bind; [apply frames_read|].
  intros o Ho. destruct o; try by apply frames_lift.
  apply frames_ret. simpl. intros Hs. apply Ho; [done|]. simpl. by left.
Qed.

Lemma frames_read_queen (self : loc) :
  frames h0 (read_queen self) (fun p => h0 !! self = None -> h0 !! p.2 = None).
Proof.
  unfold read_queen. eapply frames_bind; [apply frames_read|].
  intros o Ho. destruct o; try by apply frames_lift.
  apply frames_ret. simpl. intros Hs. apply Ho; [done|]. simpl. by left.
Qed.
End Frames.

Section PuzzleFrames.
Import Store.
Variable h0 : gmap loc obj.

Lemma frames_cell_h (board : loc) (i j : Z) :
  frames h0 (cell_h board i j) (fun _ => True).
Proof.
  unfold cell_h.
  eapply frames_bind; [apply frames_read_board|]. intros rows _.
  eapply frames_bind; [apply frames_lift_true|]. intros row _.
  eapply frames_bind; [apply frames_read_list|]. intros items _.
  by apply frames_lift.
Qed.

Lemma frames_set_cell_h (board : loc) (i j v : Z) :
  h0 !! board = None -> frames h0 (set_cell_h board i j v) (fun _ => True).
Proof.
  intros Hb. unfold set_cell_h.
  eapply frames_bind; [apply frames_read_board|]. intros rows Hrows.
  eapply (frames_bind _ _ _ (fun row => h0 !! row = None)).
  { apply frames_lift. intros row Hrow. apply Hrows; [done|].
    by apply getitem_elem in Hrow. }
  intros row Hrow.
  eapply frames_bind; [apply frames_read_list|]. intros items _.
  eapply frames_bind; [apply frames_lift_true|]. intros items' _.
  apply frames_write; [done|]. intros l' Hl'. by apply not_elem_of_nil in Hl'.
Qed.

Lemma frames_find_blank_from_h (board : loc) (todo : list (Z * Z)) :
  frames h0 (find_blank_from_h board todo) (fun _ => True).
Proof.
  induction todo as [|[i j] todo IH]; simpl.
  - by apply frames_lift.
  - eapply frames_bind; [apply frames_cell_h|]. intros v _.
    destruct (v =? 0); [by apply frames_ret|done].
Qed.

Lemma frames_puzzle_new (board : loc) (goal : option loc) :
  h0 !! board = None ->
  frames h0 (puzzle_new board goal) (fun l => h0 !! l = None).
Proof.
  intros Hb. unfold puzzle_new.
  eapply frames_bind; [apply frames_find_blank_from_h|]. intros bp _.
  apply frames_alloc. simpl. intros l' Hl'.
  apply list_elem_of_singleton in Hl'. by subst.
Qed.

Lemma frames_deepcopy_rows (rows : list loc) (memo : list (loc * loc)) :
  (forall p, p ∈ memo -> h0 !! p.2 = None) ->
  frames h0 (deepcopy_rows rows memo) (fun rs => forall r, r ∈ rs -> h0 !! r = None).
Proof.
  revert memo. induction rows as [|r rows IH]; intros memo Hmemo; simpl.
  - apply frames_ret. intros r Hr. by apply not_elem_of_nil in Hr.
  - destruct (list_find _ memo) as [[i [a r']]|] eqn:Ef.
    + apply list_find_Some in Ef as (Hi & _ & _).
      apply list_elem_of_lookup_2 in Hi. apply Hmemo in Hi. simpl in Hi.
      eapply frames_bind; [by apply IH|]. intros rs Hrs.
      apply frames_ret. intros x Hx.
      apply elem_of_cons in Hx as [->|Hx]; [done|by apply Hrs].
    + eapply frames_bind; [apply frames_read_list|]. intros items _.
      eapply frames_bind.
      { apply frames_alloc. intros l' Hl'. by apply not_elem_of_nil in Hl'. }
      intros r' Hr'. simpl in Hr'.
      eapply frames_bind.
      { apply IH. intros p Hp. apply elem_of_cons in Hp as [->|Hp]; [done|].
        by apply Hmemo. }
      intros rs Hrs. apply frames_ret. intros x Hx.
      apply elem_of_cons in Hx as [->|Hx]; [done|by apply Hrs].
Qed.

Lemma frames_deepcopy (board : loc) :
  frames h0 (deepcopy board) (fun l => h0 !! l = None).
Proof.
  unfold deepcopy.
  eapply frames_bind; [apply frames_read_board|]. intros rows _.
  eapply frames_bind.
  { apply frames_deepcopy_rows. intros p Hp. by apply not_elem_of_nil in Hp. }
  intros rows' Hrows'. by apply frames_alloc.
Qed.

Lemma frames_move (self : loc) (direction : string) :
  frames h0 (move self direction)
    (fun r => forall s, r = Some s -> h0 !! s = None).
Proof.
  unfold move. destruct (Puzzle.moves !! direction) as [[dx dy]|].
  2:{ by apply frames_ret. }
  eapply frames_bind; [apply frames_read_puzzle|].
  intros [[[board size] blank_pos] goal] _.
  destruct (_ && _); [|by apply frames_ret].
  eapply frames_bind; [apply frames_deepcopy|]. intros new_board Hnb.
  simpl in Hnb.
  eapply frames_bind; [apply frames_cell_h|]. intros v _.
  eapply frames_bind; [by apply frames_set_cell_h|]. intros _ _.
  eapply frames_bind; [by apply frames_set_cell_h|]. intros _ _.
  eapply frames_bind; [by apply frames_puzzle_new|]. intros new_state Hns.
  apply frames_ret. by intros s [= <-].
Qed.

Lemma frames_get_possible_moves (self : loc) :
  frames h0 (get_possible_moves self) (fun _ => True).
Proof.
  unfold get_possible_moves.
  eapply frames_bind; [apply frames_read_puzzle|].
  intros [[[board size] [x y]] goal] _. by apply frames_ret.
Qed.

Lemma frames_puzzle_get_neighbors (self : loc) :
  frames h0 (puzzle_get_neighbors self)
    (fun ns => forall n, n ∈ ns -> h0 !! n = None).
Proof.
  unfold puzzle_get_neighbors.
  eapply frames_bind; [apply frames_get_possible_moves|]. intros moves _.
  apply frames_for_each_h.
  { intros n Hn. by apply not_elem_of_nil in Hn. }
  intros m acc Hacc. unfold puzzle_neighbor_body.
  eapply frames_bind; [apply frames_move|]. intros [new_state|] Hr.
  2:{ by apply frames_ret. }
  eapply frames_bind; [apply frames_read_puzzle|].
  intros [[[new_board sz] bp] g] Hnb. simpl in Hnb.
  eapply frames_bind; [apply frames_read_puzzle|].
  intros [[[b sz'] bp'] goal] _.
  eapply frames_bind; [apply frames_puzzle_new; apply Hnb; by apply Hr|].
  intros n Hn. apply frames_ret. intros x Hx.
  apply elem_of_app in Hx as [Hx|Hx]; [by apply Hacc|].
  apply list_elem_of_singleton in Hx. by subst.
Qed.

Lemma frames_queen_new (size : Z) :
  frames h0 (queen_new size) (fun l => h0 !! l = None).
Proof.
  unfold queen_new. eapply frames_bind.
  { apply frames_alloc. intros l' Hl'. by apply not_elem_of_nil in Hl'. }
  intros cols Hcols. apply frames_alloc. simpl. intros l' Hl'.
  apply list_elem_of_singleton in Hl'. by subst.
Qed.

Lemma frames_list_copy (l : loc) :
  frames h0 (list_copy l) (fun l' => h0 !! l' = None).
Proof.
  unfold list_copy. eapply frames_bind; [apply frames_read_list|].
  intros items _. apply frames_alloc. intros l' Hl'.
  by apply not_elem_of_nil in Hl'.
Qed.

Lemma frames_queen_neighbor_body (self : loc) (row current_col new_col : Z)
    (neighbors : list loc) :
  (forall n, n ∈ neighbors -> h0 !! n = None) ->
  frames h0 (queen_neighbor_body self row current_col new_col neighbors)
    (fun ns => forall n, n ∈ ns -> h0 !! n = None).
Proof.
  intros Hacc. unfold queen_neighbor_body.
  destruct (negb _); [|by apply frames_ret].
  eapply frames_bind; [apply frames_read_queen|]. intros [size c0] _.
  eapply frames_bind; [apply frames_queen_new|]. intros new_state Hns.
  simpl in Hns.
  eapply frames_bind; [apply frames_read_queen|]. intros [sz cols] _.
  eapply frames_bind; [apply frames_list_copy|]. intros cols' Hcols'.
  simpl in Hcols'.
  eapply frames_bind; [apply frames_read_queen|]. intros [size' c1] _.
  eapply frames_bind.
  { apply frames_write; [done|]. simpl. intros l' Hl'.
    apply list_elem_of_singleton in Hl'. by subst. }
  intros _ _.
  eapply frames_bind; [apply frames_read_queen|]. intros [sz2 target] Ht.
  simpl in Ht. specialize (Ht Hns).
  eapply frames_bind; [apply frames_read_list|]. intros items _.
  eapply frames_bind; [apply frames_lift_true|]. intros items' _.
  eapply frames_bind.
  { apply frames_write; [done|]. intros l' Hl'. by apply not_elem_of_nil in Hl'. }
  intros _ _. apply frames_ret. intros x Hx.
  apply elem_of_app in Hx as [Hx|Hx]; [by apply Hacc|].
  apply list_elem_of_singleton in Hx. by subst.
Qed.

Lemma frames_queen_get_neighbors (self : loc) :
  frames h0 (queen_get_neighbors self)
    (fun ns => forall n, n ∈ ns -> h0 !! n = None).
Proof.
  unfold queen_get_neighbors.
  eapply frames_bind; [apply frames_read_queen|]. intros [size c] _.
  apply frames_for_each_h.
  { intros n Hn. by apply not_elem_of_nil in Hn. }
  intros row acc Hacc. unfold queen_row_body.
  eapply frames_bind; [apply frames_read_queen|]. intros [sz cols] _.
  eapply frames_bind; [apply frames_read_list|]. intros items _.
  eapply frames_bind; [apply frames_lift_true|]. intros current_col _.
  eapply frames_bind; [apply frames_read_queen|]. intros [size' c'] _.
  apply frames_for_each_h; [done|].
  intros new_col acc' Hacc'. by apply frames_queen_neighbor_body.
Qed.
End PuzzleFrames.

(** ** Claim on the store *)

Example store_move_demo :
  let out := Store.move 4%nat "下" Store.sample in
  exists s, out.1 = Ok (Some s) /\
    (Store.puzzle_value s out.2).1 = Ok ([[1;4;2];[3;0;5];[6;7;8]], (1, 1)) /\
    (Store.puzzle_value 4%nat out.2).1 = Ok ([[1;0;2];[3;4;5];[6;7;8]], (0, 1)).
Proof. vm_compute. eexists. split_and!; reflexivity. Qed.

Example store_queen_neighbors_demo :
  let out := Store.queen_get_neighbors 6%nat Store.sample in
  exists ns, out.1 = Ok ns /\ length ns = 12%nat /\
    (Store.queen_value 6%nat out.2).1 = Ok [1; 3; 0; 2] /\
    (n ← head ns; Some (Store.queen_value n out.2).1) = Some (Ok [0; 3; 0; 2]).
Proof. vm_compute. eexists. split_and!; reflexivity. Qed.

(** C8: from any store, a move of a tile-puzzle state and the neighbour
    generation of a queens state (and of a tile-puzzle state) leave every
    object of the store as it was, whether they return or raise: the parent's
    board, rows, blank position and [queen_cols] read the same afterwards.
    The state that [move] returns and the neighbours are new objects, and the
    board, rows and [queen_cols] they own are new objects too. *)
Theorem transitions_leave_past_states_unchanged
    (h : gmap Store.loc Store.obj) (self : Store.loc) :
  (forall direction,
     (forall l o, h !! l = Some o ->
        (Store.move self direction h).2 !! l = Some o) /\
     Store.extends h (Store.move self direction h).2 /\
     (forall s, (Store.move self direction h).1 = Ok (Some s) -> h !! s = None)) /\
  ((forall l o, h !! l = Some o ->
      (Store.queen_get_neighbors self h).2 !! l = Some o) /\
   Store.extends h (Store.queen_get_neighbors self h).2 /\
   (forall ns n, (Store.queen_get_neighbors self h).1 = Ok ns -> n ∈ ns ->
      h !! n = None)) /\
  ((forall l o, h !! l = Some o ->
      (Store.puzzle_get_neighbors self h).2 !! l = Some o) /\
   Store.extends h (Store.puzzle_get_neighbors self h).2 /\
   (forall ns n, (Store.puzzle_get_neighbors self h).1 = Ok ns -> n ∈ ns ->
      h !! n = None)).
Proof.
  split_and!.
  - intros direction.
    destruct (frames_move h self direction h (extends_refl h)) as [Hext Hres].
    split_and!; [|done|].
    + intros l o Hl. destruct Hext as [Hsub _]. by eapply lookup_weaken.
    + intros s Hs. by apply (Hres (Some s)).
  - intros l o Hl.
    destruct (frames_queen_get_neighbors h self h (extends_refl h)) as [[Hsub _] _].
    by eapply lookup_weaken.
  - by destruct (frames_queen_get_neighbors h self h (extends_refl h)).
  - intros ns n Hns Hn.
    destruct (frames_queen_get_neighbors h self h (extends_refl h)) as [_ Hres].
    by apply (Hres ns).
  - intros l o Hl.
    destruct (frames_puzzle_get_neighbors h self h (extends_refl h)) as [[Hsub _] _].
    by eapply lookup_weaken.
  - by destruct (frames_puzzle_get_neighbors h self h (extends_refl h)).
  - intros ns n Hns Hn.
    destruct (frames_puzzle_get_neighbors h self h (extends_refl h)) as [_ Hres].
    by apply (Hres ns).
Qed.

Lemma transitions_leave_past_states_unchanged_witness :
  (Store.move 4%nat "下" Store.sample).2 !! 0%nat = Some (Store.OList [1; 0; 2]) /\
  (Store.queen_get_neighbors 6%nat Store.sample).2 !! 5%nat =
    Some (Store.OList [1; 3; 0; 2]).
Proof.
  split.
  - destruct (transitions_leave_past_states_unchanged Store.sample 4%nat)
      as (Hmove & _ & _).
    destruct (Hmove "下"%string) as (Hkeep & _ & _).
    apply Hkeep. vm_compute. reflexivity.
  - destruct (transitions_leave_past_states_unchanged Store.sample 6%nat)
      as (_ & (Hkeep & _ & _) & _).
    apply Hkeep. vm_compute. reflexivity.
Defined.

(** ** The store and the value model agree *)

Lemma getitem_index {X : Type} (l : list X) (i : Z) (x : X) :
  getitem l i = Ok x ->
  exists k, l !! k = Some x /\ forall y, setitem l i y = Ok (<[k := y]> l).
Proof.
  unfold getitem, setitem.
  destruct (_ && _); [|done].
  destruct (l !! _) as [x'|] eqn:E; [|done]. intros [= <-].
  eexists. split; [exact E|done].
Qed.

Lemma getitem_Forall2 {X Y : Type} (P : X -> Y -> Prop) (l1 : list X)
    (l2 : list Y) (i : Z) :
  Forall2 P l1 l2 ->
  match getitem l1 i, getitem l2 i with
  | Ok x, Ok y =>
      exists k, l1 !! k = Some x /\ l2 !! k = Some y /\ P x y /\
                forall y', setitem l2 i y' = Ok (<[k := y']> l2)
  | Raise e1, Raise e2 => e1 = e2
  | _, _ => False
  end.
Proof.
  intros HF. pose proof (Forall2_length _ _ _ HF) as Hlen.
  unfold getitem, setitem. rewrite <- Hlen.
  destruct (_ && _); [|done].
  set (k := Z.to_nat _).
  destruct (l1 !! k) as [x|] eqn:E1; destruct (l2 !! k) as [y|] eqn:E2.
  - exists k. split_and!; try done. by eapply Forall2_lookup_lr.
  - apply lookup_lt_Some in E1. apply lookup_ge_None in E2. lia.
  - apply lookup_lt_Some in E2. apply lookup_ge_None in E1. lia.
  - done.
Qed.

Section Agreement.
Import Store.

Lemma read_board_at (h : gmap loc obj) (b : loc) (rows : list loc) :
  h !! b = Some (OBoard rows) -> read_board b h = (Ok rows, h).
Proof. intros E. unfold read_board, bind, read. by rewrite E. Qed.

Lemma read_list_at (h : gmap loc obj) (r : loc) (items : list Z) :
  h !! r = Some (OList items) -> read_list r h = (Ok items, h).
Proof. intros E. unfold read_list, bind, read. by rewrite E. Qed.

Lemma cell_h_agrees (h : gmap loc obj) (b : loc) (bv : list (list Z)) (i j : Z) :
  board_at h b bv -> cell_h b i j h = (Puzzle.cell bv i j, h).
Proof.
  intros (rows & Hb & _ & HF). unfold cell_h, bind at 1.
  rewrite (read_board_at h b rows Hb). unfold Puzzle.cell.
  pose proof (getitem_Forall2 _ rows bv i HF) as Hg.
  unfold bind at 1, lift at 1.
  destruct (getitem rows i) as [r|e1]; destruct (getitem bv i) as [items|e2];
    try done.
  - destruct Hg as (k & _ & _ & Hr & _). unfold bind.
    by rewrite (read_list_at h r items Hr).
  - by subst.
Qed.

Lemma find_blank_from_h_agrees (h : gmap loc obj) (b : loc) (bv : list (list Z))
    (todo : list (Z * Z)) :
  board_at h b bv ->
  find_blank_from_h b todo h = (Puzzle.find_blank_from bv todo, h).
Proof.
  intros Hb. induction todo as [|[i j] todo IH]; simpl; [done|].
  unfold bind. rewrite (cell_h_agrees h b bv i j Hb).
  destruct (Puzzle.cell bv i j) as [v|e]; simpl; [|done].
  destruct (v =? 0); [done|exact IH].
Qed.

Lemma set_cell_h_agrees (h : gmap loc obj) (b : loc) (bv : list (list Z))
    (i j v : Z) :
  board_at h b bv ->
  match Puzzle.set_cell bv i j v with
  | Ok bv' => exists h', set_cell_h b i j v h = (Ok tt, h') /\ board_at h' b bv'
  | Raise e => exists h', set_cell_h b i j v h = (Raise e, h')
  end.
Proof.
  intros (rows & Hb & Hnd & HF). unfold set_cell_h, bind, lift.
  rewrite (read_board_at h b rows Hb). unfold Puzzle.set_cell.
  pose proof (getitem_Forall2 _ rows bv i HF) as Hg.
  destruct (getitem rows i) as [r|e1]; destruct (getitem bv i) as [items|e2];
    try done; [|subst; by eexists].
  destruct Hg as (k & Hrk & Hbk & Hr & Hset). py_simpl.
  rewrite (read_list_at h r items Hr).
  destruct (setitem items j v) as [items'|e]; py_simpl; [|by eexists].
  rewrite Hset. unfold write. eexists. split; [done|].
  exists rows. split_and!.
  - rewrite lookup_insert_ne; [done|]. intros ->. congruence.
  - done.
  - apply Forall2_same_length_lookup. split.
    + rewrite length_insert. by eapply Forall2_length.
    + intros n r' items'' Hr' Hi'.
      destruct (decide (n = k)) as [->|Hne].
      * rewrite Hrk in Hr'. injection Hr' as <-.
        rewrite list_lookup_insert_eq in Hi' by (by eapply lookup_lt_Some).
        injection Hi' as <-. by rewrite lookup_insert_eq.
      * rewrite list_lookup_insert_ne in Hi' by done.
        rewrite lookup_insert_ne.
        -- exact (Forall2_lookup_lr _ _ _ _ _ _ HF Hr' Hi').
        -- intros ->. apply Hne. symmetry. by eapply NoDup_lookup.
Qed.

Lemma fresh_lookup_None (h : gmap loc obj) : h !! fresh (dom h) = None.
Proof. apply not_elem_of_dom. apply is_fresh. Qed.

Lemma deepcopy_rows_agrees (rows : list loc) (vals : list (list Z))
    (memo : list (loc * loc)) (h : gmap loc obj) :
  Forall2 (fun r items => h !! r = Some (OList items)) rows vals ->
  (forall r p, r ∈ rows -> p ∈ memo -> p.1 <> r) ->
  NoDup rows ->
  exists rows' h',
    deepcopy_rows rows memo h = (Ok rows', h') /\ h ⊆ h' /\
    Forall2 (fun r items => h' !! r = Some (OList items)) rows' vals /\
    NoDup rows' /\ (forall r, r ∈ rows' -> h !! r = None).
Proof.
  revert vals memo h.
  induction rows as [|r rows IH]; intros vals memo h HF Hmemo Hnd.
  - apply Forall2_nil_inv_l in HF as ->. exists [], h. simpl.
    split_and!; try done; try constructor.
    intros r Hr. by apply not_elem_of_nil in Hr.
  - apply Forall2_cons_inv_l in HF as (items & vals' & Hr & HF & ->). simpl.
    destruct (list_find (fun p => p.1 = r) memo) as [[i [a r0]]|] eqn:Ef.
    { apply list_find_Some in Ef as (Hi & Ha & _).
      apply list_elem_of_lookup_2 in Hi. destruct (Hmemo r (a, r0)); try done.
      by left. }
    apply NoDup_cons in Hnd as [Hnotin Hnd].
    unfold bind. rewrite (read_list_at h r items Hr). unfold alloc.
    set (r' := fresh (dom h)). set (h1 := <[r' := OList items]> h).
    pose proof (fresh_lookup_None h) as Hfresh. fold r' in Hfresh.
    assert (h ⊆ h1) as Hsub by (by apply insert_subseteq).
    destruct (IH vals' ((r, r') :: memo) h1)
      as (rows' & h' & E & Hsub' & HF' & Hnd' & Hnew).
    + eapply Forall2_impl; [exact HF|]. intros x y Hx. simpl in Hx.
      by eapply lookup_weaken.
    + intros r1 p Hr1 Hp. apply elem_of_cons in Hp as [->|Hp].
      * simpl. intros ->. done.
      * apply Hmemo; [by right|done].
    + done.
    + rewrite E. exists (r' :: rows'), h'. unfold ret. split_and!.
      * done.
      * by etrans.
      * constructor; [|done]. eapply lookup_weaken; [|exact Hsub'].
        subst h1. apply lookup_insert_eq.
      * apply NoDup_cons. split; [|done]. intros Hin.
        apply Hnew in Hin. subst h1. by rewrite lookup_insert_eq in Hin.
      * intros x Hx. apply elem_of_cons in Hx as [->|Hx]; [done|].
        apply Hnew in Hx. subst h1.
        apply lookup_insert_None in Hx as [Hx _]. done.
Qed.

Lemma deepcopy_agrees (h : gmap loc obj) (b : loc) (bv : list (list Z)) :
  board_at h b bv ->
  exists b' h', deepcopy b h = (Ok b', h') /\ h ⊆ h' /\ board_at h' b' bv /\
                h !! b' = None.
Proof.
  intros (rows & Hb & Hnd & HF). unfold deepcopy, bind.
  rewrite (read_board_at h b rows Hb).
  destruct (deepcopy_rows_agrees rows bv [] h HF)
    as (rows' & h' & -> & Hsub & HF' & Hnd' & Hnew); [|done|].
  { intros r p _ Hp. by apply not_elem_of_nil in Hp. }
  unfold alloc. set (b' := fresh (dom h')).
  pose proof (fresh_lookup_None h') as Hfresh. fold b' in Hfresh.
  exists b', (<[b' := OBoard rows']> h'). split_and!.
  - done.
  - etrans; [exact Hsub|]. by apply insert_subseteq.
  - exists rows'. split_and!; [apply lookup_insert_eq|done|].
    eapply Forall2_impl; [exact HF'|]. intros x y Hx. simpl in Hx.
    rewrite lookup_insert_ne; [done|]. intros <-. congruence.
  - destruct (h !! b') eqn:E; [|done].
    eapply lookup_weaken in E; [|exact Hsub]. congruence.
Qed.

(** [Store.move] computes what [Puzzle.move] computes: the same exception,
    the same [None], or a new instance that is the state [Puzzle.move]
    returns. The rows of the board must be distinct objects, as they are in
    every board that [generate_random_puzzle] and [move] build. *)
Lemma move_agrees (h : gmap loc obj) (self : loc) (s : Puzzle.EightPuzzleState)
    (direction : string) :
  puzzle_at h self s ->
  exists out h', move self direction h = (out, h') /\
                 move_outcomes_agree h' (Puzzle.move s direction) out.
Proof.
  intros (b & goal & Hself & Hb). unfold move, Puzzle.move.
  destruct (Puzzle.moves !! direction) as [[dx dy]|];
    [|by exists (Ok None), h].
  unfold bind at 1. unfold read_puzzle, bind at 1, read. rewrite Hself.
  cbn [ret fst snd].
  destruct (_ && _); [|by exists (Ok None), h].
  destruct (deepcopy_agrees h b _ Hb) as (b1 & h1 & E1 & Hsub1 & Hb1 & Hnew1).
  unfold bind at 1. rewrite E1.
  unfold bind at 1. rewrite (cell_h_agrees h1 b1 _ _ _ Hb1).
  destruct (Puzzle.cell _ _ _) as [v|e]; py_simpl; [|by eexists (Raise e), _].
  pose proof (set_cell_h_agrees h1 b1 _ (Puzzle.blank_pos s).1
                (Puzzle.blank_pos s).2 v Hb1) as H2.
  unfold bind at 1.
  destruct (Puzzle.set_cell _ _ _ v) as [bv2|e]; py_simpl.
  2:{ destruct H2 as [h2 ->]. by eexists (Raise e), _. }
  destruct H2 as (h2 & -> & Hb2).
  pose proof (set_cell_h_agrees h2 b1 bv2 ((Puzzle.blank_pos s).1 + dx)
                ((Puzzle.blank_pos s).2 + dy) 0 Hb2) as H3.
  unfold bind at 1.
  destruct (Puzzle.set_cell bv2 _ _ 0) as [bv3|e]; py_simpl.
  2:{ destruct H3 as [h3 ->]. by eexists (Raise e), _. }
  destruct H3 as (h3 & -> & Hb3).
  unfold bind at 1, puzzle_new, bind at 1.
  rewrite (find_blank_from_h_agrees h3 b1 bv3 _ Hb3).
  unfold Puzzle.init, Puzzle._find_blank.
  destruct (Puzzle.find_blank_from bv3 _) as [bp|e]; py_simpl;
    [|by eexists (Raise e), _].
  unfold alloc, ret. set (l := fresh (dom h3)).
  pose proof (fresh_lookup_None h3) as Hfresh. fold l in Hfresh.
  eexists (Ok (Some l)), _. split; [done|].
  exists b1, None. simpl. split; [apply lookup_insert_eq|].
  destruct Hb3 as (rows & Hb3 & Hnd & HF). exists rows. split_and!.
  - rewrite lookup_insert_ne; [done|]. intros <-. congruence.
  - done.
  - eapply Forall2_impl; [exact HF|]. intros x y Hx. simpl in Hx.
    rewrite lookup_insert_ne; [done|]. intros <-. congruence.
Qed.

Lemma read_queen_at (h : gmap loc obj) (self : loc) (sz : Z) (c : loc) :
  h !! self = Some (OQueen sz c) -> read_queen self h = (Ok (sz, c), h).
Proof. intros E. unfold read_queen, bind, read. by rewrite E. Qed.

Lemma queen_at_weaken (h h' : gmap loc obj) (l : loc) (q : Queen.QueenState) :
  h ⊆ h' -> queen_at h l q -> queen_at h' l q.
Proof.
  intros Hsub (c & Hl & Hc). exists c. split; by eapply lookup_weaken.
Qed.

Lemma queen_neighbor_body_agrees (h : gmap loc obj) (self : loc)
    (q : Queen.QueenState) (row current_col new_col : Z)
    (acc_l : list loc) (acc_q : list Queen.QueenState) :
  queen_at h self q -> Forall2 (queen_at h) acc_l acc_q ->
  exists out h',
    queen_neighbor_body self row current_col new_col acc_l h = (out, h') /\
    h ⊆ h' /\
    neighbors_agree h' (Queen.neighbor_body q row current_col new_col acc_q) out.
Proof.
  intros (c & Hself & Hc) Hacc.
  unfold queen_neighbor_body, Queen.neighbor_body.
  destruct (negb _); [|by exists (Ok acc_l), h].
  unfold bind at 1. rewrite (read_queen_at h self _ c Hself).
  unfold bind at 1, queen_new, bind at 1, alloc at 1.
  set (c0 := fresh (dom h)).
  set (h1 := <[c0 := OList (replicate (Z.to_nat (Queen.size q)) (-1))]> h).
  pose proof (fresh_lookup_None h) as Hc0. fold c0 in Hc0.
  unfold alloc at 1. set (ns := fresh (dom h1)).
  set (h2 := <[ns := OQueen (Queen.size q) c0]> h1).
  pose proof (fresh_lookup_None h1) as Hns. fold ns in Hns.
  assert (h ⊆ h1) as Hsub1 by (by apply insert_subseteq).
  assert (h1 ⊆ h2) as Hsub2 by (by apply insert_subseteq).
  assert (h ⊆ h2) as Hsub02 by (by etrans).
  unfold bind at 1.
  rewrite (read_queen_at h2 self (Queen.size q) c)
    by (by eapply lookup_weaken).
  unfold bind at 1, list_copy, bind at 1.
  rewrite (read_list_at h2 c (Queen.queen_cols q))
    by (by eapply lookup_weaken).
  unfold alloc at 1. set (c' := fresh (dom h2)).
  set (h3 := <[c' := OList (Queen.queen_cols q)]> h2).
  pose proof (fresh_lookup_None h2) as Hc'. fold c' in Hc'.
  assert (h2 ⊆ h3) as Hsub3 by (by apply insert_subseteq).
  assert (c' <> ns) as Hne.
  { intros E. rewrite E in Hc'. subst h2. by rewrite lookup_insert_eq in Hc'. }
  unfold bind at 1.
  rewrite (read_queen_at h3 ns (Queen.size q) c0).
  2:{ subst h3. rewrite lookup_insert_ne by done. subst h2.
      apply lookup_insert_eq. }
  unfold bind at 1, write at 1.
  set (h4 := <[ns := OQueen (Queen.size q) c']> h3).
  unfold bind at 1.
  rewrite (read_queen_at h4 ns (Queen.size q) c')
    by (subst h4; apply lookup_insert_eq).
  unfold bind at 1.
  rewrite (read_list_at h4 c' (Queen.queen_cols q)).
  2:{ subst h4. rewrite lookup_insert_ne by done. subst h3.
      apply lookup_insert_eq. }
  assert (h ⊆ h4) as Hsub04.
  { subst h4. apply insert_subseteq_r; [|by etrans].
    destruct (h !! ns) eqn:E; [|done].
    eapply lookup_weaken in E; [|exact Hsub1]. congruence. }
  unfold bind at 1, lift at 1. simpl Queen.size. simpl Queen.queen_cols.
  destruct (setitem (Queen.queen_cols q) row new_col) as [cols|e]; py_simpl.
  2:{ eexists (Raise e), _. split; [done|]. split; [exact Hsub04|done]. }
  unfold bind, write, ret.
  set (h5 := <[c' := OList cols]> h4).
  assert (h ⊆ h5) as Hsub05.
  { subst h5. apply insert_subseteq_r; [|done].
    destruct (h !! c') eqn:E; [|done].
    eapply lookup_weaken in E; [|exact Hsub02]. congruence. }
  exists (Ok (acc_l ++ [ns])), h5. split; [done|]. split; [done|]. simpl.
  apply Forall2_app.
  - eapply Forall2_impl; [exact Hacc|]. intros x y. by apply queen_at_weaken.
  - constructor; [|constructor]. exists c'. simpl. split.
    + subst h5. rewrite lookup_insert_ne by done. subst h4.
      apply lookup_insert_eq.
    + subst h5. apply lookup_insert_eq.
Qed.

Lemma for_each_h_agrees {X : Type} (self : loc) (q : Queen.QueenState)
    (xs : list X)
    (body_p : X -> list Queen.QueenState -> result (list Queen.QueenState))
    (body_h : X -> list loc -> M (list loc)) :
  (forall x h acc_l acc_q,
     queen_at h self q -> Forall2 (queen_at h) acc_l acc_q ->
     exists out h', body_h x acc_l h = (out, h') /\ h ⊆ h' /\
                    neighbors_agree h' (body_p x acc_q) out) ->
  forall h acc_l acc_q,
    queen_at h self q -> Forall2 (queen_at h) acc_l acc_q ->
    exists out h', for_each_h xs body_h acc_l h = (out, h') /\ h ⊆ h' /\
                   neighbors_agree h' (for_each xs body_p acc_q) out.
Proof.
  intros Hbody. induction xs as [|x xs IH]; intros h acc_l acc_q Hself Hacc.
  - exists (Ok acc_l), h. by split_and!.
  - simpl. destruct (Hbody x h acc_l acc_q Hself Hacc)
      as (out & h1 & E & Hsub & Hag).
    unfold bind. rewrite E.
    destruct (body_p x acc_q) as [acc_q'|e]; destruct out as [acc_l'|e'];
      simpl in Hag; try done.
    + destruct (IH h1 acc_l' acc_q') as (out2 & h2 & E2 & Hsub2 & Hag2);
        [by eapply queen_at_weaken|done|].
      exists out2, h2. split_and!; [done|by etrans|done].
    + exists (Raise e'), h1. by split_and!.
Qed.

Lemma queen_row_body_agrees (h : gmap loc obj) (self : loc)
    (q : Queen.QueenState) (row : Z)
    (acc_l : list loc) (acc_q : list Queen.QueenState) :
  queen_at h self q -> Forall2 (queen_at h) acc_l acc_q ->
  exists out h',
    queen_row_body self row acc_l h = (out, h') /\ h ⊆ h' /\
    neighbors_agree h' (Queen.row_body q row acc_q) out.
Proof.
  intros Hq Hacc. pose proof Hq as (c & Hself & Hc).
  unfold queen_row_body, Queen.row_body.
  unfold bind at 1. rewrite (read_queen_at h self _ c Hself).
  unfold bind at 1. rewrite (read_list_at h c _ Hc).
  unfold bind at 1, lift at 1.
  destruct (getitem (Queen.queen_cols q) row) as [current_col|e]; py_simpl.
  2:{ exists (Raise e), h. by split_and!. }
  unfold bind at 1. rewrite (read_queen_at h self _ c Hself).
  apply (for_each_h_agrees self q); [|done|done].
  intros new_col h1 al aq. apply queen_neighbor_body_agrees.
Qed.

(** [Store.queen_get_neighbors] computes what [Queen.get_neighbors]
    computes: the same exception, or new instances that are, in order, the
    neighbours of the value model, with the parent still in place. *)
Lemma queen_get_neighbors_agrees (h : gmap loc obj) (self : loc)
    (q : Queen.QueenState) :
  queen_at h self q ->
  exists out h',
    queen_get_neighbors self h = (out, h') /\ queen_at h' self q /\
    neighbors_agree h' (Queen.get_neighbors q) out.
Proof.
  intros Hq. pose proof Hq as (c & Hself & Hc).
  unfold queen_get_neighbors, Queen.get_neighbors.
  unfold bind at 1. rewrite (read_queen_at h self _ c Hself).
  destruct (for_each_h_agrees self q (range (Queen.size q))
              (Queen.row_body q) (queen_row_body self)) with (h := h)
    (acc_l := @nil loc) (acc_q := @nil Queen.QueenState)
    as (out & h' & E & Hsub & Hag); [|done|constructor|].
  - intros row h1 al aq. apply queen_row_body_agrees.
  - exists out, h'. split_and!; [done|by eapply queen_at_weaken|done].
Qed.
End Agreement.

(** ** Queens: placing and reading queens *)

Lemma getitem_out_of_range {X : Type} (l : list X) (i : Z) :
  i < - Z.of_nat (length l) \/ Z.of_nat (length l) <= i ->
  getitem l i = Raise IndexError.
Proof.
  intros Hi. unfold getitem.
  destruct (i <? 0) eqn:E.
  - apply Z.ltb_lt in E.
    destruct (Z.leb_spec 0 (i + Z.of_nat (length l))); simpl; [lia|done].
  - apply Z.ltb_ge in E.
    destruct (Z.leb_spec 0 i); simpl; [|done].
    destruct (Z.ltb_spec i (Z.of_nat (length l))); [lia|done].
Qed.

Lemma getitem_negative {X : Type} (l : list X) (i : Z) :
  - Z.of_nat (length l) <= i < 0 ->
  getitem l i = getitem l (i + Z.of_nat (length l)).
Proof.
  intros Hi. unfold getitem.
  destruct (Z.ltb_spec i 0); [|lia].
  destruct (Z.ltb_spec (i + Z.of_nat (length l)) 0); [lia|]. done.
Qed.

(** X1: [get_queen_position] accepts the rows [-N .. N-1] of a state with [N]
    column entries: a row in [0, N) gives the row's column, or [None] when it
    is [-1]; a negative row down to [-N] reads from the end, as Python's
    indexing does; any other row raises [IndexError]. *)
Theorem get_queen_position_bounds (q : Queen.QueenState) (row : Z) :
  let N := Z.of_nat (length (Queen.queen_cols q)) in
  (0 <= row < N ->
     exists c, Queen.queen_cols q !! Z.to_nat row = Some c /\
       Queen.get_queen_position q row =
         Ok (if decide (c = -1) then None else Some c)) /\
  (- N <= row < 0 ->
     Queen.get_queen_position q row = Queen.get_queen_position q (row + N)) /\
  (row < - N \/ N <= row ->
     Queen.get_queen_position q row = Raise IndexError).
Proof.
  intros N. split_and!.
  - intros Hrow.
    destruct (getitem_in_range (Queen.queen_cols q) row Hrow) as (c & Eg & El).
    exists c. split; [done|]. unfold Queen.get_queen_position. rewrite Eg.
    simpl. destruct (Z.eqb_spec c (-1)); by case_decide.
  - intros Hrow. unfold Queen.get_queen_position.
    by rewrite getitem_negative.
  - intros Hrow. unfold Queen.get_queen_position.
    by rewrite getitem_out_of_range.
Qed.

Lemma get_queen_position_bounds_witness :
  Queen.get_queen_position (Queen.mkQueen 4 [1; 3; 0; 2]) (-1) = Ok (Some 2) /\
  Queen.get_queen_position (Queen.mkQueen 4 [1; 3; 0; 2]) 4 = Raise IndexError.
Proof.
  destruct (get_queen_position_bounds (Queen.mkQueen 4 [1; 3; 0; 2]) (-1))
    as (_ & Hneg & _).
  destruct (get_queen_position_bounds (Queen.mkQueen 4 [1; 3; 0; 2]) 4)
    as (_ & _ & Hout).
  split.
  - rewrite Hneg by (simpl; lia). reflexivity.
  - apply Hout. simpl. lia.
Defined.

(** X2: on a state with one column entry per row, [place_queen(row, col)]
    with both arguments in [0, size) returns [True] and stores the queen:
    [get_queen_position(row)] then gives [col], every other row reads as
    before, and the state keeps its size. With an argument outside
    [0, size) it returns [False] and changes nothing. *)
Theorem place_queen_then_get (q : Queen.QueenState) (row col : Z) :
  Queen.well_formed q ->
  (0 <= row < Queen.size q /\ 0 <= col < Queen.size q ->
     exists q', Queen.place_queen q row col = Ok (q', true) /\
       Queen.well_formed q' /\ Queen.size q' = Queen.size q /\
       Queen.get_queen_position q' row = Ok (Some col) /\
       forall r, r <> row -> 0 <= r < Queen.size q ->
         Queen.get_queen_position q' r = Queen.get_queen_position q r) /\
  (~ (0 <= row < Queen.size q /\ 0 <= col < Queen.size q) ->
     Queen.place_queen q row col = Ok (q, false)).
Proof.
  intros Hwf. red in Hwf. split.
  - intros [Hrow Hcol]. unfold Queen.place_queen.
    replace ((0 <=? row) && (row <? Queen.size q) && (0 <=? col) &&
             (col <? Queen.size q)) with true.
    2:{ symmetry. repeat (apply andb_true_iff; split);
          (apply Z.leb_le || apply Z.ltb_lt); lia. }
    simpl. rewrite setitem_in_range by lia. simpl.
    eexists. split; [done|]. split_and!.
    + red. simpl. by rewrite length_insert.
    + done.
    + unfold Queen.get_queen_position. simpl.
      rewrite (getitem_nonneg _ row col); [|lia|].
      * simpl. destruct (Z.eqb_spec col (-1)); [lia|done].
      * apply list_lookup_insert_eq. lia.
    + intros r Hr Hrange. unfold Queen.get_queen_position. simpl.
      destruct (getitem_in_range (Queen.queen_cols q) r) as (c & Eg & El);
        [lia|].
      rewrite Eg. rewrite (getitem_nonneg _ r c); [done|lia|].
      rewrite list_lookup_insert_ne; [done|]. intros E. apply Hr.
      apply (f_equal Z.of_nat) in E. lia.
  - intros Hout. unfold Queen.place_queen.
    destruct (_ && _) eqn:E; [|done]. exfalso. apply Hout.
    apply andb_true_iff in E as [E H4]. apply andb_true_iff in E as [E H3].
    apply andb_true_iff in E as [H1 H2].
    apply Z.leb_le in H1, H3. apply Z.ltb_lt in H2, H4. lia.
Qed.

Lemma place_queen_then_get_witness :
  exists q', Queen.place_queen (Queen.init 4) 2 3 = Ok (q', true) /\
             Queen.get_queen_position q' 2 = Ok (Some 3).
Proof.
  destruct (place_queen_then_get (Queen.init 4) 2 3) as [Hin _];
    [reflexivity|].
  destruct Hin as (q' & E & _ & _ & Hget & _); [simpl; lia|].
  exists q'. split; [exact E|exact Hget].
Defined.

(** ** Queens: attacks *)

Lemma is_valid_from_spec (q : Queen.QueenState) (row col : Z) (todo : list Z) :
  (forall r, r ∈ todo -> 0 <= r < Z.of_nat (length (Queen.queen_cols q))) ->
  exists b, Queen.is_valid_from q row col todo = Ok b /\
    (b = true <->
     forall r c, r ∈ todo -> Queen.queen_cols q !! Z.to_nat r = Some c ->
       c <> -1 -> r <> row ->
       c <> col /\ Z.abs (row - r) <> Z.abs (col - c)).
Proof.
  induction todo as [|r todo IH]; intros Hin; simpl.
  - exists true. split; [done|]. split; [|done].
    intros _ r c Hr. by apply not_elem_of_nil in Hr.
  - destruct (getitem_in_range (Queen.queen_cols q) r) as (c & -> & Hc);
      [apply Hin; by left|].
    destruct IH as (b & Eb & Hb); [intros x Hx; apply Hin; by right|].
    py_simpl.
    destruct ((c =? -1) || (r =? row)) eqn:Eskip.
    + exists b. split; [done|]. rewrite Hb. split.
      * intros Hall r' c' Hr'. apply elem_of_cons in Hr' as [->|Hr'];
          [|by apply Hall].
        intros Hc' Hne1 Hne2. rewrite Hc in Hc'. injection Hc' as <-.
        apply orb_true_iff in Eskip as [E|E]; apply Z.eqb_eq in E; done.
      * intros Hall r' c' Hr'. apply Hall. by right.
    + apply orb_false_iff in Eskip as [E1 E2].
      apply Z.eqb_neq in E1, E2.
      destruct ((col =? c) || (Z.abs (row - r) =? Z.abs (col - c))) eqn:Eatt.
      * exists false. split; [done|]. split; [done|]. intros Hall.
        destruct (Hall r c) as [Hn1 Hn2]; [by left|done|done|done|].
        apply orb_true_iff in Eatt as [E|E]; apply Z.eqb_eq in E; lia.
      * apply orb_false_iff in Eatt as [E3 E4]. apply Z.eqb_neq in E3, E4.
        exists b. split; [done|]. rewrite Hb. split.
        -- intros Hall r' c' Hr'. apply elem_of_cons in Hr' as [->|Hr'];
             [|by apply Hall].
           intros Hc' _ _. rewrite Hc in Hc'. injection Hc' as <-.
           split; [lia|done].
        -- intros Hall r' c' Hr'. apply Hall. by right.
Qed.

(** X3: on a state with one column entry per row, [is_valid_position(row,
    col)] returns, and it returns [True] exactly when no queen placed on
    another row shares the column [col] or a diagonal with [(row, col)];
    rows without a queen and the row itself are not looked at. *)
Theorem is_valid_position_no_attacker (q : Queen.QueenState) (row col : Z) :
  Queen.well_formed q ->
  exists b, Queen.is_valid_position q row col = Ok b /\
    (b = true <->
     forall other_row c, 0 <= other_row < Queen.size q ->
       Queen.queen_cols q !! Z.to_nat other_row = Some c ->
       c <> -1 -> other_row <> row ->
       c <> col /\ Z.abs (row - other_row) <> Z.abs (col - c)).
Proof.
  intros Hwf. red in Hwf. unfold Queen.is_valid_position.
  destruct (is_valid_from_spec q row col (range (Queen.size q)))
    as (b & Eb & Hb).
  { intros r Hr. apply elem_of_seqZ in Hr. lia. }
  exists b. split; [done|]. rewrite Hb. split.
  - intros Hall r c Hr. apply Hall. apply elem_of_seqZ. lia.
  - intros Hall r c Hr. apply Hall. apply elem_of_seqZ in Hr. lia.
Qed.

Lemma is_valid_position_no_attacker_witness :
  Queen.is_valid_position (Queen.mkQueen 4 [1; -1; -1; -1]) 1 3 = Ok true /\
  Queen.is_valid_position (Queen.mkQueen 4 [1; -1; -1; -1]) 1 2 = Ok false.
Proof.
  destruct (is_valid_position_no_attacker (Queen.mkQueen 4 [1; -1; -1; -1]) 1 3)
    as (b & Eb & _); [reflexivity|].
  split; [|reflexivity]. rewrite Eb. f_equal.
  vm_compute in Eb. by injection Eb as <-.
Defined.

(** The conflicts counted for row [i] against the rows after it. *)
Lemma conflicts_body_zero_iff (q : Queen.QueenState) (i c0 : Z) :
  Queen.well_formed q -> 0 <= i < Queen.size q ->
  exists c1 ci, Queen.queen_cols q !! Z.to_nat i = Some ci /\
    Queen.conflicts_body q i c0 = Ok c1 /\ c0 <= c1 /\
    (c1 = c0 <->
     forall j cj, i < j < Queen.size q ->
       Queen.queen_cols q !! Z.to_nat j = Some cj ->
       Queen.attacks i j ci cj = false).
Proof.
  intros Hwf Hi. red in Hwf.
  destruct (lookup_lt_is_Some_2 (Queen.queen_cols q) (Z.to_nat i)) as [ci Hci];
    [lia|].
  unfold Queen.conflicts_body.
  destruct (for_each_total
    (fun pre c => c0 <= c /\
       (c = c0 <-> forall j cj, j ∈ pre ->
          Queen.queen_cols q !! Z.to_nat j = Some cj ->
          Queen.attacks i j ci cj = false))
    (range2 (i + 1) (Queen.size q)) (Queen.pair_body q i) c0)
    as (c1 & E1 & Hle & Hiff).
  - split; [lia|]. split; [|done]. intros _ j cj Hj.
    by apply not_elem_of_nil in Hj.
  - intros pre j post s1 Ej [Hle Hiff].
    apply seqZ_split_at in Ej as [-> Hj].
    set (j := i + 1 + Z.of_nat (length pre)) in *.
    destruct (lookup_lt_is_Some_2 (Queen.queen_cols q) (Z.to_nat j)) as [cj Hcj];
      [lia|].
    unfold Queen.pair_body.
    rewrite (getitem_nonneg _ i ci) by (lia || done).
    rewrite (getitem_nonneg _ j cj) by (lia || done). py_simpl.
    eexists. split; [done|].
    destruct (Queen.attacks i j ci cj) eqn:Ea.
    + split; [lia|]. split; [lia|]. intros Hall.
      rewrite (Hall j cj) in Ea; [done| |done].
      apply elem_of_app. right. by left.
    + split; [lia|]. rewrite Hiff. split.
      * intros Hall j' cj' Hj'. apply elem_of_app in Hj' as [Hj'|Hj'];
          [by apply Hall|].
        apply list_elem_of_singleton in Hj' as ->. intros Hc'.
        rewrite Hcj in Hc'. by injection Hc' as <-.
      * intros Hall j' cj' Hj'. apply Hall. apply elem_of_app. by left.
  - exists c1, ci. split; [done|]. split; [done|]. split; [done|].
    rewrite Hiff. unfold range2. split.
    + intros Hall j cj Hj. apply Hall. apply elem_of_seqZ. lia.
    + intros Hall j cj Hj. apply Hall. apply elem_of_seqZ in Hj. lia.
Qed.

Lemma queen_conflicts_zero_iff (q : Queen.QueenState) :
  Queen.well_formed q ->
  exists c, for_each (range (Queen.size q)) (Queen.conflicts_body q) 0 = Ok c /\
    (c = 0 <->
     forall i j ci cj, 0 <= i -> i < j -> j < Queen.size q ->
       Queen.queen_cols q !! Z.to_nat i = Some ci ->
       Queen.queen_cols q !! Z.to_nat j = Some cj ->
       Queen.attacks i j ci cj = false).
Proof.
  intros Hwf.
  destruct (for_each_total
    (fun pre c => 0 <= c /\
       (c = 0 <-> forall i j ci cj, i ∈ pre -> i < j -> j < Queen.size q ->
          Queen.queen_cols q !! Z.to_nat i = Some ci ->
          Queen.queen_cols q !! Z.to_nat j = Some cj ->
          Queen.attacks i j ci cj = false))
    (range (Queen.size q)) (Queen.conflicts_body q) 0)
    as (c & E & Hle & Hiff).
  - split; [lia|]. split; [|done]. intros _ i j ci cj Hi.
    by apply not_elem_of_nil in Hi.
  - intros pre i post s1 Ei [Hle Hiff].
    apply seqZ_split_at in Ei as [-> Hi].
    set (i := 0 + Z.of_nat (length pre)) in *.
    destruct (conflicts_body_zero_iff q i s1 Hwf) as (c1 & ci & Hci & E1 & Hle1 & Hiff1);
      [lia|].
    exists c1. split; [done|]. split; [lia|]. split.
    + intros ->. assert (s1 = 0) as -> by lia.
      intros i' j ci' cj Hi' Hlt Hj Hci' Hcj.
      apply elem_of_app in Hi' as [Hi'|Hi'].
      * by apply (proj1 Hiff eq_refl i' j).
      * apply list_elem_of_singleton in Hi' as ->.
        rewrite Hci in Hci'. injection Hci' as <-.
        apply (proj1 Hiff1 eq_refl j cj); [lia|done].
    + intros Hall. assert (s1 = 0) as ->.
      { apply Hiff. intros i' j ci' cj Hi'. apply Hall.
        apply elem_of_app. by left. }
      apply Hiff1. intros j cj Hj Hcj.
      apply (Hall i j ci cj); [|lia|lia|done|done].
      apply elem_of_app. right. by left.
  - exists c. split; [done|]. rewrite Hiff. split.
    + intros Hall i j ci cj Hi Hlt Hj. apply Hall; [|done|done].
      apply elem_of_seqZ. lia.
    + intros Hall i j ci cj Hi. apply Hall. apply elem_of_seqZ in Hi. lia.
Qed.

(** X4: on a state with one column entry per row, [is_goal] returns [True]
    exactly when no two rows hold the same column value or values on a
    common diagonal. *)
Theorem queen_is_goal_iff_no_attack (q : Queen.QueenState) :
  Queen.well_formed q ->
  (Queen.is_goal q = Ok true <->
   forall i j ci cj, 0 <= i -> i < j -> j < Queen.size q ->
     Queen.queen_cols q !! Z.to_nat i = Some ci ->
     Queen.queen_cols q !! Z.to_nat j = Some cj ->
     ci <> cj /\ Z.abs (i - j) <> Z.abs (ci - cj)).
Proof.
  intros Hwf. destruct (queen_conflicts_zero_iff q Hwf) as (c & Ec & Hiff).
  unfold Queen.is_goal, Queen.evaluate. rewrite Ec. py_simpl.
  split.
  - intros [= E]. apply Z.eqb_eq in E.
    intros i j ci cj Hi Hlt Hj Hci Hcj.
    assert (c = 0) as Hc by lia.
    pose proof (proj1 Hiff Hc i j ci cj Hi Hlt Hj Hci Hcj) as Ha.
    unfold Queen.attacks in Ha. apply orb_false_iff in Ha as [H1 H2].
    apply Z.eqb_neq in H1, H2. done.
  - intros Hall. f_equal. apply Z.eqb_eq.
    assert (c = 0) as ->; [|done]. apply Hiff.
    intros i j ci cj Hi Hlt Hj Hci Hcj.
    destruct (Hall i j ci cj Hi Hlt Hj Hci Hcj) as [H1 H2].
    unfold Queen.attacks. apply orb_false_iff.
    split; by apply Z.eqb_neq.
Qed.

Lemma queen_is_goal_iff_no_attack_witness :
  Queen.is_goal (Queen.mkQueen 4 [1; 3; 0; 2]) = Ok true.
Proof.
  apply (queen_is_goal_iff_no_attack (Queen.mkQueen 4 [1; 3; 0; 2])).
  - reflexivity.
  - simpl. intros i j ci cj Hi Hlt Hj.
    assert (i = 0 \/ i = 1 \/ i = 2) as [-> | [-> | ->]] by lia;
    assert (j = 1 \/ j = 2 \/ j = 3) as [-> | [-> | ->]] by lia;
    try lia; simpl; intros [= <-] [= <-]; lia.
Defined.

(** X5: on a state with a queen on every row (no entry is [-1]), [is_goal]
    returns [True] exactly when [is_valid_position] accepts every queen where
    it stands. *)
Theorem queen_goal_iff_all_valid (q : Queen.QueenState) :
  Queen.well_formed q -> Forall (fun c => c <> -1) (Queen.queen_cols q) ->
  (Queen.is_goal q = Ok true <->
   forall row c, 0 <= row < Queen.size q ->
     Queen.queen_cols q !! Z.to_nat row = Some c ->
     Queen.is_valid_position q row c = Ok true).
Proof.
  intros Hwf Hplaced. pose proof Hwf as Hlen. red in Hlen.
  destruct (queen_conflicts_zero_iff q Hwf) as (n & En & Hiff).
  assert (Queen.is_goal q = Ok true <-> n = 0) as ->.
  { unfold Queen.is_goal, Queen.evaluate. rewrite En. py_simpl. split.
    - intros [= E]. apply Z.eqb_eq in E. lia.
    - intros ->. done. }
  rewrite Hiff. rewrite Forall_forall in Hplaced.
  assert (Hval : forall row c,
    Queen.is_valid_position q row c = Ok true <->
    forall r c', 0 <= r < Queen.size q ->
      Queen.queen_cols q !! Z.to_nat r = Some c' -> c' <> -1 -> r <> row ->
      c' <> c /\ Z.abs (row - r) <> Z.abs (c - c')).
  { intros row c. unfold Queen.is_valid_position.
    destruct (is_valid_from_spec q row c (range (Queen.size q)))
      as (b & Eb & Hb).
    { intros r Hr. apply elem_of_seqZ in Hr. lia. }
    rewrite Eb. split.
    - intros [= ->]. intros r c' Hr. apply (proj1 Hb eq_refl).
      apply elem_of_seqZ. lia.
    - intros Hall. f_equal. apply Hb. intros r c' Hr. apply Hall.
      apply elem_of_seqZ in Hr. lia. }
  split.
  - intros Hno row c Hrow Hc. apply Hval. intros r c' Hr Hc' _ Hne.
    destruct (Z.lt_ge_cases r row) as [Hlt|Hge].
    + pose proof (Hno r row c' c ltac:(lia) Hlt ltac:(lia) Hc' Hc) as Ha.
      unfold Queen.attacks in Ha. apply orb_false_iff in Ha as [H1 H2].
      apply Z.eqb_neq in H1, H2. split; [done|]. lia.
    + pose proof (Hno row r c c' ltac:(lia) ltac:(lia) ltac:(lia) Hc Hc') as Ha.
      unfold Queen.attacks in Ha. apply orb_false_iff in Ha as [H1 H2].
      apply Z.eqb_neq in H1, H2. split; [lia|done].
  - intros Hall i j ci cj Hi Hlt Hj Hci Hcj.
    pose proof (proj1 (Hval i ci) (Hall i ci ltac:(lia) Hci) j cj
                  ltac:(lia) Hcj) as Hij.
    destruct Hij as [H1 H2].
    + apply Hplaced. by eapply list_elem_of_lookup_2.
    + lia.
    + unfold Queen.attacks. apply orb_false_iff.
      split; apply Z.eqb_neq; [lia|done].
Qed.

Lemma queen_goal_iff_all_valid_witness :
  Queen.is_valid_position (Queen.mkQueen 4 [1; 3; 0; 2]) 2 0 = Ok true.
Proof.
  apply (proj1 (queen_goal_iff_all_valid (Queen.mkQueen 4 [1; 3; 0; 2])
                  eq_refl ltac:(repeat constructor; lia)));
    [reflexivity|simpl; lia|reflexivity].
Defined.

(** ** Queens: the printed board, distinct neighbours, random states *)

(** X6: on a state with one column entry per row, each of them [-1] or a
    column of the board, [get_board] returns a [size] x [size] grid that
    holds ["Q"] at [(row, col)] exactly when the queen of [row] stands on
    [col], and ["."] everywhere else. *)
Theorem get_board_marks_queens (q : Queen.QueenState) :
  Queen.well_formed q ->
  Forall (fun c => c = -1 \/ 0 <= c < Queen.size q) (Queen.queen_cols q) ->
  exists board, Queen.get_board q = Ok board /\
    length board = Z.to_nat (Queen.size q) /\
    forall (r c : nat), (r < Z.to_nat (Queen.size q))%nat ->
      (c < Z.to_nat (Queen.size q))%nat ->
      exists line, board !! r = Some line /\
        length line = Z.to_nat (Queen.size q) /\
        line !! c = Some (if decide (Queen.queen_cols q !! r = Some (Z.of_nat c))
                          then "Q"%string else "."%string).
Proof.
  intros Hwf Hcols. red in Hwf. rewrite Forall_forall in Hcols.
  set (N := Z.to_nat (Queen.size q)).
  assert (length (Queen.queen_cols q) = N) as HN by (subst N; lia).
  unfold Queen.get_board. fold N.
  destruct (for_each_total
    (fun (pre : list (nat * Z)) (board : list (list string)) =>
       length board = N /\
       forall (r c : nat), (r < N)%nat -> (c < N)%nat ->
         exists line, board !! r = Some line /\ length line = N /\
           line !! c = Some (if decide ((r < length pre)%nat /\
                                        Queen.queen_cols q !! r = Some (Z.of_nat c))
                             then "Q"%string else "."%string))
    (imap (fun row col => (row, col)) (Queen.queen_cols q))
    Queen.board_body (replicate N (replicate N "."%string)))
    as (board & Eb & Hlen & Hcells).
  - split; [by rewrite length_replicate|]. intros r c Hr Hc.
    exists (replicate N "."%string). split_and!.
    + by apply lookup_replicate_2.
    + by rewrite length_replicate.
    + rewrite lookup_replicate_2 by done. simpl. done.
  - intros pre [k ck] post board0 Ex [Hlen Hcells].
    assert (Queen.queen_cols q !! k = Some ck /\ k = length pre) as [Hck ->].
    { pose proof (list_lookup_middle pre post (k, ck) (length pre) eq_refl) as Hm.
      rewrite <- Ex, list_lookup_imap in Hm.
      destruct (Queen.queen_cols q !! length pre) as [c0|] eqn:E0; [|done].
      simpl in Hm. injection Hm as <- <-. by split. }
    set (k := length pre) in *.
    assert (k < N)%nat as Hk by (apply lookup_lt_Some in Hck; lia).
    unfold Queen.board_body.
    destruct (Z.eqb_spec ck (-1)) as [->|Hne]; simpl.
    + exists board0. split; [done|]. split; [done|]. intros r c Hr Hc.
      destruct (Hcells r c Hr Hc) as (line & Hl & Hll & Hlc).
      exists line. split_and!; try done. rewrite Hlc. f_equal.
      rewrite length_app. simpl.
      repeat case_decide; try done.
      * exfalso. destruct H as [H1 H2]. apply H0. split; [lia|done].
      * exfalso. destruct H0 as [H1 H2]. apply H.
        split; [|done]. destruct (decide (r = k)) as [->|]; [|lia].
        rewrite Hck in H2. injection H2 as H2. lia.
    + assert (0 <= ck < Z.of_nat N) as Hrange.
      { destruct (Hcols ck); [by eapply list_elem_of_lookup_2|lia|lia]. }
      destruct (Hcells k (Z.to_nat ck) Hk ltac:(lia)) as (line & Hl & Hll & _).
      rewrite (getitem_nonneg board0 (Z.of_nat k) line)
        by (rewrite ?Nat2Z.id; done || lia).
      py_simpl. rewrite setitem_in_range by lia. py_simpl.
      rewrite setitem_in_range by lia. rewrite Nat2Z.id.
      eexists. split; [done|]. split; [by rewrite length_insert|].
      intros r c Hr Hc. rewrite length_app. simpl.
      destruct (decide (r = k)) as [->|Hrk].
      * exists (<[Z.to_nat ck := "Q"%string]> line). split_and!.
        -- apply list_lookup_insert_eq. lia.
        -- by rewrite length_insert.
        -- destruct (decide (c = Z.to_nat ck)) as [->|Hcc].
           ++ rewrite list_lookup_insert_eq by lia.
              rewrite decide_True; [done|]. split; [lia|].
              rewrite Hck. f_equal. lia.
           ++ rewrite list_lookup_insert_ne by done.
              destruct (Hcells k c Hk Hc) as (line' & Hl' & _ & Hlc').
              rewrite Hl in Hl'. injection Hl' as <-. rewrite Hlc'.
              f_equal. rewrite !decide_False; [done| |].
              ** intros [_ E]. rewrite Hck in E. injection E as E. lia.
              ** intros [? _]. lia.
      * destruct (Hcells r c Hr Hc) as (line' & Hl' & Hll' & Hlc').
        exists line'. split_and!.
        -- by rewrite list_lookup_insert_ne.
        -- done.
        -- rewrite Hlc'. f_equal.
           repeat case_decide; try done.
           ++ exfalso. destruct H as [H1 H2]. apply H0. split; [lia|done].
           ++ exfalso. destruct H0 as [H1 H2]. apply H. split; [lia|done].
  - exists board. split; [done|]. split; [done|]. intros r c Hr Hc.
    destruct (Hcells r c Hr Hc) as (line & Hl & Hll & Hlc).
    exists line. split_and!; try done. rewrite Hlc. f_equal.
    rewrite length_imap, HN.
    destruct (decide (Queen.queen_cols q !! r = Some (Z.of_nat c))) as [E|E].
    + rewrite decide_True; [done|]. by split.
    + rewrite decide_False; [done|]. by intros [_ ?].
Qed.

Lemma get_board_marks_queens_witness :
  exists board, Queen.get_board (Queen.mkQueen 3 [1; -1; 0]) = Ok board /\
    board = [["."; "Q"; "."]; ["."; "."; "."]; ["Q"; "."; "."]]%string.
Proof.
  destruct (get_board_marks_queens (Queen.mkQueen 3 [1; -1; 0]))
    as (board & E & _).
  - reflexivity.
  - simpl. repeat constructor; lia.
  - exists board. split; [exact E|]. vm_compute in E. by injection E as <-.
Defined.

(** X7: on a state with one column entry per row, the list that
    [get_neighbors] returns holds no state twice and never holds a state
    equal ([__eq__]) to the parent. *)
Theorem queen_neighbors_distinct (q : Queen.QueenState) :
  Queen.well_formed q ->
  exists ns, Queen.get_neighbors q = Ok ns /\ NoDup ns /\
    forall n, n ∈ ns -> Queen.eq n q = false.
Proof.
  intros Hwf. eexists. split; [by apply get_neighbors_spec|]. red in Hwf.
  split.
  - apply NoDup_bind; [| |apply NoDup_seqZ].
    + intros r1 r2 n Hr1 Hr2 Hn1 Hn2.
      apply elem_of_seqZ in Hr1, Hr2.
      destruct (Queen.queen_cols q !! Z.to_nat r1) as [c1|] eqn:E1;
        [|by apply not_elem_of_nil in Hn1].
      destruct (Queen.queen_cols q !! Z.to_nat r2) as [c2|] eqn:E2;
        [|by apply not_elem_of_nil in Hn2].
      apply list_elem_of_fmap in Hn1 as (n1 & -> & Hn1).
      apply list_elem_of_fmap in Hn2 as (n2 & [= Hcols] & Hn2).
      apply list_elem_of_filter in Hn1 as [Hne1 _].
      destruct (decide (r1 = r2)) as [|Hne]; [done|]. exfalso.
      apply (f_equal (fun l => l !! Z.to_nat r1)) in Hcols.
      rewrite list_lookup_insert_eq in Hcols by lia.
      rewrite list_lookup_insert_ne in Hcols by lia.
      rewrite E1 in Hcols. by injection Hcols.
    + intros r Hr. apply elem_of_seqZ in Hr.
      destruct (Queen.queen_cols q !! Z.to_nat r) as [c|]; [|constructor].
      apply NoDup_fmap_2_strong; [|apply NoDup_filter, NoDup_seqZ].
      intros n1 n2 _ _ [= Hcols].
      apply (f_equal (fun l => l !! Z.to_nat r)) in Hcols.
      rewrite !list_lookup_insert_eq in Hcols by lia. by injection Hcols.
  - intros n Hn. apply list_elem_of_bind in Hn as (r & Hn & Hr).
    apply elem_of_seqZ in Hr.
    destruct (Queen.queen_cols q !! Z.to_nat r) as [c|] eqn:E;
      [|by apply not_elem_of_nil in Hn].
    apply list_elem_of_fmap in Hn as (nc & -> & Hnc).
    apply list_elem_of_filter in Hnc as [Hne _].
    unfold Queen.eq. simpl. apply bool_decide_eq_false. intros Hcols.
    apply (f_equal (fun l => l !! Z.to_nat r)) in Hcols.
    rewrite list_lookup_insert_eq in Hcols by lia.
    rewrite E in Hcols. by injection Hcols.
Qed.

Lemma queen_neighbors_distinct_witness :
  exists ns, Queen.get_neighbors (Queen.mkQueen 4 [1; 3; 0; 2]) = Ok ns /\
             NoDup ns.
Proof.
  destruct (queen_neighbors_distinct (Queen.mkQueen 4 [1; 3; 0; 2]))
    as (ns & E & Hnd & _); [reflexivity|].
  exists ns. split; [exact E|exact Hnd].
Defined.

Section RandomQueens.
Import Generate.
Context {R : Type} `{RandInt R}.

Lemma random_queen_loop (rows : list Z) (state : Queen.QueenState) (r : R) :
  (forall a b r0, a <= b -> a <= (randint a b r0).1 <= b) ->
  Queen.well_formed state -> 0 < Queen.size state ->
  (forall row, row ∈ rows -> 0 <= row < Queen.size state) ->
  exists state' r',
    for_each rows random_queen_body (state, r) = Ok (state', r') /\
    Queen.well_formed state' /\ Queen.size state' = Queen.size state /\
    forall k c, Queen.queen_cols state' !! k = Some c ->
      (Z.of_nat k ∈ rows /\ 0 <= c < Queen.size state) \/
      ((Z.of_nat k ∉ rows) /\ Queen.queen_cols state !! k = Some c).
Proof.
  intros Hrand. revert state r.
  induction rows as [|row rows IH]; intros state r Hwf Hpos Hrows.
  - exists state, r. split_and!; try done. intros k c Hk. right.
    split; [apply not_elem_of_nil|done].
  - simpl. unfold random_queen_body at 1.
    pose proof (Hrand 0 (Queen.size state - 1) r ltac:(lia)) as Hcol.
    destruct (randint 0 (Queen.size state - 1) r) as [col r1]. simpl in Hcol.
    assert (0 <= row < Queen.size state) as Hrow by (apply Hrows; by left).
    pose proof Hwf as Hlen. red in Hlen.
    unfold Queen.place_queen.
    replace ((0 <=? row) && (row <? Queen.size state) && (0 <=? col) &&
             (col <? Queen.size state)) with true.
    2:{ symmetry. repeat (apply andb_true_iff; split);
          (apply Z.leb_le || apply Z.ltb_lt); lia. }
    simpl negb. cbn iota. rewrite setitem_in_range by lia. py_simpl.
    cbn [fst].
    set (state1 := {| Queen.size := Queen.size state;
                      Queen.queen_cols := <[Z.to_nat row := col]>
                                            (Queen.queen_cols state) |}).
    destruct (IH state1 r1) as (state' & r' & E & Hwf' & Hsz' & Hcols').
    + red. simpl. by rewrite length_insert.
    + done.
    + intros x Hx. simpl. apply Hrows. by right.
    + exists state', r'. split; [exact E|]. split; [done|].
      split; [by rewrite Hsz'|]. intros k c Hk.
      destruct (Hcols' k c Hk) as [[Hin Hc]|[Hnin Hc]].
      * left. split; [by right|done].
      * simpl in Hc. destruct (decide (k = Z.to_nat row)) as [->|Hne].
        -- rewrite list_lookup_insert_eq in Hc by lia. injection Hc as <-.
           left. split; [|lia]. rewrite Z2Nat.id by lia. by left.
        -- rewrite list_lookup_insert_ne in Hc by done. right.
           split; [|done]. intros Hin.
           apply elem_of_cons in Hin as [Hin|Hin]; [lia|done].
Qed.

(** X8: whatever state asks for it, [QueenHillClimbing.generate_random_state]
    (and [QueenState.generate_random_state]) returns a board of the default
    size 8 with one column entry per row, each the column [randint] drew for
    it, hence in [0, 8) when [randint(a, b)] stays within [a, b]: every row
    has its queen on the board. *)
Theorem queen_generate_random_state_placed (r : R) :
  (forall a b r0, a <= b -> a <= (randint a b r0).1 <= b) ->
  exists state r',
    queen_hc_generate_random_state r = Ok (state, r') /\
    queen_generate_random_state r = Ok (state, r') /\
    Queen.size state = 8 /\ Queen.well_formed state /\ Queen.all_placed state.
Proof.
  intros Hrand. unfold queen_hc_generate_random_state, queen_generate_random_state.
  destruct (random_queen_loop (range (Queen.size (Queen.init 8)))
              (Queen.init 8) r Hrand) as (state & r' & E & Hwf & Hsz & Hcols).
  - reflexivity.
  - simpl. lia.
  - intros row Hrow. by apply elem_of_seqZ in Hrow.
  - rewrite E. py_simpl. exists state, r'. simpl in Hsz.
    destruct state as [sz cols]. simpl in *. subst sz.
    split_and!; try done.
    red. simpl. apply Forall_forall. intros c Hc.
    apply list_elem_of_lookup_1 in Hc as [k Hk].
    destruct (Hcols k c Hk) as [[_ Hc]|[Hnin _]]; [done|].
    exfalso. apply Hnin. apply elem_of_seqZ.
    apply lookup_lt_Some in Hk. red in Hwf. simpl in Hwf. lia.
Qed.
End RandomQueens.

Lemma scripted_randint_in_range (a b : Z) (r : list nat) :
  a <= b -> a <= (Generate.randint a b r).1 <= b.
Proof.
  intros Hab. simpl.
  pose proof (Z.mod_pos_bound (Z.of_nat (hd 0%nat r)) (b - a + 1)). lia.
Qed.

Lemma queen_generate_random_state_placed_witness :
  exists state r',
    Generate.queen_hc_generate_random_state [3; 1; 4; 1; 5; 9; 2; 6]%nat =
      Ok (state, r') /\
    Queen.queen_cols state = [3; 1; 4; 1; 5; 1; 2; 6] /\
    Queen.all_placed state.
Proof.
  destruct (queen_generate_random_state_placed [3; 1; 4; 1; 5; 9; 2; 6]%nat
              scripted_randint_in_range)
    as (state & r' & E & _ & _ & _ & Hall).
  exists state, r'. split; [exact E|]. split; [|exact Hall].
  vm_compute in E. by injection E as <- <-.
Defined.

(** ** Tile puzzle: moves *)

Lemma set_cell_spec (b : list (list Z)) (i j v : Z) :
  Puzzle.is_3x3 b -> 0 <= i < 3 -> 0 <= j < 3 ->
  exists b', Puzzle.set_cell b i j v = Ok b' /\ Puzzle.is_3x3 b' /\
    forall i' j', 0 <= i' < 3 -> 0 <= j' < 3 ->
      Puzzle.cell b' i' j' =
      if decide (i' = i /\ j' = j) then Ok v else Puzzle.cell b i' j'.
Proof.
  intros Hb Hi Hj.
  destruct (cell_3x3 b i j Hb Hi Hj) as (row & w & Hrow & Hw & _).
  pose proof Hb as [Hlen Hrows].
  assert (length row = 3%nat) as Hlrow.
  { rewrite Forall_forall in Hrows. apply Hrows.
    eapply list_elem_of_lookup_2. exact Hrow. }
  exists (<[Z.to_nat i := <[Z.to_nat j := v]> row]> b).
  unfold Puzzle.set_cell.
  rewrite (getitem_nonneg b i row) by (done || lia). py_simpl.
  rewrite setitem_in_range by lia. py_simpl.
  rewrite setitem_in_range by lia. split; [done|]. split.
  - split; [by rewrite length_insert|].
    apply Forall_insert; [done|]. by rewrite length_insert.
  - intros i' j' Hi' Hj'. unfold Puzzle.cell.
    destruct (decide (i' = i)) as [->|Hne].
    + rewrite (getitem_nonneg _ i (<[Z.to_nat j := v]> row));
        [|lia|apply list_lookup_insert_eq; lia]. py_simpl.
      rewrite (getitem_nonneg b i row) by (done || lia). py_simpl.
      destruct (decide (j' = j)) as [->|Hnej].
      * rewrite decide_True by done.
        apply getitem_nonneg; [lia|]. apply list_lookup_insert_eq. lia.
      * rewrite decide_False by tauto.
        destruct (getitem_in_range row j') as (x & Ex & Hx); [lia|].
        rewrite Ex. apply getitem_nonneg; [lia|].
        rewrite list_lookup_insert_ne; [done|]. lia.
    + rewrite decide_False by tauto.
      destruct (getitem_in_range b i') as (row' & Er & Hr); [lia|].
      rewrite Er. rewrite (getitem_nonneg _ i' row'); [done|lia|].
      rewrite list_lookup_insert_ne; [done|]. lia.
Qed.

Lemma board_ext (b1 b2 : list (list Z)) :
  Puzzle.is_3x3 b1 -> Puzzle.is_3x3 b2 ->
  (forall i j, 0 <= i < 3 -> 0 <= j < 3 -> Puzzle.cell b1 i j = Puzzle.cell b2 i j) ->
  b1 = b2.
Proof.
  intros H1 H2 Hcells. apply list_eq_same_length with 3%nat;
    [by destruct H2|by destruct H1|].
  intros i r1 r2 Hi Hr1 Hr2.
  assert (length r1 = 3%nat) as Hl1.
  { destruct H1 as [_ H1]. rewrite Forall_forall in H1. apply H1.
    by eapply list_elem_of_lookup_2. }
  assert (length r2 = 3%nat) as Hl2.
  { destruct H2 as [_ H2]. rewrite Forall_forall in H2. apply H2.
    by eapply list_elem_of_lookup_2. }
  apply list_eq_same_length with 3%nat; [done|done|].
  intros j x y Hj Hx Hy.
  specialize (Hcells (Z.of_nat i) (Z.of_nat j) ltac:(lia) ltac:(lia)).
  unfold Puzzle.cell in Hcells.
  rewrite (getitem_nonneg b1 _ r1) in Hcells by (rewrite ?Nat2Z.id; done || lia).
  rewrite (getitem_nonneg b2 _ r2) in Hcells by (rewrite ?Nat2Z.id; done || lia).
  simpl in Hcells.
  rewrite (getitem_nonneg r1 _ x) in Hcells by (rewrite ?Nat2Z.id; done || lia).
  rewrite (getitem_nonneg r2 _ y) in Hcells by (rewrite ?Nat2Z.id; done || lia).
  by injection Hcells.
Qed.

(** The blank of a board that holds 0 in one cell only. *)
Lemma init_unique_blank (b : list (list Z)) (x y : Z) :
  Puzzle.is_3x3 b -> 0 <= x < 3 -> 0 <= y < 3 ->
  (forall i j, 0 <= i < 3 -> 0 <= j < 3 ->
     Puzzle.cell b i j = Ok 0 <-> (i = x /\ j = y)) ->
  Puzzle.init b = Ok (Puzzle.mkPuzzle b 3 (x, y)).
Proof.
  intros Hb Hx Hy Hzero.
  destruct (init_with_blank b x y Hb Hx Hy) as (p & E & Hp1 & Hp2 & Hp0);
    [by apply Hzero|].
  rewrite E. destruct p as [px py]. simpl in *.
  apply Hzero in Hp0 as [-> ->]; done.
Qed.

Lemma possible_moves_elem (s : Puzzle.EightPuzzleState) (d : string) :
  0 <= (Puzzle.blank_pos s).1 < 3 -> 0 <= (Puzzle.blank_pos s).2 < 3 ->
  d ∈ Puzzle.get_possible_moves s <->
  exists dx dy, Puzzle.moves !! d = Some (dx, dy) /\
    0 <= (Puzzle.blank_pos s).1 + dx < 3 /\ 0 <= (Puzzle.blank_pos s).2 + dy < 3.
Proof.
  unfold Puzzle.get_possible_moves. destruct (Puzzle.blank_pos s) as [x y].
  simpl. intros Hx Hy.
  destruct (Z.ltb_spec 0 x), (Z.ltb_spec x 2), (Z.ltb_spec 0 y),
    (Z.ltb_spec y 2); simpl; (split;
    [ intros Hin;
      repeat (apply elem_of_cons in Hin as [->|Hin];
              [eexists _, _; split; [reflexivity|lia]|]);
      by apply not_elem_of_nil in Hin
    | intros (dx & dy & Hm & Hb1 & Hb2);
      apply elem_of_list_to_map_2 in Hm;
      repeat (apply elem_of_cons in Hm as [[= -> -> ->]|Hm];
              [first [by exfalso; lia | by repeat constructor]|]);
      by apply not_elem_of_nil in Hm ]).
Qed.

(** What [move] builds when the target cell is on the board. *)
Lemma move_swap (b : list (list Z)) (s : Puzzle.EightPuzzleState)
    (d : string) (dx dy : Z) :
  Puzzle.is_3x3 b -> Puzzle.init b = Ok s ->
  Puzzle.moves !! d = Some (dx, dy) ->
  0 <= (Puzzle.blank_pos s).1 + dx < 3 ->
  0 <= (Puzzle.blank_pos s).2 + dy < 3 ->
  exists v s',
    Puzzle.cell b ((Puzzle.blank_pos s).1 + dx) ((Puzzle.blank_pos s).2 + dy) = Ok v /\
    Puzzle.move s d = Ok (Some s') /\
    Puzzle.is_3x3 (Puzzle.board s') /\
    Puzzle.init (Puzzle.board s') = Ok s' /\
    forall i j, 0 <= i < 3 -> 0 <= j < 3 ->
      Puzzle.cell (Puzzle.board s') i j =
      if decide (i = (Puzzle.blank_pos s).1 + dx /\ j = (Puzzle.blank_pos s).2 + dy)
      then Ok 0
      else if decide (i = (Puzzle.blank_pos s).1 /\ j = (Puzzle.blank_pos s).2)
           then Ok v else Puzzle.cell b i j.
Proof.
  intros Hb Hs Hd Hnx Hny.
  destruct (init_Ok_inv b s Hb Hs) as (Eb & Esz & Hx & Hy & E0).
  unfold Puzzle.move. rewrite Hd, Esz, Eb. simpl.
  set (nx := (Puzzle.blank_pos s).1 + dx) in *.
  set (ny := (Puzzle.blank_pos s).2 + dy) in *.
  replace ((0 <=? nx) && (nx <? 3) && (0 <=? ny) && (ny <? 3)) with true.
  2:{ symmetry. repeat (apply andb_true_iff; split);
        (apply Z.leb_le || apply Z.ltb_lt); lia. }
  destruct (cell_3x3 b nx ny Hb) as (row & v & _ & _ & Ev); [lia|lia|].
  rewrite Ev. py_simpl. exists v.
  destruct (set_cell_spec b (Puzzle.blank_pos s).1 (Puzzle.blank_pos s).2 v Hb)
    as (b1 & -> & Hb1 & Hc1); [lia|lia|]. py_simpl.
  destruct (set_cell_spec b1 nx ny 0 Hb1) as (b2 & -> & Hb2 & Hc2); [lia|lia|].
  py_simpl.
  destruct (init_with_blank b2 nx ny Hb2) as (p & Ep & _); [lia|lia| |].
  { rewrite Hc2 by lia. by rewrite decide_True. }
  rewrite Ep. py_simpl. eexists. split_and!; [done|done|done|done|].
  intros i j Hi Hj. simpl. rewrite Hc2 by done.
  destruct (decide (i = nx /\ j = ny)); [done|]. by apply Hc1.
Qed.

(** ** Tile puzzle: further properties of the moves *)

(** X9: on a state built from a 3 x 3 board, [get_possible_moves] lists
    exactly the directions for which [move] returns a state: a listed
    direction never gives [None], and a direction that is not listed (or is
    no direction at all) always does. *)
Theorem possible_moves_iff_move_returns_state
    (b : list (list Z)) (s : Puzzle.EightPuzzleState) (d : string) :
  Puzzle.is_3x3 b -> Puzzle.init b = Ok s ->
  (d ∈ Puzzle.get_possible_moves s <-> exists s', Puzzle.move s d = Ok (Some s')) /\
  (d ∉ Puzzle.get_possible_moves s <-> Puzzle.move s d = Ok None).
Proof.
  intros Hb Hs.
  destruct (init_Ok_inv b s Hb Hs) as (Eb & Esz & Hx & Hy & E0).
  assert (d ∈ Puzzle.get_possible_moves s <->
          exists s', Puzzle.move s d = Ok (Some s')) as Hiff.
  { rewrite possible_moves_elem by done. split.
    - intros (dx & dy & Hd & Hnx & Hny).
      destruct (move_swap b s d dx dy Hb Hs Hd Hnx Hny)
        as (v & s' & _ & E & _). by exists s'.
    - intros (s' & E). unfold Puzzle.move in E.
      destruct (Puzzle.moves !! d) as [[dx dy]|]; [|done].
      exists dx, dy. split; [done|]. rewrite Esz in E.
      destruct ((0 <=? (Puzzle.blank_pos s).1 + dx) &&
                ((Puzzle.blank_pos s).1 + dx <? 3) &&
                (0 <=? (Puzzle.blank_pos s).2 + dy) &&
                ((Puzzle.blank_pos s).2 + dy <? 3)) eqn:Hin; [|done].
      apply andb_true_iff in Hin as [Hin Hny2].
      apply andb_true_iff in Hin as [Hin Hny1].
      apply andb_true_iff in Hin as [Hnx1 Hnx2].
      apply Z.leb_le in Hnx1, Hny1. apply Z.ltb_lt in Hnx2, Hny2. lia. }
  split; [exact Hiff|]. rewrite Hiff.
  destruct (move_total b s d Hb Hs) as ([s'|] & E & _); rewrite E.
  - split; [|done]. intros Hn. destruct Hn. by exists s'.
  - split; [done|]. intros _ (s' & ?). done.
Qed.

Lemma possible_moves_iff_move_returns_state_witness :
  exists s,
    Puzzle.init [[1; 2; 3]; [4; 5; 6]; [7; 8; 0]] = Ok s /\
    Puzzle.get_possible_moves s = ["上"; "左"]%string /\
    (exists s', Puzzle.move s "上" = Ok (Some s')) /\
    Puzzle.move s "下" = Ok None.
Proof.
  eexists. split; [reflexivity|]. split; [reflexivity|].
  set (b := [[1; 2; 3]; [4; 5; 6]; [7; 8; 0]]).
  assert (Puzzle.is_3x3 b) as Hb by (split; [done|by repeat constructor]).
  split.
  - apply (possible_moves_iff_move_returns_state b _ "上" Hb eq_refl).
    by repeat constructor.
  - apply (possible_moves_iff_move_returns_state b _ "下" Hb eq_refl).
    unfold Puzzle.get_possible_moves. simpl.
    rewrite !not_elem_of_cons. split_and!; [done|done|apply not_elem_of_nil].
Defined.

(** A move on a board with one blank: the state it returns, in full. *)
Lemma move_unique_blank (b : list (list Z)) (s : Puzzle.EightPuzzleState)
    (d : string) (dx dy : Z) :
  Puzzle.is_3x3 b -> Puzzle.init b = Ok s ->
  Puzzle.only_blank b (Puzzle.blank_pos s).1 (Puzzle.blank_pos s).2 ->
  Puzzle.moves !! d = Some (dx, dy) ->
  0 <= (Puzzle.blank_pos s).1 + dx < 3 ->
  0 <= (Puzzle.blank_pos s).2 + dy < 3 ->
  exists v b',
    Puzzle.cell b ((Puzzle.blank_pos s).1 + dx) ((Puzzle.blank_pos s).2 + dy) = Ok v /\
    v <> 0 /\
    Puzzle.move s d =
      Ok (Some (Puzzle.mkPuzzle b' 3
                  ((Puzzle.blank_pos s).1 + dx, (Puzzle.blank_pos s).2 + dy))) /\
    Puzzle.is_3x3 b' /\
    Puzzle.init b' =
      Ok (Puzzle.mkPuzzle b' 3
            ((Puzzle.blank_pos s).1 + dx, (Puzzle.blank_pos s).2 + dy)) /\
    Puzzle.only_blank b' ((Puzzle.blank_pos s).1 + dx) ((Puzzle.blank_pos s).2 + dy) /\
    forall i j, 0 <= i < 3 -> 0 <= j < 3 ->
      Puzzle.cell b' i j =
      if decide (i = (Puzzle.blank_pos s).1 + dx /\ j = (Puzzle.blank_pos s).2 + dy)
      then Ok 0
      else if decide (i = (Puzzle.blank_pos s).1 /\ j = (Puzzle.blank_pos s).2)
           then Ok v else Puzzle.cell b i j.
Proof.
  intros Hb Hs Hob Hd Hnx Hny.
  destruct (init_Ok_inv b s Hb Hs) as (Eb & Esz & Hx & Hy & E0).
  destruct (move_swap b s d dx dy Hb Hs Hd Hnx Hny)
    as (v & s' & Ev & Em & Hb' & Hs' & Hc).
  pose proof (moves_lookup_Some d (dx, dy) Hd) as Hdir.
  assert (v <> 0) as Hv.
  { intros ->. apply Hob in Ev; [|lia|lia].
    destruct Hdir as [[=]|[[=]|[[=]|[=]]]]; lia. }
  assert (Puzzle.only_blank (Puzzle.board s')
            ((Puzzle.blank_pos s).1 + dx) ((Puzzle.blank_pos s).2 + dy)) as Hob'.
  { intros i j Hi Hj E. rewrite Hc in E by done.
    destruct (decide (i = _ /\ j = _)) as [|Hn1]; [done|].
    destruct (decide (i = _ /\ j = _)) as [|Hn2]; [by injection E|].
    destruct Hn2. by apply Hob. }
  assert (Puzzle.init (Puzzle.board s') =
          Ok (Puzzle.mkPuzzle (Puzzle.board s') 3
                ((Puzzle.blank_pos s).1 + dx, (Puzzle.blank_pos s).2 + dy))) as Ei.
  { apply init_unique_blank; [done|lia|lia|].
    intros i j Hi Hj. split; [by apply Hob'|]. intros [-> ->].
    rewrite Hc by lia. by rewrite decide_True. }
  exists v, (Puzzle.board s'). split_and!; try done.
  rewrite Em. rewrite Hs' in Ei. by injection Ei as ->.
Qed.

(** X10: on a board whose only 0 is the blank, a move towards a cell of the
    board swaps the blank with the tile there and changes no other cell; the
    tile is not 0, the new state's blank is the target cell, and the new board
    again holds 0 in that cell only. *)
Theorem move_swaps_blank_with_target
    (b : list (list Z)) (s : Puzzle.EightPuzzleState) (d : string) (dx dy : Z) :
  Puzzle.is_3x3 b -> Puzzle.init b = Ok s ->
  Puzzle.only_blank b (Puzzle.blank_pos s).1 (Puzzle.blank_pos s).2 ->
  Puzzle.moves !! d = Some (dx, dy) ->
  0 <= (Puzzle.blank_pos s).1 + dx < 3 ->
  0 <= (Puzzle.blank_pos s).2 + dy < 3 ->
  exists v s',
    Puzzle.move s d = Ok (Some s') /\
    Puzzle.cell b ((Puzzle.blank_pos s).1 + dx) ((Puzzle.blank_pos s).2 + dy) = Ok v /\
    v <> 0 /\
    Puzzle.blank_pos s' =
      ((Puzzle.blank_pos s).1 + dx, (Puzzle.blank_pos s).2 + dy) /\
    Puzzle.only_blank (Puzzle.board s')
      (Puzzle.blank_pos s').1 (Puzzle.blank_pos s').2 /\
    Puzzle.cell (Puzzle.board s') (Puzzle.blank_pos s).1 (Puzzle.blank_pos s).2 = Ok v /\
    Puzzle.cell (Puzzle.board s') (Puzzle.blank_pos s').1 (Puzzle.blank_pos s').2 = Ok 0 /\
    forall i j, 0 <= i < 3 -> 0 <= j < 3 ->
      (i, j) <> Puzzle.blank_pos s -> (i, j) <> Puzzle.blank_pos s' ->
      Puzzle.cell (Puzzle.board s') i j = Puzzle.cell b i j.
Proof.
  intros Hb Hs Hob Hd Hnx Hny.
  destruct (init_Ok_inv b s Hb Hs) as (Eb & Esz & Hx & Hy & E0).
  destruct (move_unique_blank b s d dx dy Hb Hs Hob Hd Hnx Hny)
    as (v & b' & Ev & Hv & Em & Hb' & Hi' & Hob' & Hc).
  pose proof (moves_lookup_Some d (dx, dy) Hd) as Hdir.
  eexists v, _. split; [exact Em|]. simpl. split_and!; try done.
  - rewrite Hc by lia. rewrite decide_False.
    + by rewrite decide_True.
    + destruct Hdir as [[=]|[[=]|[[=]|[=]]]]; lia.
  - rewrite Hc by lia. by rewrite decide_True.
  - intros i j Hi Hj Hne1 Hne2. rewrite Hc by done.
    rewrite decide_False by (intros [-> ->]; done).
    rewrite decide_False; [done|]. intros [-> ->]. apply Hne1.
    by destruct (Puzzle.blank_pos s).
Qed.

Lemma move_swaps_blank_with_target_witness :
  exists s',
    Puzzle.move (Puzzle.mkPuzzle [[1; 2; 3]; [4; 0; 6]; [7; 5; 8]] 3 (1, 1)) "下" =
      Ok (Some s') /\
    Puzzle.blank_pos s' = (2, 1) /\
    Puzzle.cell (Puzzle.board s') 1 1 = Ok 5.
Proof.
  set (b := [[1; 2; 3]; [4; 0; 6]; [7; 5; 8]]).
  assert (Puzzle.is_3x3 b) as Hb by (split; [done|by repeat constructor]).
  assert (Puzzle.only_blank b 1 1) as Hob.
  { intros i j Hi Hj.
    assert (i = 0 \/ i = 1 \/ i = 2) as [-> | [-> | ->]] by lia;
    assert (j = 0 \/ j = 1 \/ j = 2) as [-> | [-> | ->]] by lia;
    vm_compute; done. }
  destruct (move_swaps_blank_with_target b (Puzzle.mkPuzzle b 3 (1, 1)) "下" 1 0
              Hb eq_refl Hob eq_refl ltac:(simpl; lia) ltac:(simpl; lia))
    as (v & s' & Em & Ev & _ & Hpos & _ & Hc & _).
  exists s'. split; [exact Em|]. split; [exact Hpos|].
  vm_compute in Ev. injection Ev as <-. exact Hc.
Defined.

(** X11: on a board whose only 0 is the blank, a move followed by the move
    in the opposite direction returns the state it started from: the same
    board and the same blank. *)
Theorem move_then_opposite_restores
    (b : list (list Z)) (s : Puzzle.EightPuzzleState)
    (d d' : string) (dx dy : Z) :
  Puzzle.is_3x3 b -> Puzzle.init b = Ok s ->
  Puzzle.only_blank b (Puzzle.blank_pos s).1 (Puzzle.blank_pos s).2 ->
  Puzzle.moves !! d = Some (dx, dy) ->
  Puzzle.moves !! d' = Some (- dx, - dy) ->
  0 <= (Puzzle.blank_pos s).1 + dx < 3 ->
  0 <= (Puzzle.blank_pos s).2 + dy < 3 ->
  exists s', Puzzle.move s d = Ok (Some s') /\ Puzzle.move s' d' = Ok (Some s).
Proof.
  intros Hb Hs Hob Hd Hd' Hnx Hny.
  destruct (init_Ok_inv b s Hb Hs) as (Eb & Esz & Hx & Hy & E0).
  destruct (move_unique_blank b s d dx dy Hb Hs Hob Hd Hnx Hny)
    as (v & b' & Ev & Hv & Em & Hb' & Hi' & Hob' & Hc).
  pose proof (moves_lookup_Some d (dx, dy) Hd) as Hdir.
  eexists. split; [exact Em|].
  destruct (move_unique_blank b' _ d' (- dx) (- dy) Hb' Hi' Hob' Hd')
    as (v2 & b2 & Ev2 & _ & Em2 & Hb2 & _ & _ & Hc2); [simpl; lia|simpl; lia|].
  rewrite Em2. simpl in *. do 2 f_equal.
  destruct s as [sb ssz [x y]]. simpl in *. subst sb ssz.
  replace (x + dx + - dx) with x in * by lia.
  replace (y + dy + - dy) with y in * by lia.
  f_equal. apply board_ext; [done|done|].
  intros i j Hi Hj. rewrite Hc2 by done.
  rewrite Hc in Ev2 by lia.
  rewrite decide_False in Ev2
    by (destruct Hdir as [[=]|[[=]|[[=]|[=]]]]; lia).
  rewrite decide_True in Ev2 by done. injection Ev2 as <-.
  destruct (decide (i = x /\ j = y)) as [[-> ->]|Hn1]; [done|].
  destruct (decide (i = x + dx /\ j = y + dy)) as [[-> ->]|Hn2]; [done|].
  rewrite Hc by done. rewrite decide_False by done. by rewrite decide_False.
Qed.

Lemma move_then_opposite_restores_witness :
  exists s',
    Puzzle.move (Puzzle.mkPuzzle [[1; 2; 3]; [4; 0; 6]; [7; 5; 8]] 3 (1, 1)) "左" =
      Ok (Some s') /\
    Puzzle.move s' "右" =
      Ok (Some (Puzzle.mkPuzzle [[1; 2; 3]; [4; 0; 6]; [7; 5; 8]] 3 (1, 1))).
Proof.
  set (b := [[1; 2; 3]; [4; 0; 6]; [7; 5; 8]]).
  assert (Puzzle.is_3x3 b) as Hb by (split; [done|by repeat constructor]).
  assert (Puzzle.only_blank b 1 1) as Hob.
  { intros i j Hi Hj.
    assert (i = 0 \/ i = 1 \/ i = 2) as [-> | [-> | ->]] by lia;
    assert (j = 0 \/ j = 1 \/ j = 2) as [-> | [-> | ->]] by lia;
    vm_compute; done. }
  exact (move_then_opposite_restores b (Puzzle.mkPuzzle b 3 (1, 1)) "左" "右" 0 (-1)
           Hb eq_refl Hob eq_refl eq_refl ltac:(simpl; lia) ltac:(simpl; lia)).
Defined.

Lemma possible_moves_length (s : Puzzle.EightPuzzleState) :
  0 <= (Puzzle.blank_pos s).1 < 3 -> 0 <= (Puzzle.blank_pos s).2 < 3 ->
  (2 <= length (Puzzle.get_possible_moves s) <= 4)%nat.
Proof.
  unfold Puzzle.get_possible_moves. destruct (Puzzle.blank_pos s) as [x y].
  simpl. intros Hx Hy.
  destruct (Z.ltb_spec 0 x), (Z.ltb_spec x 2), (Z.ltb_spec 0 y),
    (Z.ltb_spec y 2); simpl; lia.
Qed.

(** X12: for a tile puzzle built from a 3 x 3 board, [get_neighbors] never
    raises and returns one neighbour for each possible move, in the order of
    [get_possible_moves], so between two and four of them; each neighbour
    holds the state [move] returns for that direction, is itself built from a
    3 x 3 board, and keeps the parent's goal. *)
Theorem puzzle_neighbors_one_per_move (self : Puzzle.EightPuzzleHillClimbing) :
  Puzzle.is_3x3 (Puzzle.board (Puzzle.state self)) ->
  Puzzle.init (Puzzle.board (Puzzle.state self)) = Ok (Puzzle.state self) ->
  exists ns,
    Puzzle.get_neighbors self = Ok ns /\
    (2 <= length ns <= 4)%nat /\
    Forall2 (fun m n =>
               Puzzle.move (Puzzle.state self) m = Ok (Some (Puzzle.state n)) /\
               Puzzle.goal n = Puzzle.goal self /\
               Puzzle.is_3x3 (Puzzle.board (Puzzle.state n)) /\
               Puzzle.init (Puzzle.board (Puzzle.state n)) = Ok (Puzzle.state n))
            (Puzzle.get_possible_moves (Puzzle.state self)) ns.
Proof.
  intros Hb Hs.
  destruct (init_Ok_inv _ _ Hb Hs) as (_ & Esz & Hx & Hy & E0).
  set (P := fun (m : string) (n : Puzzle.EightPuzzleHillClimbing) =>
              Puzzle.move (Puzzle.state self) m = Ok (Some (Puzzle.state n)) /\
              Puzzle.goal n = Puzzle.goal self /\
              Puzzle.is_3x3 (Puzzle.board (Puzzle.state n)) /\
              Puzzle.init (Puzzle.board (Puzzle.state n)) = Ok (Puzzle.state n)).
  unfold Puzzle.get_neighbors.
  destruct (for_each_total (fun pre acc => Forall2 P pre acc)
              (Puzzle.get_possible_moves (Puzzle.state self))
              (Puzzle.neighbor_body self) []) as (ns & E & HF).
  - constructor.
  - intros pre m post acc Eq HF.
    assert (m ∈ Puzzle.get_possible_moves (Puzzle.state self)) as Hin.
    { rewrite Eq. apply elem_of_app. right. by left. }
    apply possible_moves_elem in Hin as (dx & dy & Hd & Hnx & Hny); [|done|done].
    destruct (move_swap _ _ m dx dy Hb Hs Hd Hnx Hny)
      as (v & s' & _ & Em & Hb' & Hs' & _).
    unfold Puzzle.neighbor_body, Puzzle.hc_init. rewrite Em. py_simpl.
    rewrite Hs'. py_simpl. eexists. split; [done|].
    apply Forall2_app; [done|]. constructor; [|constructor]. by split_and!.
  - exists ns. split; [done|]. split; [|done].
    apply Forall2_length in HF. rewrite <- HF.
    by apply possible_moves_length.
Qed.

Lemma puzzle_neighbors_one_per_move_witness :
  exists ns,
    Puzzle.get_neighbors
      (Puzzle.mkPuzzleHC (Puzzle.mkPuzzle [[0; 1; 2]; [3; 4; 5]; [6; 7; 8]] 3 (0, 0))
                         (Puzzle.mkPuzzle [[1; 0; 2]; [3; 4; 5]; [6; 7; 8]] 3 (0, 1)))
      = Ok ns /\
    length ns = 2%nat.
Proof.
  destruct (puzzle_neighbors_one_per_move
              (Puzzle.mkPuzzleHC
                 (Puzzle.mkPuzzle [[0; 1; 2]; [3; 4; 5]; [6; 7; 8]] 3 (0, 0))
                 (Puzzle.mkPuzzle [[1; 0; 2]; [3; 4; 5]; [6; 7; 8]] 3 (0, 1))))
    as (ns & E & _ & HF).
  - split; [done|by repeat constructor].
  - reflexivity.
  - exists ns. split; [exact E|]. by apply Forall2_length in HF.
Defined.

(** ** Tile puzzle: when the score is 100 *)

Ltac explicit_3x3 b Hb :=
  let Hl := fresh "Hl" in
  let Hr := fresh "Hr" in
  destruct Hb as [Hl Hr];
  destruct b as [|[|? [|? [|? [|? ?]]]] [|[|? [|? [|? [|? ?]]]] [|[|? [|? [|? [|? ?]]]] [|? ?]]]];
  try (by (simpl in Hl; lia));
  try (by (repeat (apply Forall_cons in Hr as [? Hr]); simpl in *; lia)).

Lemma cell_concat (b : list (list Z)) (i j v : Z) :
  Puzzle.is_3x3 b -> 0 <= i < 3 -> 0 <= j < 3 ->
  Puzzle.cell b i j = Ok v <-> concat b !! Z.to_nat (3 * i + j) = Some v.
Proof.
  intros Hb Hi Hj. explicit_3x3 b Hb.
  assert (i = 0 \/ i = 1 \/ i = 2) as [-> | [-> | ->]] by lia;
  assert (j = 0 \/ j = 1 \/ j = 2) as [-> | [-> | ->]] by lia;
  vm_compute; (split; intros [= ->]; done).
Qed.

Lemma concat_elem_cell (b : list (list Z)) (v : Z) :
  Puzzle.is_3x3 b ->
  v ∈ concat b <-> exists i j, 0 <= i < 3 /\ 0 <= j < 3 /\ Puzzle.cell b i j = Ok v.
Proof.
  intros Hb. split.
  - intros Hin. apply list_elem_of_lookup in Hin as [k Hk].
    assert (length (concat b) = 9%nat) as Hlen.
    { clear Hk. explicit_3x3 b Hb; done. }
    pose proof (lookup_lt_Some _ _ _ Hk) as Hlt. rewrite Hlen in Hlt.
    exists (Z.of_nat k / 3), (Z.of_nat k `mod` 3).
    pose proof (Z.div_mod (Z.of_nat k) 3 ltac:(lia)).
    pose proof (Z.mod_pos_bound (Z.of_nat k) 3 ltac:(lia)).
    assert (0 <= Z.of_nat k / 3 < 3) by (split; [apply Z.div_pos|apply Z.div_lt_upper_bound]; lia).
    split; [done|]. split; [lia|].
    apply cell_concat; [done|done|lia|].
    replace (Z.to_nat _) with k by lia. done.
  - intros (i & j & Hi & Hj & E). apply cell_concat in E; [|done..].
    by eapply list_elem_of_lookup_2.
Qed.

Lemma goal_loop_zero_iff (self : Puzzle.EightPuzzleHillClimbing)
    (i j v d0 : Z) :
  Puzzle.is_3x3 (Puzzle.board (Puzzle.goal self)) ->
  Puzzle.cell (Puzzle.board (Puzzle.state self)) i j = Ok v ->
  exists d1,
    for_each (Puzzle.cells 3) (Puzzle.goal_cell_body self i j) d0 = Ok d1 /\
    d0 <= d1 /\
    (d1 = d0 <->
     forall gi gj, 0 <= gi < 3 -> 0 <= gj < 3 ->
       Puzzle.cell (Puzzle.board (Puzzle.goal self)) gi gj = Ok v ->
       gi = i /\ gj = j).
Proof.
  intros Hg Ev.
  destruct (for_each_total
    (fun pre d => d0 <= d /\
       (d = d0 <-> forall gi gj, (gi, gj) ∈ pre ->
          Puzzle.cell (Puzzle.board (Puzzle.goal self)) gi gj = Ok v ->
          gi = i /\ gj = j))
    (Puzzle.cells 3) (Puzzle.goal_cell_body self i j) d0)
    as (d1 & E1 & Hle & Hiff).
  - split; [lia|]. split; [|done]. intros _ gi gj Hin.
    by apply not_elem_of_nil in Hin.
  - intros pre [gi gj] post s1 Ec [Hle Hiff].
    assert ((gi, gj) ∈ Puzzle.cells 3) as Hin.
    { rewrite Ec. apply elem_of_app. right. by left. }
    apply cells_elem in Hin as [Hgi Hgj]. unfold Puzzle.goal_cell_body.
    destruct (cell_3x3 _ gi gj Hg Hgi Hgj) as (grow & gv & _ & _ & Egv).
    rewrite Egv, Ev. py_simpl. eexists. split; [done|].
    destruct (Z.eqb_spec gv v) as [->|Hne].
    + split; [lia|]. split.
      * intros Hd. assert (s1 = d0) as Hs1 by lia.
        assert (gi = i /\ gj = j) as [-> ->] by lia.
        intros gi' gj' Hin'. apply elem_of_app in Hin' as [Hin'|Hin'].
        -- apply Hiff; done.
        -- apply list_elem_of_singleton in Hin'. by injection Hin' as -> ->.
      * intros Hall.
        assert (gi = i /\ gj = j) as [-> ->].
        { apply Hall; [|done]. apply elem_of_app. right. by left. }
        assert (s1 = d0) as ->; [|lia].
        apply Hiff. intros gi' gj' Hin'. apply Hall. apply elem_of_app. by left.
    + split; [lia|]. rewrite Hiff. split.
      * intros Hall gi' gj' Hin'. apply elem_of_app in Hin' as [Hin'|Hin'];
          [by apply Hall|].
        apply list_elem_of_singleton in Hin'. injection Hin' as -> ->.
        rewrite Egv. by intros [= ?].
      * intros Hall gi' gj' Hin'. apply Hall. apply elem_of_app. by left.
  - exists d1. split; [done|]. split; [done|]. rewrite Hiff. split.
    + intros Hall gi gj Hgi Hgj. apply Hall. by apply cells_elem.
    + intros Hall gi gj Hin. apply cells_elem in Hin as [? ?]. by apply Hall.
Qed.

Lemma puzzle_distance_zero_iff (self : Puzzle.EightPuzzleHillClimbing) :
  Puzzle.is_3x3 (Puzzle.board (Puzzle.state self)) ->
  Puzzle.is_3x3 (Puzzle.board (Puzzle.goal self)) ->
  Puzzle.size (Puzzle.state self) = 3 ->
  exists d,
    for_each (Puzzle.cells 3) (Puzzle.tile_body self) 0 = Ok d /\
    (d = 0 <->
     forall i j gi gj v, 0 <= i < 3 -> 0 <= j < 3 -> 0 <= gi < 3 -> 0 <= gj < 3 ->
       Puzzle.cell (Puzzle.board (Puzzle.state self)) i j = Ok v -> v <> 0 ->
       Puzzle.cell (Puzzle.board (Puzzle.goal self)) gi gj = Ok v ->
       gi = i /\ gj = j).
Proof.
  intros Hb Hg Hsz.
  destruct (for_each_total
    (fun pre d => 0 <= d /\
       (d = 0 <-> forall i j gi gj v, (i, j) ∈ pre ->
          0 <= gi < 3 -> 0 <= gj < 3 ->
          Puzzle.cell (Puzzle.board (Puzzle.state self)) i j = Ok v -> v <> 0 ->
          Puzzle.cell (Puzzle.board (Puzzle.goal self)) gi gj = Ok v ->
          gi = i /\ gj = j))
    (Puzzle.cells 3) (Puzzle.tile_body self) 0)
    as (d & E & Hle & Hiff).
  - split; [lia|]. split; [|done]. intros _ i j gi gj v Hin.
    by apply not_elem_of_nil in Hin.
  - intros pre [i j] post s1 Ec [Hle Hiff].
    assert ((i, j) ∈ Puzzle.cells 3) as Hin.
    { rewrite Ec. apply elem_of_app. right. by left. }
    apply cells_elem in Hin as [Hi Hj]. unfold Puzzle.tile_body.
    destruct (cell_3x3 _ i j Hb Hi Hj) as (row & v & _ & _ & Ev).
    rewrite Ev. py_simpl.
    destruct (Z.eqb_spec v 0) as [->|Hv]; simpl.
    + eexists. split; [done|]. split; [done|]. rewrite Hiff. split.
      * intros Hall i' j' gi gj v' Hin'.
        apply elem_of_app in Hin' as [Hin'|Hin']; [by apply Hall|].
        apply list_elem_of_singleton in Hin'. injection Hin' as -> ->.
        intros _ _. rewrite Ev. by intros [= <-].
      * intros Hall i' j' gi gj v' Hin'. apply Hall. apply elem_of_app. by left.
    + rewrite Hsz.
      destruct (goal_loop_zero_iff self i j v s1 Hg Ev) as (d1 & E1 & Hle1 & Hiff1).
      exists d1. split; [done|]. split; [lia|]. split.
      * intros ->. assert (s1 = 0) as -> by lia.
        intros i' j' gi gj v' Hin'.
        apply elem_of_app in Hin' as [Hin'|Hin'].
        -- apply Hiff; done.
        -- apply list_elem_of_singleton in Hin'. injection Hin' as -> ->.
           intros Hgi Hgj. rewrite Ev. intros [= <-] _.
           apply Hiff1; done.
      * intros Hall. assert (s1 = 0) as ->.
        { apply Hiff. intros i' j' gi gj v' Hin'. apply Hall.
          apply elem_of_app. by left. }
        apply Hiff1. intros gi gj Hgi Hgj. apply (Hall i j gi gj v); try done.
        apply elem_of_app. right. by left.
  - exists d. split; [done|]. rewrite Hiff. split.
    + intros Hall i j gi gj v Hi Hj. apply Hall. by apply cells_elem.
    + intros Hall i j gi gj v Hin. apply cells_elem in Hin as [? ?]. by apply Hall.
Qed.

(** X13: when the goal board holds nine different tiles and the state's board
    is a rearrangement of them, the score is 100, and [is_goal] is true,
    exactly when the board is the goal board. *)
Theorem puzzle_goal_iff_board_is_goal (self : Puzzle.EightPuzzleHillClimbing) :
  Puzzle.is_3x3 (Puzzle.board (Puzzle.state self)) ->
  Puzzle.is_3x3 (Puzzle.board (Puzzle.goal self)) ->
  Puzzle.size (Puzzle.state self) = 3 ->
  NoDup (concat (Puzzle.board (Puzzle.goal self))) ->
  concat (Puzzle.board (Puzzle.state self)) ≡ₚ
    concat (Puzzle.board (Puzzle.goal self)) ->
  (Puzzle.evaluate self = Ok 100 <->
     Puzzle.board (Puzzle.state self) = Puzzle.board (Puzzle.goal self)) /\
  (Puzzle.is_goal self = Ok true <->
     Puzzle.board (Puzzle.state self) = Puzzle.board (Puzzle.goal self)).
Proof.
  intros Hb Hg Hsz Hnd Hperm.
  destruct (puzzle_distance_zero_iff self Hb Hg Hsz) as (d & Ed & Hiff).
  assert (d = 0 <->
          Puzzle.board (Puzzle.state self) = Puzzle.board (Puzzle.goal self))
    as Hmain.
  { rewrite Hiff. split.
    - intros Hall. apply board_ext; [done|done|]. intros i j Hi Hj.
      destruct (cell_3x3 _ i j Hb Hi Hj) as (row & v & _ & _ & Ev).
      destruct (cell_3x3 _ i j Hg Hi Hj) as (grow & w & _ & _ & Ew).
      rewrite Ev, Ew. f_equal.
      destruct (decide (v = 0)) as [->|Hv].
      + destruct (decide (w = 0)) as [->|Hw]; [done|].
        assert (w ∈ concat (Puzzle.board (Puzzle.state self))) as Hin.
        { rewrite Hperm. apply concat_elem_cell; [done|]. by exists i, j. }
        apply concat_elem_cell in Hin as (i' & j' & Hi' & Hj' & Ew'); [|done].
        destruct (Hall i' j' i j w Hi' Hj' Hi Hj Ew' Hw Ew) as [-> ->].
        rewrite Ev in Ew'. by injection Ew'.
      + assert (v ∈ concat (Puzzle.board (Puzzle.goal self))) as Hin.
        { rewrite <- Hperm. apply concat_elem_cell; [done|]. by exists i, j. }
        apply concat_elem_cell in Hin as (gi & gj & Hgi & Hgj & Egv); [|done].
        destruct (Hall i j gi gj v Hi Hj Hgi Hgj Ev Hv Egv) as [-> ->].
        rewrite Ew in Egv. by injection Egv.
    - intros Eq i j gi gj v Hi Hj Hgi Hgj Ev Hv Egv. rewrite Eq in Ev.
      apply cell_concat in Ev; [|done..]. apply cell_concat in Egv; [|done..].
      pose proof (NoDup_lookup _ _ _ _ Hnd Ev Egv). lia. }
  unfold Puzzle.is_goal, Puzzle.evaluate. rewrite Hsz, Ed. py_simpl.
  rewrite <- Hmain. split.
  - split; [intros [= ?]; lia|intros ->; done].
  - split; [intros [= H%Z.eqb_eq]; lia|intros ->; done].
Qed.

Lemma puzzle_goal_iff_board_is_goal_witness :
  Puzzle.is_goal
    (Puzzle.mkPuzzleHC (Puzzle.mkPuzzle [[0; 1; 2]; [3; 4; 5]; [6; 7; 8]] 3 (0, 0))
                       (Puzzle.mkPuzzle [[0; 1; 2]; [3; 4; 5]; [6; 7; 8]] 3 (0, 0)))
    = Ok true.
Proof.
  apply puzzle_goal_iff_board_is_goal; simpl.
  - split; [done|by repeat constructor].
  - split; [done|by repeat constructor].
  - reflexivity.
  - apply (bool_decide_unpack _). vm_compute. exact I.
  - reflexivity.
  - reflexivity.
Defined.

(** ** Random tile puzzles *)

Lemma NoDup_only_blank (b : list (list Z)) (x y : Z) :
  Puzzle.is_3x3 b -> NoDup (concat b) -> 0 <= x < 3 -> 0 <= y < 3 ->
  Puzzle.cell b x y = Ok 0 -> Puzzle.only_blank b x y.
Proof.
  intros Hb Hnd Hx Hy E0 i j Hi Hj E.
  apply cell_concat in E0; [|done..]. apply cell_concat in E; [|done..].
  pose proof (NoDup_lookup _ _ _ _ Hnd E0 E). lia.
Qed.

Section RandomPuzzles.
Import Engine Generate.
Context {R F : Type} `{RandomSource R F}.

(** X14: if [random.shuffle] rearranges its list, [generate_random_puzzle]
    never raises: it returns a 3 x 3 state whose rows, read in order, are the
    shuffled list, so each of 0..8 is on the board once and the blank is the
    only 0; [EightPuzzleHillClimbing.generate_random_state] then returns that
    board with the goal [[0,1,2],[3,4,5],[6,7,8]]. *)
Theorem generate_random_puzzle_is_permutation (r : R) :
  (shuffle (range 9) r).1 ≡ₚ range 9 ->
  exists state,
    generate_random_puzzle r = (Ok state, (shuffle (range 9) r).2) /\
    Puzzle.is_3x3 (Puzzle.board state) /\
    Puzzle.size state = 3 /\
    concat (Puzzle.board state) = (shuffle (range 9) r).1 /\
    Puzzle.only_blank (Puzzle.board state)
      (Puzzle.blank_pos state).1 (Puzzle.blank_pos state).2 /\
    puzzle_generate_random_state r =
      (Ok (Puzzle.mkPuzzleHC state
             (Puzzle.mkPuzzle [[0; 1; 2]; [3; 4; 5]; [6; 7; 8]] 3 (0, 0))),
       (shuffle (range 9) r).2).
Proof.
  intros Hperm.
  destruct (shuffle (range 9) r) as [numbers r'] eqn:Es.
  cbn [fst snd] in Hperm |- *.
  assert (NoDup numbers) as Hnd.
  { rewrite Hperm. apply NoDup_seqZ. }
  assert (0 ∈ numbers) as H0.
  { rewrite Hperm. apply elem_of_seqZ. lia. }
  pose proof (Permutation_length Hperm) as Hlen.
  destruct numbers as [|n0 [|n1 [|n2 [|n3 [|n4 [|n5 [|n6 [|n7 [|n8 [|? ?]]]]]]]]]];
    try done.
  set (b := [[n0; n1; n2]; [n3; n4; n5]; [n6; n7; n8]]).
  assert ((fun i => slice [n0; n1; n2; n3; n4; n5; n6; n7; n8] i (i + 3)) <$>
            range_step 0 9 3 = b) as Hboard by reflexivity.
  assert (Puzzle.init [[0; 1; 2]; [3; 4; 5]; [6; 7; 8]] =
          Ok (Puzzle.mkPuzzle [[0; 1; 2]; [3; 4; 5]; [6; 7; 8]] 3 (0, 0)))
    as Hgoal by reflexivity.
  assert (Puzzle.is_3x3 b) as Hb by (split; [done|by repeat constructor]).
  assert (concat b = [n0; n1; n2; n3; n4; n5; n6; n7; n8]) as Hcat by done.
  rewrite <- Hcat in H0, Hnd.
  apply concat_elem_cell in H0 as (i & j & Hi & Hj & E0); [|done].
  destruct (init_with_blank b i j Hb Hi Hj E0) as (p & Ep & Hp1 & Hp2 & Ep0).
  unfold puzzle_generate_random_state, generate_random_puzzle.
  rewrite Es. cbv beta iota zeta. rewrite Hboard, Ep. py_simpl.
  rewrite Hgoal. py_simpl. unfold Puzzle.hc_init.
  cbn [Puzzle.board]. rewrite Ep. py_simpl.
  eexists. split; [reflexivity|]. cbn [Puzzle.board Puzzle.size Puzzle.blank_pos].
  split_and!; try done. by apply NoDup_only_blank.
Qed.

End RandomPuzzles.

Lemma generate_random_puzzle_is_permutation_witness :
  Generate.generate_random_puzzle [1%nat] =
    (Ok (Puzzle.mkPuzzle [[8; 7; 6]; [5; 4; 3]; [2; 1; 0]] 3 (2, 2)), []).
Proof.
  destruct (generate_random_puzzle_is_permutation (R := list nat) (F := Q) [1%nat])
    as (state & E & _).
  - simpl. apply (bool_decide_unpack _). vm_compute. exact I.
  - rewrite E. vm_compute in E. injection E as <-. reflexivity.
Defined.

(** ** The search engine: what the entry points return *)

Lemma last_map {A B : Type} (f : A -> B) (l : list A) :
  last (map f l) = option_map f (last l).
Proof.
  induction l as [|x [|y l] IH]; [done|done|]. exact IH.
Qed.

Section SearchResults.
Import Engine Annealing.
Context {T R F : Type}.
Context `{HillClimbingProblem T} `{FloatOps F} `{RandomSource R F}
  `{Restartable T R}.

Lemma first_best_snoc (path : list T) (s x : T) :
  first_best path s ->
  first_best (path ++ [x]) (if evaluate s <? evaluate x then x else s).
Proof.
  intros (pre & post & -> & Hpre & Hpost).
  destruct (Z.ltb_spec (evaluate s) (evaluate x)) as [Hlt|Hge].
  - exists (pre ++ s :: post), []. split_and!; [done| |].
    + intros y Hy. apply elem_of_app in Hy as [Hy|Hy];
        [specialize (Hpre y Hy); lia|].
      apply elem_of_cons in Hy as [->|Hy]; [lia|].
      specialize (Hpost y Hy). lia.
    + intros y Hy. by apply not_elem_of_nil in Hy.
  - exists pre, (post ++ [x]). split_and!.
    + by rewrite <- app_assoc.
    + done.
    + intros y Hy. apply elem_of_app in Hy as [Hy|Hy]; [by apply Hpost|].
      apply list_elem_of_singleton in Hy as ->. lia.
Qed.

Lemma first_best_bounds (path : list T) (s : T) :
  first_best path s -> s ∈ path /\ forall x, x ∈ path -> evaluate x <= evaluate s.
Proof.
  intros (pre & post & -> & Hpre & Hpost). split.
  - apply elem_of_app. right. by left.
  - intros x Hx. apply elem_of_app in Hx as [Hx|Hx];
      [specialize (Hpre x Hx); lia|].
    apply elem_of_cons in Hx as [->|Hx]; [lia|by apply Hpost].
Qed.

Lemma random_restart_loop_best (restarts : nat) (initial_state best : T)
    (best_sc : Z) (all_scores : list Z) (rng : R) (seen : list T) :
  best_sc = evaluate best -> first_best seen best ->
  first_best
    (seen ++ map (fun s => (steepest_ascent s default_max_steps).1)
                 (restart_attempts restarts initial_state rng))
    (random_restart_loop restarts initial_state best best_sc all_scores rng).1.1.
Proof.
  revert initial_state best best_sc all_scores rng seen.
  induction restarts as [|n IH]; intros initial_state best best_sc all_scores
    rng seen Hsc Hbest.
  - simpl. by rewrite app_nil_r.
  - cbn [random_restart_loop restart_attempts].
    destruct (steepest_ascent initial_state default_max_steps)
      as [current_state current_scores] eqn:Est.
    cbn [fst snd]. subst best_sc.
    pose proof (first_best_snoc seen best current_state Hbest) as Hnew.
    destruct (Z.ltb_spec (evaluate best) (evaluate current_state)) as [Hlt|Hge].
    + destruct (is_goal current_state) eqn:Hg.
      * simpl. by rewrite Est.
      * destruct (fresh_initial_state initial_state rng) as [s1 r1].
        cbn [map]. rewrite Est. cbn [fst].
        rewrite (cons_middle current_state), app_assoc. by apply IH.
    + destruct (is_goal current_state) eqn:Hg.
      * simpl. by rewrite Est.
      * destruct (fresh_initial_state initial_state rng) as [s1 r1].
        cbn [map]. rewrite Est. cbn [fst].
        rewrite (cons_middle current_state), app_assoc. by apply IH.
Qed.

Lemma restart_anneal_loop_best (fuel : nat) (cfg : config F) (restarts : nat)
    (initial_state best : T) (best_sc : Z) (all_scores : list Z) (r : R)
    (s : T) (tr : list Z) (r' : R) :
  best_sc = evaluate best ->
  restart_anneal_loop fuel cfg restarts initial_state best best_sc
    all_scores r = Some (Ok (s, tr, r')) ->
  evaluate best <= evaluate s /\
  (s = best \/
   exists s0 r0 tr0 r1, anneal fuel s0 cfg r0 = Some (Ok (s, tr0, r1))).
Proof.
  revert initial_state best best_sc all_scores r.
  induction restarts as [|n IH]; intros initial_state best best_sc all_scores
    r Hsc E.
  - simpl in E. injection E as <- <- <-. split; [lia|by left].
  - cbn [restart_anneal_loop] in E.
    destruct (anneal fuel initial_state cfg r) as [[[[cs sc] r1]|e]|] eqn:Ea;
      [|done|done].
    subst best_sc.
    destruct (Z.ltb_spec (evaluate best) (evaluate cs)) as [Hlt|Hge].
    + destruct (is_goal cs).
      * injection E as <- <- <-. split; [lia|]. right. by eexists _, _, _, _.
      * destruct (fresh_initial_state initial_state r1) as [s1 r2].
        apply IH in E as [Hle Hor]; [|done]. split; [lia|].
        destruct Hor as [->|Hor]; [|by right]. right. by eexists _, _, _, _.
    + destruct (is_goal cs).
      * injection E as <- <- <-. split; [lia|]. by left.
      * destruct (fresh_initial_state initial_state r1) as [s1 r2].
        by apply IH in E.
Qed.

(** X15: the trace returned by [steepest_ascent] and by [first_choice] ends
    with the score of the state returned with it, and holds at most one
    entry per step allowed plus the initial one. *)
Theorem hill_climbing_trace_ends_with_result_score (initial_state : T) :
  (forall max_steps,
     last (steepest_ascent initial_state max_steps).2 =
       Some (evaluate (steepest_ascent initial_state max_steps).1) /\
     (1 <= length (steepest_ascent initial_state max_steps).2
        <= S (Z.to_nat max_steps))%nat) /\
  (forall max_steps (rng : R),
     last (first_choice initial_state max_steps rng).1.2 =
       Some (evaluate (first_choice initial_state max_steps rng).1.1) /\
     (1 <= length (first_choice initial_state max_steps rng).1.2
        <= S (Z.to_nat max_steps))%nat).
Proof.
  split.
  - intros max_steps. unfold steepest_ascent.
    destruct (steepest_loop_spec (Z.to_nat max_steps) initial_state
                [evaluate initial_state])
      as (rest & Etr & Hlast & Hlen & _).
    rewrite Etr. change ([evaluate initial_state] ++ map evaluate rest)
      with (map evaluate (initial_state :: rest)).
    rewrite last_map, Hlast, length_map. simpl. split; [done|lia].
  - intros max_steps rng. unfold first_choice.
    destruct (first_choice_loop_spec (Z.to_nat max_steps) initial_state
                [evaluate initial_state] rng)
      as (rest & r_last & Etr & Hlast & Hlen & _).
    rewrite Etr.
    change ([evaluate initial_state] ++ map (fun x : T * R => evaluate x.1) rest)
      with (map (fun x : T * R => evaluate x.1) ((initial_state, rng) :: rest)).
    rewrite last_map, Hlast, length_map. simpl. split; [done|lia].
Qed.

(** X16: [random_restart] returns the first highest-scoring state among the
    initial state and the states its steepest-ascent attempts return, in
    order; so the returned state never scores less than the initial state or
    than the result of any attempt. *)
Theorem random_restart_returns_first_best (initial_state : T)
    (max_restarts : Z) (rng : R) :
  first_best
    (initial_state ::
     map (fun s => (steepest_ascent s default_max_steps).1)
         (restart_attempts (Z.to_nat max_restarts) initial_state rng))
    (random_restart initial_state max_restarts rng).1.1 /\
  evaluate initial_state <=
    evaluate (random_restart initial_state max_restarts rng).1.1 /\
  forall s, s ∈ restart_attempts (Z.to_nat max_restarts) initial_state rng ->
    evaluate (steepest_ascent s default_max_steps).1 <=
      evaluate (random_restart initial_state max_restarts rng).1.1.
Proof.
  assert (first_best
    (initial_state ::
     map (fun s => (steepest_ascent s default_max_steps).1)
         (restart_attempts (Z.to_nat max_restarts) initial_state rng))
    (random_restart initial_state max_restarts rng).1.1) as Hfb.
  { unfold random_restart.
    apply (random_restart_loop_best _ _ _ _ _ _ [initial_state]); [done|].
    exists [], []. split_and!; [done| |];
      intros x Hx; by apply not_elem_of_nil in Hx. }
  split; [exact Hfb|]. apply first_best_bounds in Hfb as [_ Hall]. split.
  - apply Hall. by left.
  - intros s Hs. apply Hall. right.
    apply list_elem_of_fmap. by exists s.
Qed.

(** X17: when the Metropolis test does not raise where the run evaluates it
    (on a neighbour that scores no more than the current state, at a
    temperature above [min_temp]) and the temperature falls to [min_temp]
    after [k] coolings, [random_restart_anneal] returns, and the state it
    returns is the initial state or one that a call of [anneal] returned, and
    never scores less than the initial state. *)
Theorem random_restart_anneal_never_worse (initial_state : T)
    (cfg : config F) (k : nat) (num_restarts : Z) (r : R) :
  metropolis_defined cfg ->
  float_gt (temp_after cfg k (initial_temp cfg)) (min_temp cfg) = false ->
  exists s tr r',
    random_restart_anneal (S k) initial_state num_restarts cfg r =
      Some (Ok (s, tr, r')) /\
    evaluate initial_state <= evaluate s /\
    (s = initial_state \/
     exists s0 r0 tr0 r1, anneal (S k) s0 cfg r0 = Some (Ok (s, tr0, r1))).
Proof.
  intros Hnr Hcool. unfold random_restart_anneal.
  destruct (restart_anneal_loop_total cfg k (Z.to_nat num_restarts)
              initial_state initial_state (evaluate initial_state) [] r
              Hnr Hcool) as ([[s tr] r'] & E).
  exists s, tr, r'. split; [exact E|].
  by apply restart_anneal_loop_best in E.
Qed.

End SearchResults.

Lemma random_restart_anneal_never_worse_witness :
  exists s tr r',
    Annealing.random_restart_anneal 2 Ridge.B 3 Ridge.cfg
      (Ridge.Tape [0; 1; 1; 0; 2]%nat) = Some (Ok (s, tr, r')) /\
    9 <= Engine.evaluate s.
Proof.
  destruct (random_restart_anneal_never_worse
              (R := Ridge.tape) (F := Q) Ridge.B Ridge.cfg 1%nat 3
              (Ridge.Tape [0; 1; 1; 0; 2]%nat))
    as (s & tr & r' & E & Hle & _).
  - apply checked_metropolis_defined. by vm_compute.
  - vm_compute. reflexivity.
  - exists s, tr, r'. split; [exact E|exact Hle].
Defined.

(** ** The search engine: when no move is made *)

Section NoMove.
Import Engine.
Context {T R F : Type} `{HillClimbingProblem T} `{RandomSource R F}.

Lemma first_choice_loop_trace_prefix (steps : nat) (current : T)
    (scores : list Z) (rng : R) :
  exists tl, (first_choice_loop steps current scores rng).1.2 = scores ++ tl.
Proof.
  destruct (first_choice_loop_spec steps current scores rng)
    as (rest & r_last & Etr & _). by eexists.
Qed.

(** X18: [steepest_ascent] returns the initial state with the one-entry trace
    exactly when no step is allowed ([max_steps <= 0]) or no neighbour scores
    more than the initial state; it does not look at [is_goal] of the initial
    state. *)
Theorem steepest_ascent_no_move_iff (initial_state : T) (max_steps : Z) :
  steepest_ascent initial_state max_steps =
    (initial_state, [evaluate initial_state]) <->
  (max_steps <= 0 \/
   forall n, n ∈ get_neighbors initial_state ->
     evaluate n <= evaluate initial_state).
Proof.
  unfold steepest_ascent.
  destruct (Z.to_nat max_steps) as [|steps] eqn:Esteps.
  { split; [intros _; left; lia|done]. }
  cbn [steepest_loop].
  destruct (get_neighbors initial_state) as [|n0 ns] eqn:En.
  { split; [|done]. intros _. right. intros n Hn.
    by apply not_elem_of_nil in Hn. }
  destruct (max_by snd (n0, evaluate n0) (map (fun n => (n, evaluate n)) ns))
    as [b sc] eqn:Eb.
  destruct (best_neighbor_spec initial_state n0 ns b sc En Eb)
    as (-> & Hin & Hmax).
  rewrite En in Hin, Hmax.
  destruct (Z.leb_spec (evaluate b) (evaluate initial_state)) as [Hle|Hgt].
  - split; [|done]. intros _. right. intros n Hn. specialize (Hmax n Hn). lia.
  - split.
    + intros E. exfalso.
      assert (exists tl,
        (if is_goal b
         then (b, [evaluate initial_state] ++ [evaluate b])
         else steepest_loop steps b
                ([evaluate initial_state] ++ [evaluate b])).2 =
        ([evaluate initial_state] ++ [evaluate b]) ++ tl) as [tl Etl].
      { destruct (is_goal b); [exists []; by rewrite app_nil_r|].
        apply steepest_loop_trace_prefix. }
      rewrite E in Etl. discriminate Etl.
    + intros [Hneg|Hall]; [lia|]. specialize (Hall b Hin). lia.
Qed.

(** X19: when [random.shuffle] rearranges its list and a step is allowed,
    [first_choice] returns the initial state with the one-entry trace exactly
    when every neighbour scores strictly less than the initial state: a
    neighbour with the same score is moved to. *)
Theorem first_choice_no_move_iff (initial_state : T) (max_steps : Z) (rng : R) :
  (forall (l : list T) (r : R), (shuffle l r).1 ≡ₚ l) ->
  0 < max_steps ->
  (first_choice initial_state max_steps rng).1 =
    (initial_state, [evaluate initial_state]) <->
  forall n, n ∈ get_neighbors initial_state ->
    evaluate n < evaluate initial_state.
Proof.
  intros Hperm Hpos. unfold first_choice.
  destruct (Z.to_nat max_steps) as [|steps] eqn:Esteps; [lia|].
  cbn [first_choice_loop].
  destruct (get_neighbors initial_state) as [|n0 ns] eqn:En.
  { split; [|done]. intros _ n Hn. by apply not_elem_of_nil in Hn. }
  pose proof (Hperm (n0 :: ns) rng) as Hp.
  destruct (shuffle (n0 :: ns) rng) as [shuffled rng1]. cbn [fst] in Hp.
  destruct (first_acceptable initial_state shuffled) as [b|] eqn:Efa.
  - apply first_acceptable_Some in Efa as (Hle & pre & post & Esh & _).
    assert (b ∈ n0 :: ns) as Hb.
    { rewrite <- Hp, Esh. apply elem_of_app. right. by left. }
    split.
    + intros E. exfalso.
      assert (exists tl,
        (if is_goal b
         then (b, [evaluate initial_state] ++ [evaluate b], rng1)
         else first_choice_loop steps b
                ([evaluate initial_state] ++ [evaluate b]) rng1).1.2 =
        ([evaluate initial_state] ++ [evaluate b]) ++ tl) as [tl Etl].
      { destruct (is_goal b); [exists []; by rewrite app_nil_r|].
        apply first_choice_loop_trace_prefix. }
      rewrite E in Etl. discriminate Etl.
    + intros Hall. specialize (Hall b Hb). lia.
  - split; [|done]. intros _ n Hn.
    apply (first_acceptable_None _ _ Efa). by rewrite Hp.
Qed.

End NoMove.

Lemma steepest_ascent_no_move_iff_witness :
  Engine.steepest_ascent Ridge.B 1000 = (Ridge.B, [9]).
Proof.
  change [9] with [Engine.evaluate Ridge.B].
  apply (proj2 (steepest_ascent_no_move_iff Ridge.B 1000)).
  right. intros n Hn. simpl in Hn.
  apply elem_of_cons in Hn as [->|Hn]; [simpl; lia|].
  apply list_elem_of_singleton in Hn as ->. simpl. lia.
Defined.

Lemma first_choice_no_move_iff_witness :
  (Engine.first_choice Ridge.B 1000 [1%nat]).1 = (Ridge.B, [9]).
Proof.
  change [9] with [Engine.evaluate Ridge.B].
  assert (forall (l : list Ridge.spot) (r : list nat),
            (Engine.shuffle l r).1 ≡ₚ l) as Hperm.
  { intros l r. simpl. destruct (Nat.even (hd 0%nat r)); simpl;
      [reflexivity|apply reverse_Permutation]. }
  apply (proj2 (first_choice_no_move_iff (R := list nat) (F := Q)
                  Ridge.B 1000 [1%nat] Hperm ltac:(lia))).
  intros n Hn. simpl in Hn.
  apply elem_of_cons in Hn as [->|Hn]; [simpl; lia|].
  apply list_elem_of_singleton in Hn as ->. simpl. lia.
Defined.

(** ** The curves of [plot_comparison] *)

Section PlotFacts.
Context {A : Type}.

Lemma max_by_id_spec (x : Z) (xs : list Z) :
  max_by (fun n => n) x xs ∈ x :: xs /\
  forall y, y ∈ x :: xs -> y <= max_by (fun n => n) x xs.
Proof. exact (max_by_spec (fun n => n) x xs). Qed.

Lemma max_length_spec (scores_list : list (list A)) :
  scores_list <> [] ->
  exists m, Plot.max_length scores_list = Ok m /\
    (exists scores, scores ∈ scores_list /\ m = Z.of_nat (length scores)) /\
    forall scores, scores ∈ scores_list -> Z.of_nat (length scores) <= m.
Proof.
  destruct scores_list as [|s0 rest]; [done|]. intros _. eexists.
  split; [reflexivity|].
  destruct (max_by_id_spec (Z.of_nat (length s0))
              (map (fun s : list A => Z.of_nat (length s)) rest)) as [Hin Hmax].
  split.
  - apply elem_of_cons in Hin as [E|Hin].
    + exists s0. split; [by left|done].
    + apply (list_elem_of_fmap (fun s : list A => Z.of_nat (length s))) in Hin
        as (s & E & Hs).
      exists s. split; [by right|done].
  - intros s Hs. apply Hmax. apply elem_of_cons in Hs as [->|Hs]; [by left|].
    right. apply (list_elem_of_fmap_2 (fun s : list A => Z.of_nat (length s))).
    done.
Qed.

Lemma colors_getitem (i : nat) :
  exists c, getitem Plot.colors (Z.of_nat i `mod` Z.of_nat (length Plot.colors))
              = Ok c /\
            Plot.colors !! (i mod 7)%nat = Some c.
Proof.
  change (Z.of_nat (length Plot.colors)) with 7.
  pose proof (Z.mod_pos_bound (Z.of_nat i) 7 ltac:(lia)) as Hb.
  destruct (getitem_in_range Plot.colors (Z.of_nat i `mod` 7)) as (c & E & Hc);
    [simpl; lia|].
  exists c. split; [done|].
  replace (i mod 7)%nat with (Z.to_nat (Z.of_nat i `mod` 7)); [done|].
  change 7 with (Z.of_nat 7). rewrite <- Nat2Z.inj_mod. apply Nat2Z.id.
Qed.

Lemma curve_body_ok (m : Z) (i : nat) (scores : list A) (label : string)
    (plotted : list (Plot.curve A)) (last_score : A) :
  last scores = Some last_score ->
  exists c, Plot.colors !! (i mod 7)%nat = Some c /\
    Plot.curve_body m (i, (scores, label)) plotted =
      Ok (plotted ++ [Plot.mkCurve (Plot.padded m scores last_score) c label]).
Proof.
  intros Hlast. destruct (colors_getitem i) as (c & Ec & Hc).
  exists c. split; [done|]. unfold Plot.curve_body.
  assert (getitem scores (-1) = Ok last_score) as Eg.
  { rewrite last_lookup in Hlast.
    assert (length scores <> 0)%nat as Hne.
    { intros E. destruct scores; [done|done]. }
    unfold getitem. simpl.
    replace ((0 <=? -1 + Z.of_nat (length scores)) &&
             (-1 + Z.of_nat (length scores) <? Z.of_nat (length scores)))
      with true.
    2:{ symmetry. apply andb_true_iff. split;
          [apply Z.leb_le|apply Z.ltb_lt]; lia. }
    replace (Z.to_nat (-1 + Z.of_nat (length scores)))
      with (pred (length scores)) by lia.
    by rewrite Hlast. }
  destruct (Z.ltb_spec (Z.of_nat (length scores)) m) as [Hlt|Hge].
  - rewrite Eg. py_simpl. rewrite Ec. py_simpl. done.
  - py_simpl. rewrite Ec. py_simpl. unfold Plot.padded.
    replace (Z.to_nat (m - Z.of_nat (length scores))) with 0%nat by lia.
    simpl. by rewrite app_nil_r.
Qed.

End PlotFacts.

Section PlotComparison.
Context {A : Type}.

(** What [plot_comparison] draws when no trace is empty. *)
Lemma plot_comparison_ok (scores_list : list (list A)) (labels : list string) :
  scores_list <> [] -> Forall (fun scores => scores <> []) scores_list ->
  exists m curves,
    Plot.max_length scores_list = Ok m /\
    (exists scores, scores ∈ scores_list /\ m = Z.of_nat (length scores)) /\
    (forall scores, scores ∈ scores_list -> Z.of_nat (length scores) <= m) /\
    Plot.plot_comparison scores_list labels = Ok curves /\
    length curves = (length scores_list `min` length labels)%nat /\
    forall i c, curves !! i = Some c ->
      length (Plot.series c) = Z.to_nat m /\
      labels !! i = Some (Plot.label c) /\
      Plot.colors !! (i mod 7)%nat = Some (Plot.color c) /\
      exists scores last_score,
        scores_list !! i = Some scores /\ last scores = Some last_score /\
        Plot.series c = Plot.padded m scores last_score.
Proof.
  intros Hne Hall.
  destruct (max_length_spec scores_list Hne) as (m & Em & Hex & Hmax).
  exists m. unfold Plot.plot_comparison. rewrite Em. py_simpl.
  set (items := imap (fun i item => (i, item)) (zip scores_list labels)).
  set (P := fun (item : nat * (list A * string)) (c : Plot.curve A) =>
              exists last_score color,
                last item.2.1 = Some last_score /\
                Plot.colors !! (item.1 mod 7)%nat = Some color /\
                c = Plot.mkCurve (Plot.padded m item.2.1 last_score) color
                      item.2.2).
  destruct (for_each_total (fun pre curves => Forall2 P pre curves) items
              (Plot.curve_body m) []) as (curves & E & HF).
  - constructor.
  - intros pre [i [scores label]] post plotted Eitems HF.
    assert (items !! length pre = Some (i, (scores, label))) as Hlk.
    { rewrite Eitems. by apply list_lookup_middle. }
    apply list_lookup_imap_Some in Hlk as ([scores' label'] & Hz & [= -> <- <-]).
    apply lookup_zip_Some in Hz as [Hs Hl].
    assert (scores <> []) as Hsne.
    { rewrite Forall_forall in Hall. apply Hall.
      by eapply list_elem_of_lookup_2. }
    destruct (last scores) as [last_score|] eqn:Elast.
    2:{ by apply last_None in Elast. }
    destruct (curve_body_ok m (length pre) scores label plotted last_score Elast)
      as (c & Hc & ->).
    eexists. split; [done|]. apply Forall2_app; [done|].
    constructor; [|constructor]. by exists last_score, c.
  - exists curves. split_and!; try done.
    + apply Forall2_length in HF. rewrite <- HF. unfold items.
      by rewrite length_imap, length_zip_with.
    + intros i c Hc.
      destruct (Forall2_lookup_r _ _ _ _ _ HF Hc)
        as ([i' [scores label]] & Hitem & last_score & color & Hlast & Hcol & ->).
      apply list_lookup_imap_Some in Hitem as ([scores' label'] & Hz & [= -> <- <-]).
      apply lookup_zip_Some in Hz as [Hs Hl]. simpl in *.
      split_and!; try done.
      * unfold Plot.padded. rewrite length_app, length_replicate.
        assert (Z.of_nat (length scores) <= m).
        { apply Hmax. by eapply list_elem_of_lookup_2. }
        lia.
      * by exists scores, last_score.
Qed.

Lemma getitem_raises {X : Type} (l : list X) (i : Z) (e : exn) :
  getitem l i = Raise e -> e = IndexError.
Proof.
  unfold getitem. destruct (_ && _); [|by intros [= <-]].
  destruct (l !! _); [done|by intros [= <-]].
Qed.

Lemma curve_body_raises (m : Z) (item : nat * (list A * string))
    (plotted : list (Plot.curve A)) :
  Plot.curve_body m item plotted = Raise IndexError \/
  exists plotted', Plot.curve_body m item plotted = Ok plotted'.
Proof.
  destruct item as [i [scores label]]. unfold Plot.curve_body.
  destruct (colors_getitem i) as (c & Ec & _).
  destruct (Z.of_nat (length scores) <? m).
  - destruct (getitem scores (-1)) as [x|e] eqn:Eg; py_simpl.
    + rewrite Ec. py_simpl. right. by eexists.
    + left. by rewrite (getitem_raises _ _ _ Eg).
  - py_simpl. rewrite Ec. py_simpl. right. by eexists.
Qed.

Lemma for_each_raises {X S : Type} (xs : list X) (body : X -> S -> result S)
    (s : S) (e : exn) (bad : X) :
  (forall x s1, x ∈ xs ->
     body x s1 = Raise e \/ exists s2, body x s1 = Ok s2) ->
  bad ∈ xs -> (forall s1, body bad s1 = Raise e) ->
  for_each xs body s = Raise e.
Proof.
  revert s. induction xs as [|x xs IH]; intros s Hall Hbad Hraise.
  - by apply not_elem_of_nil in Hbad.
  - simpl. destruct (Hall x s ltac:(by left)) as [->|[s2 E2]]; [done|].
    rewrite E2. simpl. apply elem_of_cons in Hbad as [->|Hbad].
    + by rewrite Hraise in E2.
    + apply IH; [|done|done]. intros y s1 Hy. apply Hall. by right.
Qed.

(** X20: when the list of traces is not empty and no trace is empty,
    [plot_comparison] draws one curve for each pair of
    [zip(scores_list, labels)], in order; every curve has the length of the
    longest trace and is its trace followed by copies of the trace's last
    score; the colours cycle through the seven of [colors]. *)
Theorem plot_comparison_pads_to_longest (scores_list : list (list A))
    (labels : list string) :
  scores_list <> [] -> Forall (fun scores => scores <> []) scores_list ->
  exists m curves,
    Plot.plot_comparison scores_list labels = Ok curves /\
    length curves = (length scores_list `min` length labels)%nat /\
    (exists scores, scores ∈ scores_list /\ m = length scores) /\
    (forall scores, scores ∈ scores_list -> (length scores <= m)%nat) /\
    forall i c, curves !! i = Some c ->
      length (Plot.series c) = m /\
      labels !! i = Some (Plot.label c) /\
      Plot.colors !! (i mod 7)%nat = Some (Plot.color c) /\
      exists scores last_score,
        scores_list !! i = Some scores /\ last scores = Some last_score /\
        Plot.series c =
          scores ++ replicate (m - length scores) last_score.
Proof.
  intros Hne Hall.
  destruct (plot_comparison_ok scores_list labels Hne Hall)
    as (m & curves & _ & (s0 & Hs0 & Em) & Hmax & E & Hlen & Hcurves).
  exists (Z.to_nat m), curves. split_and!; try done.
  - exists s0. split; [done|lia].
  - intros scores Hs. specialize (Hmax scores Hs). lia.
  - intros i c Hc.
    destruct (Hcurves i c Hc) as (H1 & H2 & H3 & scores & last_score & H4 & H5 & H6).
    split_and!; try done. exists scores, last_score. split_and!; try done.
    rewrite H6. unfold Plot.padded. do 2 f_equal. lia.
Qed.

(** X21: [plot_comparison] raises [ValueError] on an empty list of traces,
    and [IndexError] when a trace that has a label is empty while some trace
    is not. *)
Theorem plot_comparison_raises (scores_list : list (list A))
    (labels : list string) :
  (scores_list = [] ->
   Plot.plot_comparison scores_list labels = Raise ValueError) /\
  (forall i scores,
     scores_list !! i = Some [] -> (i < length labels)%nat ->
     scores ∈ scores_list -> scores <> [] ->
     Plot.plot_comparison scores_list labels = Raise IndexError).
Proof.
  split; [by intros ->|].
  intros i scores Hi Hlt Hs Hsne.
  assert (scores_list <> []) as Hne by (intros ->; done).
  destruct (max_length_spec scores_list Hne) as (m & Em & _ & Hmax).
  specialize (Hmax scores Hs).
  assert (0 < m).
  { destruct scores; [done|]. simpl in Hmax. lia. }
  unfold Plot.plot_comparison. rewrite Em. py_simpl.
  destruct (lookup_lt_is_Some_2 labels i Hlt) as [label Hl].
  apply (for_each_raises _ _ _ _ (i, ([], label))).
  - intros x s1 _. apply curve_body_raises.
  - apply (elem_of_lookup_imap_2 (fun i item => (i, item)) _ _ i).
    by apply lookup_zip_Some.
  - intros s1. unfold Plot.curve_body. simpl.
    change (Z.of_nat 0) with 0. destruct (Z.ltb_spec 0 m); [done|lia].
Qed.

End PlotComparison.

Lemma plot_comparison_pads_to_longest_witness :
  exists curves,
    Plot.plot_comparison [[5; 9]; [5; 9; 9; 9]] ["a"; "b"]%string = Ok curves /\
    Plot.series <$> curves = [[5; 9; 9; 9]; [5; 9; 9; 9]].
Proof.
  destruct (plot_comparison_pads_to_longest [[5; 9]; [5; 9; 9; 9]] ["a"; "b"]%string)
    as (m & curves & E & _).
  - done.
  - by repeat constructor.
  - exists curves. split; [exact E|]. vm_compute in E. by injection E as <-.
Defined.

Lemma plot_comparison_raises_witness :
  Plot.plot_comparison [[5; 9]; []] ["a"; "b"]%string = Raise IndexError.
Proof.
  apply (proj2 (plot_comparison_raises [[5; 9]; []] ["a"; "b"]%string)
           1%nat [5; 9]); [done|simpl; lia|by left|done].
Defined.

(** ** main.py: plotting the traces of the two hill climbers *)

Section PlotTraces.
Import Engine.
Context {T R F : Type} `{HillClimbingProblem T} `{RandomSource R F}.

Lemma steepest_ascent_trace_last (s : T) (max_steps : Z) :
  last (steepest_ascent s max_steps).2 =
    Some (evaluate (steepest_ascent s max_steps).1).
Proof.
  unfold steepest_ascent.
  destruct (steepest_loop_spec (Z.to_nat max_steps) s [evaluate s])
    as (rest & Etr & Hlast & _).
  rewrite Etr. change ([evaluate s] ++ map evaluate rest)
    with (map evaluate (s :: rest)).
  by rewrite last_map, Hlast.
Qed.

Lemma first_choice_trace_last (s : T) (max_steps : Z) (rng : R) :
  last (first_choice s max_steps rng).1.2 =
    Some (evaluate (first_choice s max_steps rng).1.1).
Proof.
  unfold first_choice.
  destruct (first_choice_loop_spec (Z.to_nat max_steps) s [evaluate s] rng)
    as (rest & r_last & Etr & Hlast & _).
  rewrite Etr.
  change ([evaluate s] ++ map (fun x : T * R => evaluate x.1) rest)
    with (map (fun x : T * R => evaluate x.1) ((s, rng) :: rest)).
  by rewrite last_map, Hlast.
Qed.

(** X22: [plot_comparison] on the traces of [steepest_ascent] and
    [first_choice], as [solve_eight_puzzle] and [solve_queens] call it, never
    raises: it draws a blue and a green curve of the length of the longer
    trace, each its own trace followed by copies of the score of the state
    its algorithm returned. *)
Theorem plot_of_hill_climbing_traces (s : T) (steps1 steps2 : Z) (rng : R)
    (label1 label2 : string) :
  Plot.plot_comparison
    [(steepest_ascent s steps1).2; (first_choice s steps2 rng).1.2]
    [label1; label2] =
  Ok [Plot.mkCurve
        ((steepest_ascent s steps1).2 ++
         replicate
           (length (first_choice s steps2 rng).1.2 -
            length (steepest_ascent s steps1).2)
           (evaluate (steepest_ascent s steps1).1))
        "b" label1;
      Plot.mkCurve
        ((first_choice s steps2 rng).1.2 ++
         replicate
           (length (steepest_ascent s steps1).2 -
            length (first_choice s steps2 rng).1.2)
           (evaluate (first_choice s steps2 rng).1.1))
        "g" label2].
Proof.
  pose proof (steepest_ascent_trace_last s steps1) as L1.
  pose proof (first_choice_trace_last s steps2 rng) as L2.
  set (t1 := (steepest_ascent s steps1).2) in *.
  set (t2 := (first_choice s steps2 rng).1.2) in *.
  unfold Plot.plot_comparison, Plot.max_length, max_by. cbn [map fold_left].
  py_simpl. cbn [zip zip_with imap for_each].
  set (m := if Z.of_nat (length t1) <? Z.of_nat (length t2)
            then Z.of_nat (length t2) else Z.of_nat (length t1)).
  destruct (curve_body_ok m 0 t1 label1 [] _ L1) as (c1 & Hc1 & ->).
  cbn [Py.bind app]. unfold compose.
  destruct (curve_body_ok m 1 t2 label2
              [Plot.mkCurve (Plot.padded m t1 (evaluate (steepest_ascent s steps1).1))
                            c1 label1] _ L2) as (c2 & Hc2 & ->).
  cbn [Py.bind app]. injection Hc1 as <-. injection Hc2 as <-.
  unfold Plot.padded, m.
  destruct (Z.ltb_spec (Z.of_nat (length t1)) (Z.of_nat (length t2)));
    repeat f_equal; lia.
Qed.

End PlotTraces.

(** ** The trials of the evaluator *)

Section EvaluatorFacts.
Import Engine Evaluation.
Context {T R : Type} `{HillClimbingProblem T}.
Context (problem_generator : R -> T * R).
Context (algorithm : T -> R -> result (T * list Z) * R).

(** X23: if the algorithm under test never raises and always returns a trace
    with an entry, [evaluate_algorithm] with [trial > 0] reaches its
    statistics with one step count and one final score per trial, every step
    count at least 1, and a success count between 0 and [trial]. *)
Theorem evaluate_algorithm_tally (trial : Z) (r : R) :
  (forall s r0, exists final scores r1,
     algorithm s r0 = (Ok (final, scores), r1) /\ scores <> []) ->
  0 < trial ->
  exists t,
    evaluate_algorithm problem_generator algorithm trial r = Ok t /\
    length (steps_list t) = Z.to_nat trial /\
    length (final_scores t) = Z.to_nat trial /\
    0 <= success_count t <= trial /\
    Forall (fun n => 1 <= n) (steps_list t).
Proof.
  intros Halg Hpos. unfold evaluate_algorithm.
  destruct (for_each_total
    (fun pre t => length (steps_list t) = length pre /\
                  length (final_scores t) = length pre /\
                  0 <= success_count t <= Z.of_nat (length pre) /\
                  Forall (fun n => 1 <= n) (steps_list t))
    (range trial) (trial_body problem_generator algorithm)
    {| success_count := 0; steps_list := []; final_scores := []; rng := r |})
    as (t & E & H1 & H2 & H3 & H4).
  - simpl. split_and!; done.
  - intros pre x post t Ex (H1 & H2 & H3 & H4). unfold trial_body.
    destruct (problem_generator (rng t)) as [s r0].
    destruct (Halg s r0) as (final & scores & r1 & -> & Hne). py_simpl.
    destruct (getitem_in_range scores (Z.of_nat (length scores) - 1))
      as (x0 & _ & Hx0).
    { destruct scores; [done|]. simpl. lia. }
    assert (getitem scores (-1) = Ok x0) as ->.
    { unfold getitem. simpl.
      replace ((0 <=? -1 + Z.of_nat (length scores)) &&
               (-1 + Z.of_nat (length scores) <? Z.of_nat (length scores)))
        with true.
      2:{ symmetry. apply andb_true_iff.
          destruct scores; [done|]. simpl.
          split; [apply Z.leb_le|apply Z.ltb_lt]; lia. }
      replace (-1 + Z.of_nat (length scores))
        with (Z.of_nat (length scores) - 1) by lia.
      by rewrite Hx0. }
    py_simpl. eexists. split; [done|]. simpl.
    rewrite !length_app, H1, H2. simpl. split_and!; try done.
    + destruct (is_goal final); lia.
    + destruct (is_goal final); lia.
    + apply Forall_app. split; [done|]. constructor; [|done].
      destruct scores; [done|]. simpl. lia.
  - rewrite E. py_simpl. destruct (Z.eqb_spec trial 0); [lia|].
    exists t. unfold range in *. rewrite length_seqZ in *.
    split_and!; try done; lia.
Qed.

(** X24: [evaluate_algorithm] raises [ZeroDivisionError] for [trial = 0],
    whatever the algorithm; with [trial > 0] it raises [IndexError] when the
    first run returns an empty trace, and what the first run raises when it
    raises. *)
Theorem evaluate_algorithm_raises (trial : Z) (r : R) :
  (trial = 0 ->
   evaluate_algorithm problem_generator algorithm trial r =
     Raise ZeroDivisionError) /\
  (0 < trial ->
   forall final r1,
     algorithm (problem_generator r).1 (problem_generator r).2 =
       (Ok (final, []), r1) ->
     evaluate_algorithm problem_generator algorithm trial r =
       Raise IndexError) /\
  (0 < trial ->
   forall e r1,
     algorithm (problem_generator r).1 (problem_generator r).2 =
       (Raise e, r1) ->
     evaluate_algorithm problem_generator algorithm trial r = Raise e).
Proof.
  unfold evaluate_algorithm. split_and!.
  - by intros ->.
  - intros Hpos final r1 E. unfold range. rewrite seqZ_cons by lia.
    cbn [for_each]. unfold trial_body at 1. cbn [rng].
    destruct (problem_generator r) as [s r0]. simpl in E. by rewrite E.
  - intros Hpos e r1 E. unfold range. rewrite seqZ_cons by lia.
    cbn [for_each]. unfold trial_body at 1. cbn [rng].
    destruct (problem_generator r) as [s r0]. simpl in E. by rewrite E.
Qed.

End EvaluatorFacts.

Lemma evaluate_algorithm_tally_witness :
  exists t,
    Evaluation.evaluate_algorithm
      (fun r : list nat => (nth (hd 0%nat r) [Ridge.A; Ridge.B; Ridge.C; Ridge.D]
                                Ridge.A, tl r))
      (fun s r => (Ok (Engine.steepest_ascent s 1000), r))
      3 [0; 2; 3]%nat = Ok t /\
    length (Evaluation.steps_list t) = 3%nat.
Proof.
  destruct (evaluate_algorithm_tally
              (fun r : list nat => (nth (hd 0%nat r) [Ridge.A; Ridge.B; Ridge.C; Ridge.D]
                                        Ridge.A, tl r))
              (fun s r => (Ok (Engine.steepest_ascent s 1000), r))
              3 [0; 2; 3]%nat) as (t & E & Hlen & _).
  - intros s r0.
    destruct (Engine.steepest_ascent s 1000) as [final scores] eqn:Es.
    exists final, scores, r0. split; [done|].
    destruct (steepest_loop_trace_prefix (Z.to_nat 1000) s [Engine.evaluate s])
      as [tl Etl].
    unfold Engine.steepest_ascent in Es. rewrite Es in Etl. simpl in Etl.
    by rewrite Etl.
  - lia.
  - exists t. split; [exact E|exact Hlen].
Defined.

Lemma evaluate_algorithm_raises_witness :
  Evaluation.evaluate_algorithm
    (fun r : list nat => (Ridge.A, r))
    (fun s r => (Ok (s, []), r)) 2 [0%nat] = Raise IndexError.
Proof.
  apply (proj1 (proj2 (evaluate_algorithm_raises
                         (fun r : list nat => (Ridge.A, r))
                         (fun s r => (Ok (s, []), r)) 2 [0%nat]))
           ltac:(lia) Ridge.A [0%nat]).
  reflexivity.
Defined.

(** ** Queens: the range of the score *)

Lemma conflicts_body_bound (q : Queen.QueenState) (i c0 : Z) :
  Queen.well_formed q -> 0 <= i < Queen.size q ->
  exists c1, Queen.conflicts_body q i c0 = Ok c1 /\
    c0 <= c1 <= c0 + (Queen.size q - 1 - i).
Proof.
  intros Hwf Hi. red in Hwf. unfold Queen.conflicts_body.
  destruct (for_each_total
    (fun pre c => c0 <= c <= c0 + Z.of_nat (length pre))
    (range2 (i + 1) (Queen.size q)) (Queen.pair_body q i) c0)
    as (c1 & E1 & Hb).
  - simpl. lia.
  - intros pre j post s1 Ej Hb.
    apply seqZ_split_at in Ej as [-> Hj].
    set (j := i + 1 + Z.of_nat (length pre)) in *.
    destruct (lookup_lt_is_Some_2 (Queen.queen_cols q) (Z.to_nat i)) as [ci Hci];
      [lia|].
    destruct (lookup_lt_is_Some_2 (Queen.queen_cols q) (Z.to_nat j)) as [cj Hcj];
      [lia|].
    unfold Queen.pair_body.
    rewrite (getitem_nonneg _ i ci) by (lia || done).
    rewrite (getitem_nonneg _ j cj) by (lia || done). py_simpl.
    eexists. split; [done|]. rewrite length_app. simpl.
    destruct (Queen.attacks i j ci cj); lia.
  - exists c1. split; [done|]. unfold range2 in Hb.
    rewrite length_seqZ in Hb. lia.
Qed.

(** X25: on a state with one column entry per row, the score is [100] minus
    the number of attacking pairs, of which there are at most
    [size * (size - 1) / 2]: it lies between [100 - size * (size - 1) / 2]
    and [100], so between 72 and 100 on the default board. *)
Theorem queen_score_bounds (q : Queen.QueenState) :
  Queen.well_formed q ->
  exists v, Queen.evaluate q = Ok v /\
    v <= 100 /\ 2 * (100 - v) <= Queen.size q * (Queen.size q - 1) /\
    (Queen.size q = 8 -> 72 <= v).
Proof.
  intros Hwf. unfold Queen.evaluate.
  destruct (for_each_total
    (fun pre c => 0 <= c /\
       2 * c <= Z.of_nat (length pre) *
                (2 * Queen.size q - 1 - Z.of_nat (length pre)))
    (range (Queen.size q)) (Queen.conflicts_body q) 0)
    as (c & E & Hle & Hb).
  - simpl. lia.
  - intros pre i post s1 Ei [Hle Hb].
    apply seqZ_split_at in Ei as [-> Hi].
    set (i := 0 + Z.of_nat (length pre)) in *.
    destruct (conflicts_body_bound q i s1 Hwf) as (c1 & E1 & Hb1); [lia|].
    exists c1. split; [done|]. rewrite length_app. simpl.
    split; [lia|]. subst i. nia.
  - rewrite E. py_simpl. exists (100 - c). split; [done|].
    unfold range in Hb. rewrite length_seqZ in Hb.
    red in Hwf.
    assert (0 <= Queen.size q) by lia.
    rewrite Z2Nat.id in Hb by lia. split; [lia|]. split; [nia|].
    intros E8. rewrite E8 in Hb. lia.
Qed.

Lemma queen_score_bounds_witness :
  exists v, Queen.evaluate (Queen.mkQueen 4 [0; 0; 0; 0]) = Ok v /\ 94 <= v.
Proof.
  destruct (queen_score_bounds (Queen.mkQueen 4 [0; 0; 0; 0]))
    as (v & E & _ & Hb & _); [reflexivity|].
  exists v. split; [exact E|]. simpl in Hb. lia.
Defined.

(** ** Annealing from a state without neighbours *)

Section DeadEnd.
Import Engine Annealing.
Context {T R F : Type}.
Context `{HillClimbingProblem T} `{FloatOps F} `{RandomSource R F}.

Lemma anneal_inner_dead_end (steps : nat) (temp : F) (w : walk T R) :
  get_neighbors (current w) = [] -> anneal_inner steps temp w = Break w.
Proof.
  intros Hn. destruct steps as [|n]; [done|].
  cbn [anneal_inner]. unfold anneal_step. by rewrite Hn.
Qed.

Lemma anneal_loop_dead_end (cfg : config F) (k : nat) (temp : F)
    (w : walk T R) :
  get_neighbors (current w) = [] ->
  float_gt (temp_after cfg k temp) (min_temp cfg) = false ->
  anneal_loop cfg (S k) temp w = Some (Ok (best_state w, scores w, rng w)).
Proof.
  intros Hn. revert temp. induction k as [|k IH]; intros temp Hcool.
  - cbn [anneal_loop]. simpl in Hcool. by rewrite Hcool.
  - cbn [anneal_loop]. destruct (float_gt temp (min_temp cfg)); [|done].
    rewrite anneal_inner_dead_end by done.
    apply IH. by rewrite <- temp_after_S_r.
Qed.

(** X26: from a state without neighbours, [anneal] returns that state with
    the one-entry trace as soon as the temperature has fallen to [min_temp]:
    no pass draws a random number, and the state is returned by the final
    [return] even when it is a goal. *)
Theorem anneal_dead_end (initial_state : T) (cfg : config F) (k : nat) (r : R) :
  get_neighbors initial_state = [] ->
  float_gt (temp_after cfg k (initial_temp cfg)) (min_temp cfg) = false ->
  anneal (S k) initial_state cfg r =
    Some (Ok (initial_state, [evaluate initial_state], r)).
Proof.
  intros Hn Hcool. unfold anneal.
  by rewrite (anneal_loop_dead_end cfg k _ (start initial_state r) Hn Hcool).
Qed.

End DeadEnd.

Lemma anneal_dead_end_witness :
  Annealing.anneal 2 tt Ridge.cfg [3; 1]%nat = Some (Ok (tt, [7], [3; 1]%nat)).
Proof.
  change [7] with [Engine.evaluate tt].
  apply (anneal_dead_end (T := unit) (R := list nat) (F := Q) tt Ridge.cfg
           1%nat [3; 1]%nat); [reflexivity|].
  vm_compute. reflexivity.
Defined.

(** ** The store: what a neighbour of a tile puzzle shares with its parent *)

Section GoalSharing.
Import Store.

Lemma read_heap (l : loc) (h : gmap loc obj) : (read l h).2 = h.
Proof. unfold read. by destruct (h !! l). Qed.

Lemma read_board_heap (l : loc) (h : gmap loc obj) : (read_board l h).2 = h.
Proof.
  unfold read_board, bind, read. destruct (h !! l) as [[]|]; done.
Qed.

Lemma read_list_heap (l : loc) (h : gmap loc obj) : (read_list l h).2 = h.
Proof.
  unfold read_list, bind, read. destruct (h !! l) as [[]|]; done.
Qed.

Lemma cell_h_heap (board : loc) (i j : Z) (h : gmap loc obj) :
  (cell_h board i j h).2 = h.
Proof.
  unfold cell_h, bind.
  pose proof (read_board_heap board h) as E1.
  destruct (read_board board h) as [[rows|e] h1]; simpl in E1; subst h1;
    [|done].
  unfold lift. destruct (getitem rows i) as [row|e]; [|done].
  pose proof (read_list_heap row h) as E2.
  destruct (read_list row h) as [[items|e] h2]; simpl in E2; subst h2; done.
Qed.

Lemma find_blank_from_h_heap (board : loc) (todo : list (Z * Z))
    (h : gmap loc obj) :
  (find_blank_from_h board todo h).2 = h.
Proof.
  induction todo as [|[i j] todo IH]; [done|].
  cbn [find_blank_from_h]. unfold bind.
  pose proof (cell_h_heap board i j h) as E.
  destruct (cell_h board i j h) as [[v|e] h1]; simpl in E; subst h1; [|done].
  destruct (v =? 0); [done|exact IH].
Qed.

Lemma puzzle_new_spec (board : loc) (goal : option loc) (h h' : gmap loc obj)
    (l : loc) :
  puzzle_new board goal h = (Ok l, h') ->
  h !! l = None /\
  exists blank_pos, h' = <[l := OPuzzle board 3 blank_pos goal]> h.
Proof.
  unfold puzzle_new, bind.
  pose proof (find_blank_from_h_heap board (Puzzle.cells 3) h) as E.
  destruct (find_blank_from_h board (Puzzle.cells 3) h) as [[bp|e] h1];
    simpl in E; subst h1; [|done].
  unfold alloc. intros [= <- <-]. split; [apply fresh_lookup_None|by exists bp].
Qed.

Lemma read_puzzle_spec (self : loc) (h h' : gmap loc obj)
    (p : loc * Z * (Z * Z) * option loc) :
  read_puzzle self h = (Ok p, h') ->
  h' = h /\ h !! self = Some (OPuzzle p.1.1.1 p.1.1.2 p.1.2 p.2).
Proof.
  unfold read_puzzle, bind, read.
  destruct (h !! self) as [[| |b sz bp g|]|]; try done.
  by intros [= <- <-].
Qed.

(** One pass of the comprehension: the list grows by at most one instance,
    which is new, refers to a new board and to the parent's goal. *)
Lemma puzzle_neighbor_body_shares (self : loc) (m : string) (acc acc' : list loc)
    (h h' : gmap loc obj) (b : loc) (sz : Z) (bp : Z * Z) (goal : option loc) :
  h !! self = Some (OPuzzle b sz bp goal) ->
  puzzle_neighbor_body self m acc h = (Ok acc', h') ->
  h ⊆ h' /\
  (acc' = acc \/
   exists n nb bp', acc' = acc ++ [n] /\
     h' !! n = Some (OPuzzle nb 3 bp' goal) /\
     h !! n = None /\ h !! nb = None).
Proof.
  intros Hself. unfold puzzle_neighbor_body. unfold bind at 1.
  destruct (frames_move h self m h (extends_refl h)) as [[Hsub _] Hfresh].
  destruct (move self m h) as [[r|e] h1] eqn:Em; [|done].
  simpl in Hsub, Hfresh. destruct r as [s|].
  2:{ intros [= <- <-]. split; [done|by left]. }
  specialize (Hfresh (Some s) eq_refl s eq_refl).
  assert (extends h h1) as Hext.
  { pose proof (frames_move h self m h (extends_refl h)) as [Hx _].
    by rewrite Em in Hx. }
  unfold bind at 1.
  destruct (frames_read_puzzle h s h1 Hext) as [_ Hnb].
  destruct (read_puzzle s h1) as [[p|e] h2] eqn:Er; [|done].
  apply read_puzzle_spec in Er as [-> Hs].
  destruct p as [[[nb sz1] bp1] g1]. simpl in Hs.
  specialize (Hnb _ eq_refl Hfresh). simpl in Hnb.
  unfold bind at 1.
  assert (read_puzzle self h1 = (Ok (b, sz, bp, goal), h1)) as ->.
  { unfold read_puzzle, bind, read.
    by rewrite (lookup_weaken _ _ _ _ Hself Hsub). }
  unfold bind.
  destruct (puzzle_new nb goal h1) as [[n|e] h3] eqn:En; [|done].
  apply puzzle_new_spec in En as [Hn [bp' ->]].
  intros [= <- <-]. split.
  - etrans; [exact Hsub|]. by apply insert_subseteq.
  - right. exists n, nb, bp'. split_and!; [done| |by eapply lookup_weaken_None|done].
    by rewrite lookup_insert_eq.
Qed.

Lemma puzzle_neighbors_loop_shares (self : loc) (moves : list string)
    (b : loc) (sz : Z) (bp : Z * Z) (goal : option loc)
    (h0 : gmap loc obj) :
  h0 !! self = Some (OPuzzle b sz bp goal) ->
  forall (acc ns : list loc) (h h' : gmap loc obj),
    h0 ⊆ h ->
    (forall n, n ∈ acc -> exists nb bp',
       h !! n = Some (OPuzzle nb 3 bp' goal) /\
       h0 !! n = None /\ h0 !! nb = None) ->
    for_each_h moves (puzzle_neighbor_body self) acc h = (Ok ns, h') ->
    h0 ⊆ h' /\
    forall n, n ∈ ns -> exists nb bp',
      h' !! n = Some (OPuzzle nb 3 bp' goal) /\
      h0 !! n = None /\ h0 !! nb = None.
Proof.
  intros Hself. induction moves as [|m moves IH]; intros acc ns h h' Hsub Hacc E.
  - simpl in E. injection E as <- <-. done.
  - cbn [for_each_h] in E. unfold bind in E.
    destruct (puzzle_neighbor_body self m acc h) as [[acc1|e] h1] eqn:Eb;
      [|done].
    apply (puzzle_neighbor_body_shares self m acc acc1 h h1 b sz bp goal)
      in Eb as [Hsub1 Hor]; [|by eapply lookup_weaken].
    apply (IH acc1 ns h1 h'); [by etrans| |done].
    intros n Hn.
    destruct Hor as [->|(n1 & nb & bp' & -> & Hn1 & Hf1 & Hf2)].
    + destruct (Hacc n Hn) as (nb & bp' & H1 & H2 & H3).
      exists nb, bp'. split_and!; [by eapply lookup_weaken|done|done].
    + apply elem_of_app in Hn as [Hn|Hn].
      * destruct (Hacc n Hn) as (nb' & bp'' & H1 & H2 & H3).
        exists nb', bp''. split_and!; [by eapply lookup_weaken|done|done].
      * apply list_elem_of_singleton in Hn as ->.
        exists nb, bp'. split_and!; [done| |]; by eapply lookup_weaken_None.
Qed.

(** X27: on the store, every instance that
    [EightPuzzleHillClimbing.get_neighbors] returns is a new object that
    refers to a board object of its own, made since the call, and to the very
    goal object of the parent: the goal is shared, not copied, and the parent
    is left as it was. *)
Theorem puzzle_neighbors_share_goal (h h' : gmap loc obj) (self : loc)
    (b : loc) (sz : Z) (bp : Z * Z) (goal : option loc) (ns : list loc) :
  h !! self = Some (OPuzzle b sz bp goal) ->
  puzzle_get_neighbors self h = (Ok ns, h') ->
  h' !! self = Some (OPuzzle b sz bp goal) /\
  forall n, n ∈ ns -> exists nb bp',
    h' !! n = Some (OPuzzle nb 3 bp' goal) /\
    h !! n = None /\ h !! nb = None.
Proof.
  intros Hself E. unfold puzzle_get_neighbors, bind in E.
  assert (exists moves, get_possible_moves self h = (Ok moves, h))
    as [moves Em].
  { unfold get_possible_moves. unfold bind at 1.
    assert (read_puzzle self h = (Ok (b, sz, bp, goal), h)) as ->.
    { unfold read_puzzle, bind, read. by rewrite Hself. }
    destruct bp as [x y]. by eexists. }
  rewrite Em in E.
  destruct (puzzle_neighbors_loop_shares self moves b sz bp goal h Hself
              [] ns h h') as [Hsub Hall]; [done| |done|].
  { intros n Hn. by apply not_elem_of_nil in Hn. }
  split; [by eapply lookup_weaken|exact Hall].
Qed.

End GoalSharing.

Lemma puzzle_neighbors_share_goal_witness :
  exists ns h',
    Store.puzzle_get_neighbors 7%nat
      (<[7%nat := Store.OPuzzle 3%nat 3 (0, 1) (Some 4%nat)]> Store.sample) =
      (Ok ns, h') /\
    length ns = 3%nat /\
    Forall (fun n => exists nb bp',
              h' !! n = Some (Store.OPuzzle nb 3 bp' (Some 4%nat))) ns.
Proof.
  set (h := <[7%nat := Store.OPuzzle 3%nat 3 (0, 1) (Some 4%nat)]> Store.sample).
  destruct (Store.puzzle_get_neighbors 7%nat h) as [[ns|e] h'] eqn:E.
  2:{ vm_compute in E. discriminate E. }
  exists ns, h'. split; [reflexivity|].
  assert (h !! 7%nat = Some (Store.OPuzzle 3%nat 3 (0, 1) (Some 4%nat)))
    as Hself by (vm_compute; reflexivity).
  destruct (puzzle_neighbors_share_goal h h' 7%nat 3%nat 3 (0, 1) (Some 4%nat)
              ns Hself E) as [_ Hall].
  split.
  - vm_compute in E. injection E as <- _. reflexivity.
  - apply Forall_forall. intros n Hn.
    destruct (Hall n Hn) as (nb & bp' & H1 & _). by exists nb, bp'.
Defined.

(** ** Annealing without inner passes *)

Section NoPasses.
Import Engine Annealing.
Context {T R F : Type}.
Context `{HillClimbingProblem T} `{FloatOps F} `{RandomSource R F}.

Lemma anneal_loop_no_passes (cfg : config F) (k : nat) (temp : F)
    (w : walk T R) :
  steps_per_temp cfg <= 0 ->
  float_gt (temp_after cfg k temp) (min_temp cfg) = false ->
  anneal_loop cfg (S k) temp w = Some (Ok (best_state w, scores w, rng w)).
Proof.
  intros Hsteps. revert temp. induction k as [|k IH]; intros temp Hcool.
  - cbn [anneal_loop]. simpl in Hcool. by rewrite Hcool.
  - cbn [anneal_loop]. destruct (float_gt temp (min_temp cfg)); [|done].
    assert (anneal_inner (Z.to_nat (steps_per_temp cfg)) temp w = Break w)
      as ->.
    { by replace (Z.to_nat (steps_per_temp cfg)) with 0%nat by lia. }
    apply IH. by rewrite <- temp_after_S_r.
Qed.

(** X28: with [steps_per_temp <= 0] no pass of the inner loop runs: once the
    temperature has fallen to [min_temp], [anneal] returns the initial state
    with the one-entry trace and the random generator untouched, whatever
    the neighbours are. *)
Theorem anneal_no_passes (initial_state : T) (cfg : config F) (k : nat) (r : R) :
  steps_per_temp cfg <= 0 ->
  float_gt (temp_after cfg k (initial_temp cfg)) (min_temp cfg) = false ->
  anneal (S k) initial_state cfg r =
    Some (Ok (initial_state, [evaluate initial_state], r)).
Proof.
  intros Hsteps Hcool. unfold anneal.
  by rewrite (anneal_loop_no_passes cfg k _ (start initial_state r) Hsteps Hcool).
Qed.

End NoPasses.

Lemma anneal_no_passes_witness :
  Annealing.anneal 2 Ridge.A (Annealing.mkConfig (100 # 1) (1 # 2) (60 # 1) 0)
    [3; 1]%nat = Some (Ok (Ridge.A, [5], [3; 1]%nat)).
Proof.
  change [5] with [Engine.evaluate Ridge.A].
  apply (anneal_no_passes (R := list nat) (F := Q) Ridge.A
           (Annealing.mkConfig (100 # 1) (1 # 2) (60 # 1) 0) 1%nat [3; 1]%nat).
  - simpl. lia.
  - vm_compute. reflexivity.
Defined.
